(** * mopidy/commands.py: command tree dispatch and component lifecycle

    A shallow embedding of [mopidy/commands.py]: the option converters,
    the [Command] tree with its recursive parser and help collector, and
    [RootCommand.run], which starts and stops the audio, backend, core and
    frontend actors.

    Text is modelled by [string]; Python 2's implicit coercion between
    [str] and [unicode] is outside the model. *)

From Stdlib Require Import ZArith String Ascii Bool Lia.
From stdpp Require Import gmap strings list fin_maps.

Local Open Scope string_scope.
Local Open Scope Z_scope.
Local Open Scope list_scope.
Local Open Scope stdpp_scope.

#[local] Set Warnings "-register-all".

(** ** Python string primitives used by the module *)

Module PyStr.

(** Characters removed by [str.strip()] without argument. *)
Definition isspace (c : ascii) : bool :=
  let n := nat_of_ascii c in
  (Nat.eqb n 32 || (Nat.leb 9 n && Nat.leb n 13))%bool.

Fixpoint lstrip_by (p : ascii -> bool) (s : string) : string :=
  match s with
  | EmptyString => EmptyString
  | String c s' => if p c then lstrip_by p s' else s
  end.

Fixpoint rstrip_by (p : ascii -> bool) (s : string) : string :=
  match s with
  | EmptyString => EmptyString
  | String c s' =>
      match rstrip_by p s' with
      | EmptyString => if p c then EmptyString else String c EmptyString
      | r => String c r
      end
  end.

Definition lstrip : string -> string := lstrip_by isspace.
Definition rstrip : string -> string := rstrip_by isspace.

(** [s.strip()]. *)
Definition strip (s : string) : string := rstrip (lstrip s).

(** [s.strip(chars)] for a single character. *)
Definition strip_char (c : ascii) (s : string) : string :=
  rstrip_by (Ascii.eqb c) (lstrip_by (Ascii.eqb c) s).

(** [s.upper()]. *)
Definition upper_char (c : ascii) : ascii :=
  let n := nat_of_ascii c in
  if (Nat.leb 97 n && Nat.leb n 122)%bool then ascii_of_nat (n - 32) else c.

Fixpoint upper (s : string) : string :=
  match s with
  | EmptyString => EmptyString
  | String c s' => String (upper_char c) (upper s')
  end.

(** [' ' * n]. *)
Fixpoint spaces (n : nat) : string :=
  match n with
  | O => EmptyString
  | S n' => String " "%char (spaces n')
  end.

(** [partition sep s]: the text before and after the first [sep], if any. *)
Fixpoint partition (sep : ascii) (s : string) : option (string * string) :=
  match s with
  | EmptyString => None
  | String c s' =>
      if Ascii.eqb c sep then Some (EmptyString, s')
      else match partition sep s' with
           | Some (a, b) => Some (String c a, b)
           | None => None
           end
  end.

(** [s.split(sep, 1)] for a one-character separator. *)
Definition split1 (sep : ascii) (s : string) : list string :=
  match partition sep s with
  | Some (a, b) => [a; b]
  | None => [s]
  end.

(** [s.split(sep)] for a one-character separator. *)
Fixpoint split_aux (sep : ascii) (cur : string) (s : string) : list string :=
  match s with
  | EmptyString => [cur]
  | String c s' =>
      if Ascii.eqb c sep then cur :: split_aux sep EmptyString s'
      else split_aux sep (cur +:+ String c EmptyString) s'
  end.

Definition split (sep : ascii) (s : string) : list string :=
  split_aux sep EmptyString s.

(** [sep.join(parts)]. *)
Definition join (sep : string) (parts : list string) : string :=
  String.concat sep parts.

(** [c in s]. *)
Fixpoint contains (c : ascii) (s : string) : bool :=
  match s with
  | EmptyString => false
  | String d s' => (Ascii.eqb d c || contains c s')%bool
  end.

(** [s.startswith(p)]. *)
Definition startswith (s p : string) : bool := String.prefix p s.

(** Truth value of a string: non-empty. *)
Definition nonempty (s : string) : bool :=
  match s with EmptyString => false | _ => true end.

Definition hexdigit (n : nat) : ascii :=
  ascii_of_nat (if Nat.ltb n 10 then 48 + n else 87 + n)%nat.

(** One character of [repr] of a [str] delimited by [quote]. *)
Definition repr_char (quote : ascii) (c : ascii) : string :=
  let n := nat_of_ascii c in
  if (Ascii.eqb c quote || Nat.eqb n 92)%bool
  then String (ascii_of_nat 92) (String c EmptyString)
  else if Nat.eqb n 9 then String (ascii_of_nat 92) "t"
  else if Nat.eqb n 10 then String (ascii_of_nat 92) "n"
  else if Nat.eqb n 13 then String (ascii_of_nat 92) "r"
  else if (Nat.ltb n 32 || Nat.leb 127 n)%bool
  then String (ascii_of_nat 92) "x" +:+
       String (hexdigit (n / 16)) (String (hexdigit (n mod 16)) EmptyString)
  else String c EmptyString.

Fixpoint repr_body (quote : ascii) (s : string) : string :=
  match s with
  | EmptyString => EmptyString
  | String c s' => repr_char quote c +:+ repr_body quote s'
  end.

(** [repr(s)] of a byte string: single quotes, unless the text has a
    single quote and no double quote. *)
Definition repr (s : string) : string :=
  let quote : ascii :=
    if (contains "'"%char s && negb (contains (ascii_of_nat 34) s))%bool
    then ascii_of_nat 34 else "'"%char in
  String quote (repr_body quote s) +:+ String quote EmptyString.

End PyStr.

(** ** Option converters (lines 26-37) *)

(** [config_files_type(value)]: [value.split(b':')]. *)
Definition config_files_type (value : string) : list string :=
  PyStr.split ":"%char value.

(** What a converter hands back to argparse: the converted value, or the
    message of the [argparse.ArgumentTypeError] it raised. *)
Inductive converted (A : Type) : Type :=
| Converted (a : A)
| ArgumentTypeError (message : string).
Arguments Converted {A} a.
Arguments ArgumentTypeError {A} message.

(** [config_override_type(value)].  Both unpackings raise [ValueError]
    before they bind anything, so the message is built from the
    argument as it was passed in. *)
Definition config_override_type (value : string)
  : converted (string * string * string) :=
  match PyStr.split1 "/"%char value with
  | [section; remainder] =>
      match PyStr.split1 "="%char remainder with
      | [key; value'] =>
          Converted (PyStr.strip section, PyStr.strip key, PyStr.strip value')
      | _ => ArgumentTypeError (value +:+ " must have the format section/key=value")
      end
  | _ => ArgumentTypeError (value +:+ " must have the format section/key=value")
  end.

(** ** Exceptions and results *)

Inductive stream : Type := stdout | stderr.

(** The exception classes the module raises, catches or lets through. *)
Inductive exn : Type :=
| _ParserError (message : string)
| _HelpError
| SystemExit (status : Z) (out : stream) (printed : string)
| BackendError (message : string)
| FrontendError (message : string)
| MixerError (message : string)
| KeyboardInterrupt
| OtherError (class_name : string).

Inductive result (A : Type) : Type :=
| Return (a : A)
| Raise (e : exn).
Arguments Return {A} a.
Arguments Raise {A} e.

#[global] Instance result_fmap : FMap result := fun A B f m =>
  match m with
  | Return a => Return (f a)
  | Raise e => Raise e
  end.

#[global] Instance result_ret : MRet result := fun A a => Return a.

#[global] Instance result_bind : MBind result := fun A B k m =>
  match m with
  | Return a => k a
  | Raise e => Raise e
  end.

Definition nl : string := String (ascii_of_nat 10) EmptyString.

(** ** Values held by namespaces, defaults and overrides *)

Inductive value : Type :=
| VNone
| VBool (b : bool)
| VInt (n : Z)
| VStr (s : string)
| VList (xs : list value)
| VTuple (xs : list value).

(** ** The argparse objects the module builds

    [_arguments] keeps the [(args, kwargs)] pairs that [_build] replays
    into [parser.add_argument]; the model keeps the [argparse.Action]
    each pair yields.  Only option flags are registered by this module
    (the single positional is the [_args] remainder [_build] adds), and
    specifications that [add_argument] rejects are not represented. *)

Module argparse.

Definition SUPPRESS : string := "==SUPPRESS==".

(** [nargs] of an option: [None] (one argument) or [0]. *)
Inductive nargs_t : Type := nargs_None | nargs_0.

Inductive help_t : Type := help_None | help_text (s : string) | help_SUPPRESS.

Inductive action_class : Type :=
| _StoreAction
| _StoreConstAction
| _AppendAction
| _CountAction
| _HelpAction
| _VersionAction (version : string).

Record Action : Type := {
  option_strings : list string;
  dest : string;
  nargs : nargs_t;
  const : value;
  default : option value;          (* [None] stands for [SUPPRESS] *)
  type : option (string -> converted value);
  help : help_t;
  metavar : option string;
  class : action_class }.

(** What is handed to an [argparse.HelpFormatter] before its
    [format_help()] is called. *)
Inductive item : Type :=
| add_usage (usage : option string) (actions : list Action) (prefix : option string)
| add_text (text : option string)
| section (heading : option string) (body : list item)
| add_arguments (actions : list Action).

Record HelpFormatter : Type := { prog : string; items : list item }.

End argparse.

(** ** [argparse.HelpFormatter.format_help] on plain documents

    The text the standard formatter produces when nothing has to be
    wrapped (every line fits the 78 columns it works with) and no text
    holds a [%] directive or a bracket.  The general theorems take the
    formatter as a parameter; this one serves to run the module on
    concrete command trees. *)

Module Formatter.
Import argparse.

Definition is_nl (c : ascii) : bool := Nat.eqb (nat_of_ascii c) 10.

(** [_whitespace_matcher.sub(' ', text)]. *)
Fixpoint squeeze (in_space : bool) (s : string) : string :=
  match s with
  | EmptyString => EmptyString
  | String c s' =>
      if PyStr.isspace c
      then (if in_space then squeeze true s' else String " "%char (squeeze true s'))
      else String c (squeeze false s')
  end.

Definition normalize (text : string) : string := PyStr.strip (squeeze false text).

(** [_long_break_matcher.sub('\n\n', help)]. *)
Fixpoint long_breaks (run : nat) (s : string) : string :=
  match s with
  | EmptyString => EmptyString
  | String c s' =>
      if is_nl c
      then (if Nat.ltb run 2 then String c (long_breaks (S run) s') else long_breaks run s')
      else String c (long_breaks 0 s')
  end.

Definition suppressed (action : Action) : bool :=
  match help action with help_SUPPRESS => true | _ => false end.

Definition _format_args (action : Action) : string :=
  match metavar action with
  | Some m => m
  | None => PyStr.upper (dest action)
  end.

Definition _format_action_invocation (action : Action) : string :=
  match nargs action with
  | nargs_0 => PyStr.join ", " (option_strings action)
  | nargs_None =>
      PyStr.join ", " (map (fun o => o +:+ " " +:+ _format_args action)
                           (option_strings action))
  end.

Definition usage_part (action : Action) : option string :=
  if suppressed action then None
  else
    match option_strings action with
    | [] => Some (_format_args action)
    | option_string :: _ =>
        Some ("[" +:+
              match nargs action with
              | nargs_0 => option_string
              | nargs_None => option_string +:+ " " +:+ _format_args action
              end +:+ "]")
    end.

Definition _format_usage (prog : string) (usage : option string)
           (actions : list Action) (prefix : option string) : string :=
  let prefix := match prefix with Some p => p | None => "usage: " end in
  let usage :=
    match usage with
    | Some u => u
    | None =>
        PyStr.join " "
          (filter (fun s => PyStr.nonempty s = true)
                  [prog; PyStr.join " " (omap usage_part actions)])
    end in
  prefix +:+ usage +:+ nl +:+ nl.

Definition _format_text (indent : nat) (text : string) : string :=
  match normalize text with
  | EmptyString => nl +:+ nl
  | t => PyStr.spaces indent +:+ t +:+ nl +:+ nl
  end.

Definition _format_action (action_max_length indent : nat) (action : Action)
  : string :=
  let help_position := Nat.min (action_max_length + 2) 24 in
  let action_header := _format_action_invocation action in
  let help_line :=
    match help action with
    | help_text h => if PyStr.nonempty h then Some (normalize h) else None
    | _ => None
    end in
  match help_line with
  | None => PyStr.spaces indent +:+ action_header +:+ nl
  | Some line =>
      if Nat.leb (String.length action_header + indent + 2) help_position
      then PyStr.spaces indent +:+ action_header +:+
           PyStr.spaces (help_position - indent - 2 - String.length action_header) +:+
           "  " +:+ line +:+ nl
      else PyStr.spaces indent +:+ action_header +:+ nl +:+
           PyStr.spaces help_position +:+ line +:+ nl
  end.

(** [formatter._action_max_length] once the items are added. *)
Fixpoint max_length (indent : nat) (it : item) : nat :=
  match it with
  | section _ body =>
      (fix loop (l : list item) : nat :=
         match l with
         | [] => O
         | i :: l' => Nat.max (max_length (indent + 2) i) (loop l')
         end) body
  | add_arguments actions =>
      foldr Nat.max O
        (map (fun a => String.length (_format_action_invocation a) + indent)%nat
             (filter (fun a => suppressed a = false) actions))
  | _ => O
  end.

Fixpoint format_item (prog : string) (action_max_length indent : nat) (it : item)
  : string :=
  match it with
  | add_usage usage actions prefix => _format_usage prog usage actions prefix
  | add_text None => EmptyString
  | add_text (Some text) => _format_text indent text
  | add_arguments actions =>
      String.concat EmptyString
        (map (_format_action action_max_length indent)
             (filter (fun a => suppressed a = false) actions))
  | section heading body =>
      let item_help :=
        (fix loop (l : list item) : string :=
           match l with
           | [] => EmptyString
           | i :: l' => format_item prog action_max_length (indent + 2) i +:+ loop l'
           end) body in
      match item_help with
      | EmptyString => EmptyString
      | _ =>
          nl +:+
          match heading with
          | Some h => PyStr.spaces indent +:+ h +:+ ":" +:+ nl
          | None => EmptyString
          end +:+ item_help +:+ nl
      end
  end.

Definition format_help (formatter : HelpFormatter) : string :=
  let action_max_length :=
    foldr Nat.max O (map (max_length 0) (items formatter)) in
  let item_help :=
    String.concat EmptyString
      (map (format_item (prog formatter) action_max_length 0) (items formatter)) in
  match item_help with
  | EmptyString => EmptyString
  | _ =>
      PyStr.strip_char (ascii_of_nat 10)
        (long_breaks 0 (nl +:+ item_help +:+ nl)) +:+ nl
  end.

End Formatter.

(** ** The command tree (lines 77-80, 94-112) *)

Inductive Command : Type := mkCommand {
  help : option string;
  _children : list (string * Command);   (* OrderedDict: keys unique *)
  _arguments : list argparse.Action;
  _overrides : gmap string value }.

(** An attribute of an [argparse.Namespace]: a plain value, or the
    command stored under [command]. *)
Inductive attr : Type :=
| Val (v : value)
| Ref (c : Command).

Abbreviation Namespace := (gmap string attr).

(** ** [_ArgumentParser.parse_args] (argparse of CPython 2.7)

    The parser [_build] makes: the node's option flags, then the
    positional [_args] with [nargs=argparse.REMAINDER], no prefix
    characters other than [-], [error] overridden to raise
    [_ParserError] (lines 48-50).  The parser is given by its list of
    option actions; an action is identified by its position. *)

Module ArgumentParser.
Import argparse.

Section parse_args.

(** [formatter.format_help()] of the standard library. *)
Variable HelpFormatter_format_help : HelpFormatter -> string.
(** [os.path.basename(sys.argv[0])]. *)
Variable progname : string.

Definition dash : ascii := "-"%char.

(** Entries of [parser._option_string_actions], by registration. *)
Definition _option_string_actions (parser : list Action)
  : list (string * (nat * Action)) :=
  flat_map (fun ia : nat * Action => map (fun s => (s, ia)) (option_strings ia.2))
           (imap pair parser).

Fixpoint assoc {A : Type} (k : string) (l : list (string * A)) : option A :=
  match l with
  | [] => None
  | (k', a) :: l' => if String.eqb k' k then Some a else assoc k l'
  end.

Definition isdigit (c : ascii) : bool :=
  let n := nat_of_ascii c in (Nat.leb 48 n && Nat.leb n 57)%bool.

Fixpoint skip_digits (s : string) : string :=
  match s with
  | String c s' => if isdigit c then skip_digits s' else s
  | EmptyString => EmptyString
  end.

(** One or more digits up to the end of the text, where the end may
    be followed by a single newline (as [$] allows). *)
Definition digits_to_end (s : string) : bool :=
  match s with
  | String c _ =>
      (isdigit c &&
       (String.eqb (skip_digits s) EmptyString || String.eqb (skip_digits s) nl))%bool
  | EmptyString => false
  end.

(** [parser._negative_number_matcher.match(s)] for
    [^-\d+$|^-\d*\.\d+$]. *)
Definition _negative_number_matcher (s : string) : bool :=
  match s with
  | String c r =>
      (Ascii.eqb c dash &&
       (digits_to_end r ||
        match skip_digits r with
        | String d f => (Ascii.eqb d "."%char && digits_to_end f)%bool
        | EmptyString => false
        end))%bool
  | EmptyString => false
  end.

Definition _has_negative_number_optionals (parser : list Action) : bool :=
  existsb (fun e : string * (nat * Action) => _negative_number_matcher e.1)
          (_option_string_actions parser).

(** [(action, option_string, explicit_arg)]. *)
Definition option_tuple : Type := option (nat * Action) * string * option string.

Definition _get_option_tuples (parser : list Action) (option_string : string)
  : list option_tuple :=
  match option_string with
  | String c0 (String c1 tail) =>
      if Ascii.eqb c1 dash then
        let '(option_prefix, explicit_arg) :=
          match PyStr.partition "="%char option_string with
          | Some (a, b) => (a, Some b)
          | None => (option_string, None)
          end in
        omap (fun e : string * (nat * Action) =>
                if PyStr.startswith e.1 option_prefix
                then Some (Some e.2, e.1, explicit_arg) else None)
             (_option_string_actions parser)
      else
        let short_option_prefix := String c0 (String c1 EmptyString) in
        omap (fun e : string * (nat * Action) =>
                if String.eqb e.1 short_option_prefix
                then Some (Some e.2, e.1, Some tail)
                else if PyStr.startswith e.1 option_string
                then Some (Some e.2, e.1, None) else None)
             (_option_string_actions parser)
  | _ => []
  end.

(** [parser._parse_optional(arg_string)]: [None] for a positional. *)
Definition _parse_optional (parser : list Action) (arg_string : string)
  : result (option option_tuple) :=
  match arg_string with
  | EmptyString => Return None
  | String c0 rest =>
      if negb (Ascii.eqb c0 dash) then Return None else
      match assoc arg_string (_option_string_actions parser) with
      | Some ia => Return (Some (Some ia, arg_string, None))
      | None =>
          if String.eqb rest EmptyString then Return None else
          let by_equals :=
            match PyStr.partition "="%char arg_string with
            | Some (option_string, explicit_arg) =>
                match assoc option_string (_option_string_actions parser) with
                | Some ia => Some (Some ia, option_string, Some explicit_arg)
                | None => None
                end
            | None => None
            end in
          match by_equals with
          | Some t => Return (Some t)
          | None =>
              match _get_option_tuples parser arg_string with
              | [t] => Return (Some t)
              | (_ :: _ :: _) as ts =>
                  Raise (_ParserError
                    ("ambiguous option: " +:+ arg_string +:+ " could match " +:+
                     PyStr.join ", " (map (fun t : option_tuple => snd (fst t)) ts)))
              | [] =>
                  if (_negative_number_matcher arg_string &&
                      negb (_has_negative_number_optionals parser))%bool
                  then Return None
                  else if PyStr.contains " "%char arg_string then Return None
                  else Return (Some (None, arg_string, None))
              end
          end
      end
  end.

(** One letter of [arg_strings_pattern]. *)
Inductive pattern : Type :=
| pattern_A
| pattern_dashes
| pattern_O (t : option_tuple).

Fixpoint arg_strings_pattern (parser : list Action) (arg_strings : list string)
  : result (list (string * pattern)) :=
  match arg_strings with
  | [] => Return []
  | arg_string :: rest =>
      if String.eqb arg_string "--"
      then Return ((arg_string, pattern_dashes) :: map (fun s => (s, pattern_A)) rest)
      else
        t ← _parse_optional parser arg_string;
        ps ← arg_strings_pattern parser rest;
        Return ((arg_string, match t with Some t => pattern_O t | None => pattern_A end) :: ps)
  end.

(** [ArgumentError(action, message)] is raised only inside
    [parse_known_args], which answers with [self.error(str(err))]. *)
Definition _get_action_name (action : Action) : option string :=
  match option_strings action with
  | _ :: _ => Some (PyStr.join "/" (option_strings action))
  | [] =>
      match metavar action with
      | Some m => Some m
      | None => if String.eqb (dest action) SUPPRESS then None else Some (dest action)
      end
  end.

Definition ArgumentError (action : Action) (message : string) : exn :=
  _ParserError
    match _get_action_name action with
    | Some name => "argument " +:+ name +:+ ": " +:+ message
    | None => message
    end.

Definition _get_value (action : Action) (arg_string : string) : result value :=
  match type action with
  | None => Return (VStr arg_string)
  | Some type_func =>
      match type_func arg_string with
      | Converted v => Return v
      | ArgumentTypeError msg => Raise (ArgumentError action msg)
      end
  end.

Fixpoint remove_first (x : string) (l : list string) : list string :=
  match l with
  | [] => []
  | y :: l' => if String.eqb y x then l' else y :: remove_first x l'
  end.

Definition _get_values (action : Action) (arg_strings : list string) : result value :=
  match remove_first "--" arg_strings, nargs action with
  | [arg_string], nargs_None => _get_value action arg_string
  | arg_strings', _ => VList <$> mapM (_get_value action) arg_strings'
  end.

(** [argparse._ensure_value(namespace, name, value)]. *)
Definition _ensure_value (namespace : Namespace) (name : string) (v : value)
  : Namespace * attr :=
  match namespace !! name with
  | None | Some (Val VNone) => (<[name := Val v]> namespace, Val v)
  | Some a => (namespace, a)
  end.

(** [action(parser, namespace, values, option_string)]. *)
Definition call (action : Action) (namespace : Namespace) (values : value)
  : result Namespace :=
  match class action with
  | _StoreAction => Return (<[dest action := Val values]> namespace)
  | _StoreConstAction => Return (<[dest action := Val (const action)]> namespace)
  | _AppendAction =>
      let '(namespace, items) := _ensure_value namespace (dest action) (VList []) in
      match items with
      | Val (VList xs) =>
          Return (<[dest action := Val (VList (xs ++ [values]))]> namespace)
      | _ => Raise (OtherError "AttributeError")
      end
  | _CountAction =>
      let '(namespace, count) := _ensure_value namespace (dest action) (VInt 0) in
      match count with
      | Val (VInt n) => Return (<[dest action := Val (VInt (n + 1))]> namespace)
      | Val (VBool b) =>
          Return (<[dest action := Val (VInt ((if b then 1 else 0) + 1))]> namespace)
      | _ => Raise (OtherError "TypeError")
      end
  | _HelpAction => Raise _HelpError
  | _VersionAction version =>
      Raise (SystemExit 0 stderr
               (HelpFormatter_format_help
                  {| prog := progname; items := [add_text (Some version)] |}))
  end.

(** The namespace, the positions of the actions seen, the extras. *)
Record state : Type := {
  namespace : Namespace;
  seen_actions : list nat;
  extras : list string }.

Definition take_action (ia : nat * Action) (argument_strings : list string)
           (st : state) : result state :=
  argument_values ← _get_values ia.2 argument_strings;
  ns ← call ia.2 (namespace st) argument_values;
  Return {| namespace := ns;
            seen_actions := ia.1 :: seen_actions st;
            extras := extras st |}.

(** [(action, args, option_string)] collected by [consume_optional]. *)
Definition action_tuple : Type := (nat * Action) * list string.

Definition second_is_dash (option_string : string) : option bool :=
  match option_string with
  | String _ (String c _) => Some (Ascii.eqb c dash)
  | _ => None
  end.

Definition first_char (option_string : string) : ascii :=
  match option_string with
  | String c _ => c
  | EmptyString => dash
  end.

(** The loop of [consume_optional] while an explicit argument is
    left: [Return (tuples, Some action)] when the option found last
    has to match its arguments against the strings that follow,
    [Return (tuples, None)] when the explicit argument was taken. *)
Fixpoint explicit_loop (parser : list Action) (ia : nat * Action)
         (option_string : string) (explicit_arg : string)
  : result (list action_tuple * option (nat * Action)) :=
  match nargs ia.2 with
  | nargs_None => Return ([(ia, [explicit_arg])], None)
  | nargs_0 =>
      match second_is_dash option_string with
      | None => Raise (OtherError "IndexError")
      | Some true =>
          Raise (ArgumentError ia.2
                   ("ignored explicit argument " +:+ PyStr.repr explicit_arg))
      | Some false =>
          match explicit_arg with
          | EmptyString => Raise (OtherError "IndexError")
          | String c new_explicit_arg =>
              let option_string' :=
                String (first_char option_string) (String c EmptyString) in
              match assoc option_string' (_option_string_actions parser) with
              | None =>
                  Raise (ArgumentError ia.2
                           ("ignored explicit argument " +:+ PyStr.repr explicit_arg))
              | Some ia' =>
                  match new_explicit_arg with
                  | EmptyString => Return ([(ia, [])], Some ia')
                  | _ =>
                      r ← explicit_loop parser ia' option_string' new_explicit_arg;
                      Return ((ia, []) :: r.1, r.2)
                  end
              end
          end
      end
  end.

Fixpoint take_actions (tuples : list action_tuple) (st : state) : result state :=
  match tuples with
  | [] => Return st
  | (ia, args) :: tuples' => st' ← take_action ia args st; take_actions tuples' st'
  end.

(** The main loop of [_parse_known_args].  With [_args] as the only
    positional, the first string that is not an option (or the end
    of the list) hands everything left to [_args]. *)
Fixpoint consume (parser : list Action) (strings : list (string * pattern))
         (st : state) : result state :=
  match strings with
  | (arg_string, pattern_O (action, option_string, explicit_arg)) :: rest =>
      match action with
      | None =>
          consume parser rest
            {| namespace := namespace st; seen_actions := seen_actions st;
               extras := extras st ++ [arg_string] |}
      | Some ia =>
          r ← match explicit_arg with
              | Some e => explicit_loop parser ia option_string e
              | None => Return ([], Some ia)
              end;
          match r.2 with
          | None => st' ← take_actions r.1 st; consume parser rest st'
          | Some last =>
              match nargs last.2, rest with
              | nargs_0, _ =>
                  st' ← take_actions (r.1 ++ [(last, [])]) st;
                  consume parser rest st'
              | nargs_None, (arg, pattern_A) :: rest' =>
                  st' ← take_actions (r.1 ++ [(last, [arg])]) st;
                  consume parser rest' st'
              | nargs_None, _ =>
                  Raise (ArgumentError last.2 "expected one argument")
              end
          end
      end
  | _ =>
      Return {| namespace := <["_args" := Val (VList (map (fun p => VStr p.1) strings))]>
                               (namespace st);
                seen_actions := seen_actions st;
                extras := extras st |}
  end.

(** Defaults of the actions not yet in the namespace, in order; the
    positional [_args] (default [None]) comes last. *)
Fixpoint add_defaults (actions : list Action) (ns : Namespace) : Namespace :=
  match actions with
  | [] => ns
  | action :: actions' =>
      add_defaults actions'
        (if String.eqb (dest action) SUPPRESS then ns
         else match ns !! dest action, default action with
              | None, Some d => <[dest action := Val d]> ns
              | _, _ => ns
              end)
  end.

Definition add_args_default (ns : Namespace) : Namespace :=
  match ns !! "_args" with
  | None => <["_args" := Val VNone]> ns
  | Some _ => ns
  end.

Definition seen (i : nat) (st : state) : bool :=
  existsb (Nat.eqb i) (seen_actions st).

Definition is_default (a : attr) (s : string) : bool :=
  match a with
  | Val (VStr s') => String.eqb s' s
  | _ => false
  end.

(** String defaults of the actions that were not seen are converted
    once parsing is over. *)
Fixpoint convert_defaults (actions : list (nat * Action)) (st : state)
  : result state :=
  match actions with
  | [] => Return st
  | (i, action) :: actions' =>
      match seen i st, default action, namespace st !! dest action with
      | false, Some (VStr d), Some a =>
          if is_default a d then
            v ← _get_value action d;
            convert_defaults actions'
              {| namespace := <[dest action := Val v]> (namespace st);
                 seen_actions := seen_actions st; extras := extras st |}
          else convert_defaults actions' st
      | _, _, _ => convert_defaults actions' st
      end
  end.

(** [parser.parse_args(args, namespace)]. *)
Definition parse_args (parser : list Action) (args : list string)
           (ns : Namespace) : result Namespace :=
  let ns := add_args_default (add_defaults parser ns) in
  strings ← arg_strings_pattern parser args;
  st ← consume parser strings {| namespace := ns; seen_actions := []; extras := [] |};
  st ← convert_defaults (imap pair parser) st;
  match extras st with
  | [] => Return (namespace st)
  | argv =>
      Raise (_ParserError ("unrecognized arguments: " +:+ PyStr.join " " argv))
  end.

End parse_args.
End ArgumentParser.

(** ** How the parser divides the command line

    [consume] takes the flags from the front of the command line, each
    alone or with the string after it as its argument, and leaves
    everything from the first string that is neither for [_args]. *)

(** The flag of the entry [t] takes the string after it as its
    argument: the option found last has [nargs=None] and no explicit
    argument (as in [--config=FILES]) was given to it. *)
Definition wants_argument (parser : list argparse.Action)
           (t : ArgumentParser.option_tuple) : bool :=
  match t with
  | (None, _, _) => false
  | (Some ia, option_string, explicit_arg) =>
      match match explicit_arg with
            | Some e => ArgumentParser.explicit_loop parser ia option_string e
            | None => Return ([], Some ia)
            end with
      | Return (_, Some last) =>
          match argparse.nargs last.2 with
          | argparse.nargs_None => true
          | argparse.nargs_0 => false
          end
      | _ => false
      end
  end.

(** A flag alone, or a flag and the positional string it takes, as
    letters of the pattern [consume] goes through. *)
Definition pattern_group (parser : list argparse.Action)
           (group : list (string * ArgumentParser.pattern)) : Prop :=
  match group with
  | [(_, ArgumentParser.pattern_O t)] => wants_argument parser t = false
  | [(_, ArgumentParser.pattern_O t); (_, ArgumentParser.pattern_A)] =>
      wants_argument parser t = true
  | _ => False
  end.

(** A string that is no flag: a positional, or [--]. *)
Definition positional (p : ArgumentParser.pattern) : bool :=
  match p with
  | ArgumentParser.pattern_O _ => false
  | _ => true
  end.

(** The same on the command line itself.  A flag is a string other
    than [--] that [_parse_optional] takes for an option, [t] being
    what it found. *)
Definition is_flag (parser : list argparse.Action) (arg_string : string)
           (t : ArgumentParser.option_tuple) : Prop :=
  arg_string <> "--" /\
  ArgumentParser._parse_optional parser arg_string = Return (Some t).

Definition no_flag (parser : list argparse.Action) (arg_string : string) : Prop :=
  arg_string = "--" \/
  ArgumentParser._parse_optional parser arg_string = Return None.

(** A flag alone, or a flag and the string it takes, which is a
    positional other than [--]. *)
Definition flag_group (parser : list argparse.Action) (group : list string) : Prop :=
  match group with
  | [flag] => exists t, is_flag parser flag t /\ wants_argument parser t = false
  | [flag; value] =>
      exists t, is_flag parser flag t /\ wants_argument parser t = true /\
                value <> "--" /\
                ArgumentParser._parse_optional parser value = Return None
  | _ => False
  end.

(** What is left for [_args] does not start with a flag. *)
Definition starts_no_flag (parser : list argparse.Action) (rest : list string) : Prop :=
  match rest with
  | [] => True
  | arg_string :: _ => no_flag parser arg_string
  end.

(** ** [Command] (lines 66-225) *)

Section Command.

(** [formatter.format_help()] of the standard library. *)
Variable HelpFormatter_format_help : argparse.HelpFormatter -> string.
(** [os.path.basename(sys.argv[0])]. *)
Variable progname : string.

Definition Command_init (help : option string) : Command :=
  {| help := help; _children := []; _arguments := []; _overrides := ∅ |}.

(** [d[name] = command] on an [OrderedDict]: a key already there keeps
    its place. *)
Fixpoint setitem (name : string) (command : Command)
         (d : list (string * Command)) : list (string * Command) :=
  match d with
  | [] => [(name, command)]
  | (k, c) :: d' =>
      if String.eqb k name then (k, command) :: d'
      else (k, c) :: setitem name command d'
  end.

Definition add_child (name : string) (command : Command) (self : Command) : Command :=
  {| help := help self;
     _children := setitem name command (_children self);
     _arguments := _arguments self;
     _overrides := _overrides self |}.

Definition add_argument (action : argparse.Action) (self : Command) : Command :=
  {| help := help self;
     _children := _children self;
     _arguments := _arguments self ++ [action];
     _overrides := _overrides self |}.

(** [self._overrides.update(kwargs)]. *)
Definition set (kwargs : gmap string value) (self : Command) : Command :=
  {| help := help self;
     _children := _children self;
     _arguments := _arguments self;
     _overrides := kwargs ∪ _overrides self |}.

(** [_build()[1]]: the actions of the node's own arguments. *)
Definition _build (self : Command) : list argparse.Action := _arguments self.

(** Truth value of an optional text. *)
Definition truthy (m : option string) : bool :=
  match m with
  | Some s => PyStr.nonempty s
  | None => false
  end.

Definition or_progname (prog : option string) : string :=
  match prog with
  | Some p => if PyStr.nonempty p then p else progname
  | None => progname
  end.

(** [exit(status_code, message, usage)]: print, then [sys.exit]. *)
Definition exit {A : Type} (status_code : Z) (message usage : option string)
  : result A :=
  Raise (SystemExit status_code stdout
           (PyStr.join (nl +:+ nl)
              (omap (fun m => if truthy m then m else None) [usage; message])
            +:+ nl)).

Definition _usage (actions : list argparse.Action) (prog : string) : string :=
  PyStr.strip
    (HelpFormatter_format_help
       {| argparse.prog := prog;
          argparse.items := [argparse.add_usage None actions None] |}).

Definition format_usage (self : Command) (prog : option string) : string :=
  _usage (_build self) (or_progname prog) +:+ nl.

Definition has_block (self : Command) : bool :=
  (truthy (help self) || match _build self with [] => false | _ => true end)%bool.

(** The text [_subhelp] appends for the node itself. *)
Definition block (self : Command) (name : string) : string :=
  HelpFormatter_format_help
    {| argparse.prog := name;
       argparse.items :=
         [argparse.add_usage None (_build self) (Some EmptyString);
          argparse.section None
            [argparse.add_text (help self);
             argparse.section None [argparse.add_arguments (_build self)]]] |}.

(** [_subhelp(name, result)]: the texts appended to [result]. *)
Fixpoint _subhelp (self : Command) (name : string) : list string :=
  (if has_block self then [block self name] else []) ++
  (fix loop (children : list (string * Command)) : list string :=
     match children with
     | [] => []
     | (childname, child) :: children' =>
         _subhelp child (PyStr.join " " [name; childname]) ++ loop children'
     end) (_children self).

(** The loop of lines 147-149. *)
Definition subhelp (self : Command) : list string :=
  flat_map (fun nc : string * Command => _subhelp nc.2 nc.1) (_children self).

Definition format_help (self : Command) (prog : option string) : string :=
  let actions := _build self in
  let subhelp := subhelp self in
  HelpFormatter_format_help
    {| argparse.prog := or_progname prog;
       argparse.items :=
         [argparse.add_usage None actions None] ++
         (if truthy (help self) then [argparse.add_text (help self)] else []) ++
         (match actions with
          | [] => []
          | _ => [argparse.add_text (Some "OPTIONS:");
                  argparse.section None [argparse.add_arguments actions]]
          end) ++
         (match subhelp with
          | [] => []
          | _ => [argparse.add_text (Some "COMMANDS:")]
          end) |}
  +:+ PyStr.join nl (match subhelp with [] => [] | _ => EmptyString :: subhelp end).

(** Truth value of an attribute. *)
Definition attr_truthy (a : attr) : bool :=
  match a with
  | Val VNone => false
  | Val (VBool b) => b
  | Val (VInt n) => negb (n =? 0)
  | Val (VStr s) => PyStr.nonempty s
  | Val (VList xs) | Val (VTuple xs) => match xs with [] => false | _ => true end
  | Ref _ => true
  end.

(** The strings of a list attribute. *)
Definition strings (a : attr) : option (list string) :=
  match a with
  | Val (VList xs) => mapM (fun v => match v with VStr s => Some s | _ => None end) xs
  | _ => None
  end.

(** Lines 205-206: [setattr(result, attr, value)] for each override. *)
Definition apply_overrides (overrides : gmap string value) (result : Namespace)
  : Namespace :=
  (Val <$> overrides) ∪ result.

(** Lines 204-209, the terminal node. *)
Definition finish (self : Command) (overrides : gmap string value)
           (result : Namespace) : Namespace :=
  <["command" := Ref self]> (delete "_args" (apply_overrides overrides result)).

Definition unrecognized {A : Type} (self : Command) (prog child : string) : result A :=
  exit 1 (Some ("unrecognized command: " +:+ child)) (Some (_usage (_build self) prog)).

(** [_parse(args, namespace, overrides, prog)].  [parse_args] always
    leaves a list of strings under [_args]; the branches for any other
    content are never taken. *)
Fixpoint _parse (self : Command) (args : list string) (namespace : Namespace)
         (overrides : gmap string value) (prog : string) : result Namespace :=
  let overrides := _overrides self ∪ overrides in
  let actions := _build self in
  match ArgumentParser.parse_args HelpFormatter_format_help progname
          actions args namespace with
  | Raise (_ParserError message) => exit 1 (Some message) (Some (_usage actions prog))
  | Raise e => Raise e
  | Return parsed =>
      match parsed !! "_args" with
      | None => Raise (OtherError "AttributeError")
      | Some _args =>
          if negb (attr_truthy _args) then Return (finish self overrides parsed)
          else
            match strings _args with
            | Some (child :: rest) =>
                (fix lookup (children : list (string * Command)) : result Namespace :=
                   match children with
                   | [] => unrecognized self prog child
                   | (name, command) :: children' =>
                       if String.eqb name child
                       then _parse command rest
                              (<["_args" := Val (VList (VStr <$> rest))]> parsed)
                              overrides (PyStr.join " " [prog; child])
                       else lookup children'
                   end) (_children self)
            | _ => Raise (OtherError "TypeError")
            end
      end
  end.

(** [parse(args, prog)]. *)
Definition parse (self : Command) (args : list string) (prog : option string)
  : result Namespace :=
  let prog := or_progname prog in
  match _parse self args ∅ (_overrides self) prog with
  | Raise _HelpError => exit 0 (Some (format_help self (Some prog))) None
  | r => r
  end.

End Command.

(** ** [RootCommand.__init__], [ConfigCommand], [DepsCommand] *)

Section commands.

(** [versioning.get_version()]. *)
Variable get_version : string.
(** The module constant [DEFAULT_CONFIG] (lines 20-23). *)
Variable DEFAULT_CONFIG : string.

Definition help_argument : argparse.Action :=
  {| argparse.option_strings := ["-h"; "--help"];
     argparse.dest := "help";
     argparse.nargs := argparse.nargs_0;
     argparse.const := VNone;
     argparse.default := None;
     argparse.type := None;
     argparse.help := argparse.help_text "Show this message and exit";
     argparse.metavar := None;
     argparse.class := argparse._HelpAction |}.

Definition version_argument : argparse.Action :=
  {| argparse.option_strings := ["--version"];
     argparse.dest := "version";
     argparse.nargs := argparse.nargs_0;
     argparse.const := VNone;
     argparse.default := None;
     argparse.type := None;
     argparse.help := argparse.help_text "show program's version number and exit";
     argparse.metavar := None;
     argparse.class := argparse._VersionAction ("Mopidy " +:+ get_version) |}.

Definition quiet_argument : argparse.Action :=
  {| argparse.option_strings := ["-q"; "--quiet"];
     argparse.dest := "verbosity_level";
     argparse.nargs := argparse.nargs_0;
     argparse.const := VInt (-1);
     argparse.default := Some VNone;
     argparse.type := None;
     argparse.help := argparse.help_text "less output (warning level)";
     argparse.metavar := None;
     argparse.class := argparse._StoreConstAction |}.

Definition verbose_argument : argparse.Action :=
  {| argparse.option_strings := ["-v"; "--verbose"];
     argparse.dest := "verbosity_level";
     argparse.nargs := argparse.nargs_0;
     argparse.const := VNone;
     argparse.default := Some (VInt 0);
     argparse.type := None;
     argparse.help :=
       argparse.help_text "more output (repeat up to 3 times for even more)";
     argparse.metavar := None;
     argparse.class := argparse._CountAction |}.

Definition save_debug_log_argument : argparse.Action :=
  {| argparse.option_strings := ["--save-debug-log"];
     argparse.dest := "save_debug_log";
     argparse.nargs := argparse.nargs_0;
     argparse.const := VBool true;
     argparse.default := Some (VBool false);
     argparse.type := None;
     argparse.help := argparse.help_text
       ("save debug log to " +:+ String (ascii_of_nat 34) "./mopidy.log" +:+
        String (ascii_of_nat 34) EmptyString);
     argparse.metavar := None;
     argparse.class := argparse._StoreConstAction |}.

Definition config_argument : argparse.Action :=
  {| argparse.option_strings := ["--config"];
     argparse.dest := "config_files";
     argparse.nargs := argparse.nargs_None;
     argparse.const := VNone;
     argparse.default := Some (VStr DEFAULT_CONFIG);
     argparse.type :=
       Some (fun arg_string => Converted (VList (VStr <$> config_files_type arg_string)));
     argparse.help :=
       argparse.help_text "config files to use, colon seperated, later files override";
     argparse.metavar := Some "FILES";
     argparse.class := argparse._StoreAction |}.

Definition option_type (arg_string : string) : converted value :=
  match config_override_type arg_string with
  | Converted (section, key, v) => Converted (VTuple [VStr section; VStr key; VStr v])
  | ArgumentTypeError message => ArgumentTypeError message
  end.

Definition option_argument : argparse.Action :=
  {| argparse.option_strings := ["-o"; "--option"];
     argparse.dest := "config_overrides";
     argparse.nargs := argparse.nargs_None;
     argparse.const := VNone;
     argparse.default := Some VNone;
     argparse.type := Some option_type;
     argparse.help :=
       argparse.help_text "`section/key=value` values to override config options";
     argparse.metavar := Some "OPTIONS";
     argparse.class := argparse._AppendAction |}.

(** [RootCommand()] (lines 229-259). *)
Definition RootCommand : Command :=
  add_argument option_argument
    (add_argument config_argument
      (add_argument save_debug_log_argument
        (add_argument verbose_argument
          (add_argument quiet_argument
            (add_argument version_argument
              (add_argument help_argument
                (set {["base_verbosity_level" := VInt 0]}
                   (Command_init None)))))))).

(** [ConfigCommand()] (lines 347-352). *)
Definition ConfigCommand : Command :=
  set {["base_verbosity_level" := VInt (-1)]}
    (Command_init (Some "Show currently active configuration.")).

(** [DepsCommand()] (lines 359-364). *)
Definition DepsCommand : Command :=
  set {["base_verbosity_level" := VInt (-1)]}
    (Command_init (Some "Show dependencies and debug information.")).

End commands.

(** The verbosity level after one more flag on the command line: [-q]
    stores -1 (lines 238-241), [-v] counts one up from the level so
    far, from 0 when there is none yet (lines 242-245). *)
Definition verbosity_after (level : value) (flag : string) : value :=
  if String.eqb flag "-q" then VInt (-1)
  else match level with
       | VInt n => VInt (n + 1)
       | _ => VInt 1
       end.


(** ** [RootCommand.run] and its start and stop steps (lines 261-344)

    The actors, the GLib main loop and [mopidy.utils.process] are
    collaborators: every call to them is recorded in a history, and what
    a call answers (a proxy, nothing, or an exception) is given by an
    environment that may depend on everything recorded so far. *)

Inductive actor_class : Type :=
| Audio
| Core
| Extension (__name__ : string).

Definition __name__ (klass : actor_class) : string :=
  match klass with
  | Audio => "Audio"
  | Core => "Core"
  | Extension name => name
  end.

Section run.

(** The configuration object and the actor proxies. *)
Variables Config Proxy : Type.

(** Keyword arguments of the four [start] calls. *)
Inductive kwargs : Type :=
| audio_kwargs (config : Config)
| backend_kwargs (config : Config) (audio : Proxy)
| core_kwargs (audio : Proxy) (backends : list Proxy)
| frontend_kwargs (config : Config) (core : Proxy).

Inductive call : Type :=
| start (klass : actor_class) (kw : kwargs)        (* klass.start(...) *)
| loop_run                                           (* loop.run() *)
| loop_quit                                          (* loop.quit() *)
| stop_actors_by_class (klass : actor_class)
| stop_remaining_actors.

Inductive level : Type := INFO | ERROR.

Inductive event : Type :=
| Called (c : call)
| Logged (lvl : level) (message : string).

Record environment : Type := {
  started : list event -> actor_class -> kwargs -> result Proxy;
  returned : list event -> call -> result unit }.

Variable env : environment.

(** Code running against the collaborators: the history so far goes
    in; the history and a value or an exception come out. *)
Definition M (A : Type) : Type := list event -> list event * result A.

#[local] Instance M_ret : MRet M := fun A a h => (h, Return a).

#[local] Instance M_bind : MBind M := fun A B k m h =>
  match m h with
  | (h', Return a) => k a h'
  | (h', Raise e) => (h', Raise e)
  end.

Definition raise {A : Type} (e : exn) : M A := fun h => (h, Raise e).

(** [try: body except ...: handler]; [handlers e] is [None] when no
    clause matches [e]. *)
Definition try_except {A : Type} (body : M A) (handlers : exn -> option (M A)) : M A :=
  fun h =>
    match body h with
    | (h', Raise e) =>
        match handlers e with
        | Some handler => handler h'
        | None => (h', Raise e)
        end
    | r => r
    end.

(** [try: body finally: final]. *)
Definition try_finally {A : Type} (body : M A) (final : M unit) : M A :=
  fun h =>
    let '(h', r) := body h in
    match final h' with
    | (h'', Return _) => (h'', r)
    | (h'', Raise e) => (h'', Raise e)
    end.

Definition log (lvl : level) (message : string) : M unit :=
  fun h => (h ++ [Logged lvl message], Return ()).

(** [klass.start(...)] with the keyword arguments [kw], and the
    [proxy()] of the actor it returns (which [start_frontends] does
    not take). *)
Definition start_proxy (klass : actor_class) (kw : kwargs) : M Proxy :=
  fun h => (h ++ [Called (start klass kw)], started env h klass kw).

Definition invoke (c : call) : M unit :=
  fun h => (h ++ [Called c], returned env h c).

Definition names (classes : list actor_class) : string :=
  let joined := PyStr.join ", " (__name__ <$> classes) in
  if PyStr.nonempty joined then joined else "none".

Definition start_audio (config : Config) : M Proxy :=
  log INFO "Starting Mopidy audio";;
  start_proxy Audio (audio_kwargs config).

(** The loop of lines 297-306, [backends] holding the proxies so far. *)
Fixpoint start_backends_loop (config : Config) (backend_classes : list actor_class)
         (audio : Proxy) (backends : list Proxy) : M (list Proxy) :=
  match backend_classes with
  | [] => mret backends
  | backend_class :: rest =>
      backend ← try_except
                  (start_proxy backend_class (backend_kwargs config audio))
                  (fun exc =>
                     match exc with
                     | BackendError message =>
                         Some (log ERROR ("Backend (" +:+ __name__ backend_class +:+
                                          ") initialization error: " +:+ message);;
                               raise exc)
                     | _ => None
                     end);
      start_backends_loop config rest audio (backends ++ [backend])
  end.

Definition start_backends (config : Config) (backend_classes : list actor_class)
           (audio : Proxy) : M (list Proxy) :=
  log INFO ("Starting Mopidy backends: " +:+ names backend_classes);;
  start_backends_loop config backend_classes audio [].

Definition start_core (audio : Proxy) (backends : list Proxy) : M Proxy :=
  log INFO "Starting Mopidy core";;
  start_proxy Core (core_kwargs audio backends).

Fixpoint start_frontends_loop (config : Config) (frontend_classes : list actor_class)
         (core : Proxy) : M unit :=
  match frontend_classes with
  | [] => mret ()
  | frontend_class :: rest =>
      try_except
        (start_proxy frontend_class (frontend_kwargs config core);; mret ())
        (fun exc =>
           match exc with
           | FrontendError message =>
               Some (log ERROR ("Frontend (" +:+ __name__ frontend_class +:+
                                ") initialization error: " +:+ message);;
                     raise exc)
           | _ => None
           end);;
      start_frontends_loop config rest core
  end.

Definition start_frontends (config : Config) (frontend_classes : list actor_class)
           (core : Proxy) : M unit :=
  log INFO ("Starting Mopidy frontends: " +:+ names frontend_classes);;
  start_frontends_loop config frontend_classes core.

Fixpoint stop_each (classes : list actor_class) : M unit :=
  match classes with
  | [] => mret ()
  | klass :: rest => invoke (stop_actors_by_class klass);; stop_each rest
  end.

Definition stop_frontends (frontend_classes : list actor_class) : M unit :=
  log INFO "Stopping Mopidy frontends";;
  stop_each frontend_classes.

Definition stop_core : M unit :=
  log INFO "Stopping Mopidy core";;
  invoke (stop_actors_by_class Core).

Definition stop_backends (backend_classes : list actor_class) : M unit :=
  log INFO "Stopping Mopidy backends";;
  stop_each backend_classes.

Definition stop_audio : M unit :=
  log INFO "Stopping Mopidy audio";;
  invoke (stop_actors_by_class Audio).

(** [args.registry]. *)
Record registry : Type := {
  backend : list actor_class;
  frontend : list actor_class }.

(** The [try] suite of lines 268-272. *)
Definition up (args : registry) (config : Config) : M unit :=
  audio ← start_audio config;
  backends ← start_backends config (backend args) audio;
  core ← start_core audio backends;
  start_frontends config (frontend args) core;;
  invoke loop_run.

(** The [except] clauses of lines 273-278. *)
Definition handlers (e : exn) : option (M unit) :=
  match e with
  | BackendError _ | FrontendError _ | MixerError _ =>
      Some (log INFO "Initialization error. Exiting...")
  | KeyboardInterrupt => Some (log INFO "Interrupted. Exiting...")
  | _ => None
  end.

(** The [finally] suite of lines 280-285. *)
Definition down (args : registry) : M unit :=
  invoke loop_quit;;
  stop_frontends (frontend args);;
  stop_core;;
  stop_backends (backend args);;
  stop_audio;;
  invoke stop_remaining_actors.

Definition run (args : registry) (config : Config) : M unit :=
  try_finally (try_except (up args config) handlers) (down args).

End run.

#[global] Existing Instance M_ret.
#[global] Existing Instance M_bind.

Arguments audio_kwargs {Config Proxy} config.
Arguments backend_kwargs {Config Proxy} config audio.
Arguments core_kwargs {Config Proxy} audio backends.
Arguments frontend_kwargs {Config Proxy} config core.
Arguments start {Config Proxy} klass kw.
Arguments loop_run {Config Proxy}.
Arguments loop_quit {Config Proxy}.
Arguments stop_actors_by_class {Config Proxy} klass.
Arguments stop_remaining_actors {Config Proxy}.
Arguments Called {Config Proxy} c.
Arguments Logged {Config Proxy} lvl message.
Arguments started {Config Proxy} e h klass kw.
Arguments returned {Config Proxy} e h c.
Arguments run {Config Proxy} env args config h.
Arguments up {Config Proxy} env args config h.
Arguments down {Config Proxy} env args h.
Arguments handlers {Config Proxy} e.
Arguments try_except {Config Proxy A} body handlers h.
Arguments try_finally {Config Proxy A} body final h.
Arguments log {Config Proxy} lvl message h.
Arguments invoke {Config Proxy} env c h.
Arguments start_proxy {Config Proxy} env klass kw h.
Arguments raise {Config Proxy A} e h.
Arguments start_audio {Config Proxy} env config h.
Arguments start_backends {Config Proxy} env config backend_classes audio h.
Arguments start_backends_loop {Config Proxy} env config backend_classes audio backends h.
Arguments start_core {Config Proxy} env audio backends h.
Arguments start_frontends {Config Proxy} env config frontend_classes core h.
Arguments start_frontends_loop {Config Proxy} env config frontend_classes core h.
Arguments stop_each {Config Proxy} env classes h.
Arguments stop_frontends {Config Proxy} env frontend_classes h.
Arguments stop_core {Config Proxy} env h.
Arguments stop_backends {Config Proxy} env backend_classes h.
Arguments stop_audio {Config Proxy} env h.

(** ** The descent of [_parse] through the tree *)

Section descent.

Variable HelpFormatter_format_help : argparse.HelpFormatter -> string.
Variable progname : string.

(** The arguments of one call of [_parse]. *)
Record frame : Type := {
  self : Command;
  args : list string;
  namespace : Namespace;
  overrides : gmap string value;
  prog : string }.

Definition _parse_frame (f : frame) : result Namespace :=
  _parse HelpFormatter_format_help progname
         (self f) (args f) (namespace f) (overrides f) (prog f).

(** What [parser.parse_args(args, namespace)] answers in a call. *)
Definition parsed (f : frame) : result Namespace :=
  ArgumentParser.parse_args HelpFormatter_format_help progname
    (_build (self f)) (args f) (namespace f).

(** The remainder left under [_args], when parsing succeeds. *)
Definition remainder (f : frame) : option (list string) :=
  match parsed f with
  | Return result => result !! "_args" ≫= strings
  | Raise _ => None
  end.

(** The call of line 216, when the first remainder token names a
    child. *)
Definition next_call (f : frame) : option frame :=
  match parsed f, remainder f with
  | Return result, Some (child :: rest) =>
      match ArgumentParser.assoc child (_children (self f)) with
      | Some command =>
          Some {| self := command;
                  args := rest;
                  namespace := <["_args" := Val (VList (VStr <$> rest))]> result;
                  overrides := _overrides (self f) ∪ overrides f;
                  prog := PyStr.join " " [prog f; child] |}
      | None => None
      end
  | _, _ => None
  end.

(** [descends f path g]: the call [f] leads, through the nodes of
    [path] (from [self f] on, [self g] excluded), to the call [g]. *)
Inductive descends : frame -> list Command -> frame -> Prop :=
| descends_here f : descends f [] f
| descends_child f g path h :
    next_call f = Some g -> descends g path h ->
    descends f (self f :: path) h.

(** The call [parse] makes on the node it is invoked on. *)
Definition first_call (root : Command) (argv : list string) (prog : option string)
  : frame :=
  {| self := root; args := argv; namespace := ∅;
     overrides := _overrides root;
     prog := or_progname progname prog |}.

End descent.

(** Override maps of the levels from the root down, folded left to
    right, a later level winning on a shared key. *)
Definition merged (levels : list (gmap string value)) : gmap string value :=
  foldl (fun acc level => level ∪ acc) ∅ levels.

(** ** The COMMANDS listing, as the design describes it *)

Section listing.

Variable HelpFormatter_format_help : argparse.HelpFormatter -> string.

(** A node and its descendants in pre-order, children in insertion
    order, each with the names leading to it. *)
Fixpoint preorder (path : list string) (node : Command)
  : list (list string * Command) :=
  (path, node) ::
  (fix loop (children : list (string * Command)) : list (list string * Command) :=
     match children with
     | [] => []
     | (name, child) :: children' => preorder (path ++ [name]) child ++ loop children'
     end) (_children node).

Definition descendants (node : Command) : list (list string * Command) :=
  flat_map (fun nc : string * Command => preorder [nc.1] nc.2) (_children node).

(** Help summary text, or at least one argument. *)
Definition qualifies (node : Command) : bool :=
  (match help node with Some (String _ _) => true | _ => false end
   || Nat.ltb 0 (length (_arguments node)))%bool.

(** The blocks of the qualifying nodes of a listing, each under the
    names of its path joined by spaces. *)
Definition rendered (l : list (list string * Command)) : list string :=
  map (fun pc : list string * Command =>
         block HelpFormatter_format_help pc.2 (PyStr.join " " pc.1))
      (filter (fun pc : list string * Command => qualifies pc.2 = true) l).

Definition commands_block (node : Command) : list string :=
  rendered (descendants node).

End listing.

(** ** The stop steps of [run], as a list *)

Section steps.

Variables Config Proxy : Type.
Variable env : environment Config Proxy.

Local Abbreviation event := (event Config Proxy).
Local Abbreviation call := (call Config Proxy).

Definition stop_call (klass : actor_class) : event :=
  Called (stop_actors_by_class klass).

(** What the [finally] suite does when nothing raises. *)
Definition stop_steps (args : registry) : list event :=
  [Called loop_quit;
   Logged INFO "Stopping Mopidy frontends"] ++
  (stop_call <$> frontend args) ++
  [Logged INFO "Stopping Mopidy core"; stop_call Core;
   Logged INFO "Stopping Mopidy backends"] ++
  (stop_call <$> backend args) ++
  [Logged INFO "Stopping Mopidy audio"; stop_call Audio;
   Called stop_remaining_actors].

(** Position and exception of the first step that raises when
    [steps] are taken one after the other from history [h]. *)
Fixpoint first_failure (h : list event) (steps : list event) : option (nat * exn) :=
  match steps with
  | [] => None
  | step :: rest =>
      match step with
      | Called c =>
          match returned env h c with
          | Raise e => Some (O, e)
          | Return _ =>
              (fun ne : nat * exn => (S ne.1, ne.2)) <$> first_failure (h ++ [step]) rest
          end
      | Logged _ _ =>
          (fun ne : nat * exn => (S ne.1, ne.2)) <$> first_failure (h ++ [step]) rest
      end
  end.

(** Taking the steps of a list one after the other. *)
Fixpoint play (steps : list event) : M Config Proxy unit :=
  match steps with
  | [] => mret ()
  | Called c :: rest => invoke env c;; play rest
  | Logged lvl message :: rest => log lvl message;; play rest
  end.

(** [m] only appends to the history, and only events satisfying [P]. *)
Definition emits {A : Type} (P : event -> Prop) (m : M Config Proxy A) : Prop :=
  forall h : list event, exists evs : list event, (m h).1 = h ++ evs /\ Forall P evs.

(** The [start] calls of the backends [classes]. *)
Definition backend_starts (config : Config) (audio : Proxy)
           (classes : list actor_class) : list event :=
  (fun klass => Called (start klass (backend_kwargs config audio))) <$> classes.

Definition is_core_start (ev : event) : bool :=
  match ev with
  | Called (start Core (core_kwargs _ _)) => true
  | _ => false
  end.

Definition is_audio_start (ev : event) : bool :=
  match ev with
  | Called (start Audio (audio_kwargs _)) => true
  | _ => false
  end.

Definition is_stop (ev : event) : bool :=
  match ev with
  | Called loop_quit | Called (stop_actors_by_class _)
  | Called stop_remaining_actors => true
  | _ => false
  end.

(** Events that are not calls of the stop steps. *)
Definition not_stop (ev : event) : Prop := is_stop ev = false.

Definition is_start (ev : event) : bool :=
  match ev with
  | Called (start _ _) => true
  | _ => false
  end.

(** Every stop call returns. *)
Definition stops_return : Prop :=
  forall (h : list event) (c : call),
    is_stop (Called c) = true -> returned env h c = Return ().

(** The exceptions the first [except] clause names. *)
Definition component_error (e : exn) : bool :=
  match e with
  | BackendError _ | FrontendError _ | MixerError _ => true
  | _ => false
  end.

End steps.

(** ** The start steps of [run], as lists *)

Section starts.

Variables Config Proxy : Type.

Local Abbreviation event := (event Config Proxy).

(** The [start] calls of the frontends [classes]. *)
Definition frontend_starts (config : Config) (core : Proxy)
           (classes : list actor_class) : list event :=
  (fun klass => Called (start klass (frontend_kwargs config core))) <$> classes.

(** What the start steps leave in the history: [start] calls and log
    lines. *)
Definition is_startup (ev : event) : bool :=
  match ev with
  | Called (start _ _) | Logged _ _ => true
  | _ => false
  end.

(** What the stop steps after [loop.quit()] leave: stop calls and log
    lines. *)
Definition is_shutdown (ev : event) : bool :=
  match ev with
  | Called (stop_actors_by_class _) | Called stop_remaining_actors
  | Logged _ _ => true
  | _ => false
  end.

Definition is_loop_run (ev : event) : bool :=
  match ev with
  | Called loop_run => true
  | _ => false
  end.

End starts.

(** ** Command trees and argument vectors used as examples *)

Module Examples.

(** A flag [-h] with [action='help']. *)
Definition h_flag : argparse.Action :=
  {| argparse.option_strings := ["-h"];
     argparse.dest := argparse.SUPPRESS;
     argparse.nargs := argparse.nargs_0;
     argparse.const := VNone;
     argparse.default := None;
     argparse.type := None;
     argparse.help := argparse.help_text "show help";
     argparse.metavar := None;
     argparse.class := argparse._HelpAction |}.

(** A flag [--command X] storing into [command]. *)
Definition command_flag : argparse.Action :=
  {| argparse.option_strings := ["--command"];
     argparse.dest := "command";
     argparse.nargs := argparse.nargs_None;
     argparse.const := VNone;
     argparse.default := Some VNone;
     argparse.type := None;
     argparse.help := argparse.help_None;
     argparse.metavar := None;
     argparse.class := argparse._StoreAction |}.

(** [sub], with a help text and the flag [-h]; [top], with [sub] as
    its only child and nothing of its own. *)
Definition sub : Command := add_argument h_flag (Command_init (Some "sub help")).
Definition top : Command := add_child "sub" sub (Command_init None).

(** A node that forces [command] and also takes it as a flag. *)
Definition forced : Command :=
  set {["command" := VStr "forced"]} (add_argument command_flag (Command_init None)).

(** The root command with the two sub-commands of this module. *)
Definition mopidy : Command :=
  add_child "deps" DepsCommand
    (add_child "config" ConfigCommand
       (RootCommand "0.18.3" "/etc/xdg/mopidy/mopidy.conf")).

(** [b] has neither help text nor arguments; its children [c] (one
    flag) and [d] (a help text) have. *)
Definition zeta_flag : argparse.Action :=
  {| argparse.option_strings := ["--zeta"];
     argparse.dest := "zeta";
     argparse.nargs := argparse.nargs_0;
     argparse.const := VBool true;
     argparse.default := Some (VBool false);
     argparse.type := None;
     argparse.help := argparse.help_text "z";
     argparse.metavar := None;
     argparse.class := argparse._StoreConstAction |}.
Definition a : Command := Command_init (Some "A help").
Definition c : Command := add_argument zeta_flag (Command_init None).
Definition d : Command := Command_init (Some "D help").
Definition b : Command := add_child "d" d (add_child "c" c (Command_init None)).
Definition nested : Command := add_child "b" b (add_child "a" a (Command_init None)).

(** Environments over a unit configuration, proxies being the class
    names.  In [quiet] every call returns and the main loop is left
    by a keyboard interrupt. *)
Definition quiet : environment unit string :=
  {| started := fun _ klass _ => Return (__name__ klass);
     returned := fun _ c =>
       match c with
       | loop_run => Raise KeyboardInterrupt
       | _ => Return ()
       end |}.

(** The backend [spotify] fails to start. *)
Definition spotify_fails : environment unit string :=
  {| started := fun _ klass _ =>
       match klass with
       | Extension "spotify" => Raise (BackendError "login failed")
       | _ => Return (__name__ klass)
       end;
     returned := returned quiet |}.

(** [Core.start] raises a [MixerError]. *)
Definition core_fails : environment unit string :=
  {| started := fun _ klass _ =>
       match klass with
       | Core => Raise (MixerError "no mixer")
       | _ => Return (__name__ klass)
       end;
     returned := returned quiet |}.

(** Stopping the frontend [mpd] raises. *)
Definition mpd_stop_fails : environment unit string :=
  {| started := started quiet;
     returned := fun h c =>
       match c with
       | stop_actors_by_class (Extension "mpd") => Raise (OtherError "ActorDeadError")
       | _ => returned quiet h c
       end |}.

(** The backend [spotify] fails to start, and an interrupt arrives
    while the core is being stopped. *)
Definition core_stop_interrupted : environment unit string :=
  {| started := started spotify_fails;
     returned := fun h c =>
       match c with
       | stop_actors_by_class Core => Raise KeyboardInterrupt
       | _ => returned quiet h c
       end |}.

(** The frontend [http] fails to start. *)
Definition http_fails : environment unit string :=
  {| started := fun _ klass _ =>
       match klass with
       | Extension "http" => Raise (FrontendError "port in use")
       | _ => Return (__name__ klass)
       end;
     returned := returned quiet |}.

(** [Core.start] raises an exception of no class that [run] names. *)
Definition core_crashes : environment unit string :=
  {| started := fun _ klass _ =>
       match klass with
       | Core => Raise (OtherError "RuntimeError")
       | _ => Return (__name__ klass)
       end;
     returned := returned quiet |}.

Definition extensions : registry :=
  {| backend := [Extension "local"; Extension "spotify"; Extension "stream"];
     frontend := [Extension "mpd"; Extension "http"] |}.

Definition call_of (root : Command) (argv : list string) : frame :=
  first_call "mopidy" root argv None.

(** The call the descent from [f] makes next, [f] itself if none. *)
Definition next (f : frame) : frame :=
  match next_call Formatter.format_help "mopidy" f with
  | Some g => g
  | None => f
  end.

End Examples.

(** Evaluation of [parse_args] on the root command: the test whether
    [config_files] still holds [DEFAULT_CONFIG] is the only one that
    does not compute while [DEFAULT_CONFIG] is a variable. *)
Ltac evaluate_with DEFAULT_CONFIG :=
  vm_compute;
  let E := fresh "E" in
  pose proof (String.eqb_refl DEFAULT_CONFIG) as E;
  vm_compute in E; rewrite E; reflexivity.

(** * Properties *)

(** ** Strings *)

Lemma partition_None (c : ascii) (s : string) :
  PyStr.contains c s = false -> PyStr.partition c s = None.
Proof.
  induction s as [|d s IH]; simpl; [reflexivity|].
  intros H. apply orb_false_iff in H as [Hd Hs].
  rewrite Hd, (IH Hs). reflexivity.
Qed.

Lemma partition_app (c : ascii) (a b : string) :
  PyStr.contains c a = false ->
  PyStr.partition c (a +:+ String c b) = Some (a, b).
Proof.
  induction a as [|d a IH]; simpl.
  - intros _. rewrite Ascii.eqb_refl. reflexivity.
  - intros H. apply orb_false_iff in H as [Hd Ha].
    rewrite Hd, (IH Ha). reflexivity.
Qed.

Lemma partition_rest (c d : ascii) (s a b : string) :
  PyStr.partition c s = Some (a, b) ->
  PyStr.contains d s = false -> PyStr.contains d b = false.
Proof.
  revert a b. induction s as [|x s IH]; simpl; intros a b; [discriminate|].
  intros Hp Hd. apply orb_false_iff in Hd as [_ Hs].
  destruct (Ascii.eqb x c).
  - injection Hp as _ <-. exact Hs.
  - destruct (PyStr.partition c s) as [[a' b']|]; [|discriminate].
    injection Hp as _ <-. eapply IH; eauto.
Qed.

Lemma append_assoc (a b c : string) : (a +:+ b) +:+ c = a +:+ (b +:+ c).
Proof.
  induction a as [|x a IH]; [reflexivity|].
  change (String x ((a +:+ b) +:+ c) = String x (a +:+ b +:+ c)).
  now rewrite IH.
Qed.

(** ** The [-o] converter *)

(** C8. [config_override_type] maps every [section/key=value] (split at
    the first [/] and at the first [=] after it) to the stripped triple,
    so [playback/volume=80] gives [("playback", "volume", "80")]; an
    argument without [/] or without [=] raises
    [argparse.ArgumentTypeError] with a message that starts with that
    argument, which [parse_args] reports as an error of [-o/--option]. *)
Theorem config_override_type_spec :
  (forall section key value : string,
     PyStr.contains "/"%char section = false ->
     PyStr.contains "="%char key = false ->
     config_override_type (section +:+ "/" +:+ key +:+ "=" +:+ value)
     = Converted (PyStr.strip section, PyStr.strip key, PyStr.strip value)) /\
  config_override_type "playback/volume=80" = Converted ("playback", "volume", "80") /\
  (forall input : string,
     PyStr.contains "/"%char input = false \/ PyStr.contains "="%char input = false ->
     config_override_type input
     = ArgumentTypeError (input +:+ " must have the format section/key=value") /\
     ArgumentParser._get_value option_argument input
     = Raise (_ParserError ("argument -o/--option: " +:+ input +:+
                            " must have the format section/key=value"))).
Proof.
  split; [|split].
  - intros section key value Hs Hk. unfold config_override_type, PyStr.split1.
    change (section +:+ "/" +:+ key +:+ "=" +:+ value)
      with (section +:+ String "/"%char (key +:+ String "="%char value)).
    rewrite (partition_app _ _ _ Hs), (partition_app _ _ _ Hk). reflexivity.
  - reflexivity.
  - intros input H.
    assert (E : config_override_type input
                = ArgumentTypeError (input +:+ " must have the format section/key=value")).
    { unfold config_override_type, PyStr.split1.
      destruct (PyStr.partition "/"%char input) as [[a b]|] eqn:Hp; [|reflexivity].
      destruct H as [H|H].
      - rewrite (partition_None _ _ H) in Hp. discriminate.
      - rewrite (partition_None _ _ (partition_rest _ _ _ _ _ Hp H)). reflexivity. }
    split; [exact E|].
    unfold ArgumentParser._get_value, option_argument, option_type. simpl.
    rewrite E. reflexivity.
Qed.

Lemma config_override_type_spec_witness :
  config_override_type (" playback " +:+ "/" +:+ "volume " +:+ "=" +:+ " 80")
  = Converted ("playback", "volume", "80") /\
  config_override_type "badformat"
  = ArgumentTypeError "badformat must have the format section/key=value".
Proof.
  split.
  - apply (proj1 config_override_type_spec " playback " "volume " " 80"); reflexivity.
  - apply (proj2 (proj2 config_override_type_spec) "badformat"). left. reflexivity.
Defined.

(** ** The recursive parser *)

Section dispatch.

Variable HelpFormatter_format_help : argparse.HelpFormatter -> string.
Variable progname : string.

Local Abbreviation parse_args :=
  (ArgumentParser.parse_args HelpFormatter_format_help progname).
Local Abbreviation _parse := (_parse HelpFormatter_format_help progname).
Local Abbreviation parse := (parse HelpFormatter_format_help progname).
Local Abbreviation _usage := (_usage HelpFormatter_format_help).
Local Abbreviation format_help := (format_help HelpFormatter_format_help progname).
Local Abbreviation frame_parse := (_parse_frame HelpFormatter_format_help progname).
Local Abbreviation parsed := (parsed HelpFormatter_format_help progname).
Local Abbreviation remainder := (remainder HelpFormatter_format_help progname).
Local Abbreviation next_call := (next_call HelpFormatter_format_help progname).
Local Abbreviation descends := (descends HelpFormatter_format_help progname).
Local Abbreviation first_call := (first_call progname).

(** The body of [_parse], with the search for the child as a lookup. *)
Lemma _parse_unfold (self : Command) (args : list string) (ns : Namespace)
      (ov : gmap string value) (prog : string) :
  _parse self args ns ov prog =
  match parse_args (_build self) args ns with
  | Raise (_ParserError message) =>
      exit 1 (Some message) (Some (_usage (_build self) prog))
  | Raise e => Raise e
  | Return result =>
      match result !! "_args" with
      | None => Raise (OtherError "AttributeError")
      | Some a =>
          if negb (attr_truthy a)
          then Return (finish self (_overrides self ∪ ov) result)
          else
            match strings a with
            | Some (child :: rest) =>
                match ArgumentParser.assoc child (_children self) with
                | Some command =>
                    _parse command rest
                           (<["_args" := Val (VList (VStr <$> rest))]> result)
                           (_overrides self ∪ ov) (PyStr.join " " [prog; child])
                | None => unrecognized HelpFormatter_format_help self prog child
                end
            | _ => Raise (OtherError "TypeError")
            end
      end
  end.
Proof.
  destruct self as [h children arguments o]. cbn -[ArgumentParser.parse_args finish].
  destruct (ArgumentParser.parse_args _ _ _ _ _) as [result|e]; [|reflexivity].
  destruct (result !! "_args") as [a|]; [|reflexivity].
  destruct (negb (attr_truthy a)); [reflexivity|].
  destruct (strings a) as [[|child rest]|]; try reflexivity.
  generalize children at 2 3. intros cs.
  induction cs as [|[name command] cs IH]; [reflexivity|].
  cbn -[ArgumentParser.parse_args finish]. destruct (String.eqb name child); [reflexivity|].
  exact IH.
Qed.

Lemma strings_nil (a : attr) : strings a = Some [] -> attr_truthy a = false.
Proof.
  destruct a as [[| | | |xs|]|]; try discriminate.
  destruct xs as [|x xs]; [reflexivity|]. cbn.
  destruct x; try discriminate. cbn.
  destruct (mapM _ xs); discriminate.
Qed.

Lemma strings_cons (a : attr) (child : string) (rest : list string) :
  strings a = Some (child :: rest) -> attr_truthy a = true.
Proof.
  destruct a as [[| | | |xs|]|]; try discriminate.
  destruct xs as [|x xs]; [discriminate|reflexivity].
Qed.

Lemma parsed_eq (f : frame) :
  parsed f = parse_args (_build (self f)) (args f) (namespace f).
Proof. reflexivity. Qed.

Lemma remainder_eq (f : frame) :
  remainder f =
  match parsed f with
  | Return result => result !! "_args" ≫= strings
  | Raise _ => None
  end.
Proof. reflexivity. Qed.

Lemma next_call_eq (f : frame) :
  next_call f =
  match parsed f, remainder f with
  | Return result, Some (child :: rest) =>
      match ArgumentParser.assoc child (_children (self f)) with
      | Some command =>
          Some {| self := command;
                  args := rest;
                  namespace := <["_args" := Val (VList (VStr <$> rest))]> result;
                  overrides := _overrides (self f) ∪ overrides f;
                  prog := PyStr.join " " [prog f; child] |}
      | None => None
      end
  | _, _ => None
  end.
Proof. reflexivity. Qed.

Lemma frame_parse_eq (f : frame) :
  frame_parse f = _parse (self f) (args f) (namespace f) (overrides f) (prog f).
Proof. reflexivity. Qed.

Lemma remainder_Some (f : frame) (l : list string) :
  remainder f = Some l ->
  exists result a,
    parsed f = Return result /\ result !! "_args" = Some a /\ strings a = Some l.
Proof.
  rewrite remainder_eq. destruct (parsed f) as [result|e]; [|discriminate].
  destruct (result !! "_args") as [a|] eqn:Ha; [|discriminate].
  intros H. exists result, a. auto.
Qed.

(** A recursive call answers for its caller. *)
Lemma frame_parse_next (f g : frame) :
  next_call f = Some g -> frame_parse f = frame_parse g.
Proof.
  rewrite next_call_eq. intros H.
  destruct (remainder f) as [[|child rest]|] eqn:Hr;
    try (destruct (parsed f); discriminate).
  destruct (remainder_Some _ _ Hr) as (result & a & Hp & Ha & Hs).
  rewrite Hp in H.
  destruct (ArgumentParser.assoc child (_children (self f))) as [command|] eqn:Hc;
    [|discriminate].
  injection H as <-.
  rewrite (frame_parse_eq f), _parse_unfold.
  rewrite parsed_eq in Hp. rewrite Hp, Ha, (strings_cons _ _ _ Hs), Hs, Hc.
  reflexivity.
Qed.

Lemma frame_parse_descends (f h : frame) (path : list Command) :
  descends f path h -> frame_parse f = frame_parse h.
Proof.
  induction 1 as [f|f g path h Hn _ IH]; [reflexivity|].
  rewrite (frame_parse_next _ _ Hn). exact IH.
Qed.

(** The node whose remainder is empty is the terminal one. *)
Lemma frame_parse_terminal (f : frame) (result : Namespace) :
  parsed f = Return result -> remainder f = Some [] ->
  frame_parse f
  = Return (finish (self f) (_overrides (self f) ∪ overrides f) result).
Proof.
  intros Hp Hr. destruct (remainder_Some _ _ Hr) as (result' & a & Hp' & Ha & Hs).
  rewrite Hp in Hp'. injection Hp' as <-.
  rewrite frame_parse_eq, _parse_unfold.
  rewrite parsed_eq in Hp. rewrite Hp, Ha, (strings_nil _ Hs). reflexivity.
Qed.

Lemma frame_parse_unrecognized (f : frame) (child : string) (rest : list string) :
  remainder f = Some (child :: rest) ->
  ArgumentParser.assoc child (_children (self f)) = None ->
  frame_parse f = unrecognized HelpFormatter_format_help (self f) (prog f) child.
Proof.
  intros Hr Hc. destruct (remainder_Some _ _ Hr) as (result & a & Hp & Ha & Hs).
  rewrite frame_parse_eq, _parse_unfold.
  rewrite parsed_eq in Hp. rewrite Hp, Ha, (strings_cons _ _ _ Hs), Hs, Hc.
  reflexivity.
Qed.

Lemma frame_parse_help (f : frame) :
  parsed f = Raise _HelpError -> frame_parse f = Raise _HelpError.
Proof.
  intros Hp. rewrite frame_parse_eq, _parse_unfold.
  rewrite parsed_eq in Hp. rewrite Hp. reflexivity.
Qed.

Lemma parse_first_call (root : Command) (argv : list string) (prog : option string) :
  parse root argv prog =
  match frame_parse (first_call root argv prog) with
  | Raise _HelpError =>
      exit 0 (Some (format_help root (Some (or_progname progname prog)))) None
  | r => r
  end.
Proof. reflexivity. Qed.

(** What [exit] prints. *)
Lemma exit_message (A : Type) (status : Z) (message : string) :
  @exit A status (Some message) None = Raise (SystemExit status stdout (message +:+ nl)).
Proof. unfold exit. destruct message; reflexivity. Qed.

Lemma exit_usage_message (A : Type) (status : Z) (c : ascii) (message usage : string) :
  @exit A status (Some (String c message)) (Some usage) =
  Raise (SystemExit status stdout
           ((if PyStr.nonempty usage then usage +:+ nl +:+ nl else EmptyString)
            +:+ String c message +:+ nl)).
Proof.
  unfold exit. destruct usage as [|u usage]; [reflexivity|].
  cbn. rewrite !append_assoc. reflexivity.
Qed.

(** *** Overrides *)

Lemma foldl_union (levels : list (gmap string value)) (acc : gmap string value) :
  foldl (fun acc level => level ∪ acc) acc levels = merged levels ∪ acc.
Proof.
  unfold merged. revert acc.
  induction levels as [|level levels IH]; intros acc; cbn.
  - now rewrite (left_id_L ∅ (∪)).
  - rewrite IH, (IH (level ∪ ∅)), (right_id_L ∅ (∪)), (assoc_L (∪)). reflexivity.
Qed.

Lemma merged_cons (level : gmap string value) (levels : list (gmap string value)) :
  merged (level :: levels) = merged levels ∪ level.
Proof.
  unfold merged at 1. cbn. rewrite foldl_union, (right_id_L ∅ (∪)). reflexivity.
Qed.

Lemma merged_snoc (levels : list (gmap string value)) (level : gmap string value) :
  merged (levels ++ [level]) = level ∪ merged levels.
Proof. unfold merged. rewrite foldl_app. reflexivity. Qed.

(** The value of a key is the one of the last level that has it. *)
Lemma merged_last_wins (before after : list (gmap string value))
      (level : gmap string value) (k : string) (v : value) :
  level !! k = Some v ->
  Forall (fun m : gmap string value => m !! k = None) after ->
  merged (before ++ level :: after) !! k = Some v.
Proof.
  intros Hk. induction after as [|m after IH] using rev_ind; intros Hafter.
  - rewrite merged_snoc. apply lookup_union_Some_l. exact Hk.
  - apply Forall_app in Hafter as [Hafter Hm]. apply Forall_inv in Hm.
    replace (before ++ level :: after ++ [m]) with ((before ++ level :: after) ++ [m])
      by (rewrite <- app_assoc; reflexivity).
    rewrite merged_snoc, lookup_union_r; [exact (IH Hafter)|exact Hm].
Qed.

(** *** A vector without remainder *)

Lemma parse_terminal (root : Command) (argv : list string) (prog : option string)
      (result : Namespace) :
  parse_args (_build root) argv ∅ = Return result ->
  result !! "_args" = Some (Val (VList [])) ->
  parse root argv prog = Return (finish root (_overrides root) result).
Proof.
  intros Hp Ha. rewrite parse_first_call, frame_parse_eq, _parse_unfold.
  cbn -[ArgumentParser.parse_args finish]. rewrite Hp, Ha.
  cbn -[finish]. rewrite (idemp_L (∪)). reflexivity.
Qed.

Lemma finish_lookup (node : Command) (ov : gmap string value) (result : Namespace)
      (k : string) :
  k <> "command" -> k <> "_args" ->
  finish node ov result !! k =
  match ov !! k with
  | Some v => Some (Val v)
  | None => result !! k
  end.
Proof.
  intros Hc Ha. unfold finish, apply_overrides.
  rewrite lookup_insert_ne, lookup_delete_ne by congruence.
  rewrite lookup_union, lookup_fmap.
  destruct (ov !! k); cbn; [|now rewrite (left_id_L None union)].
  destruct (result !! k); reflexivity.
Qed.

End dispatch.

(** ** The verbosity flags of the root command *)

(** C10. [-q] and [-v] write the same destination [verbosity_level]:
    [-q] stores [-1], [-v] adds one to what is there.  So the order of
    the flags decides: [-q -v] ends at [0], [-v -q] at [-1]. *)
Theorem verbosity_level_order
  (HelpFormatter_format_help : argparse.HelpFormatter -> string)
  (progname get_version DEFAULT_CONFIG : string) :
  let call := ArgumentParser.call HelpFormatter_format_help progname in
  let root := RootCommand get_version DEFAULT_CONFIG in
  argparse.dest quiet_argument = "verbosity_level" /\
  argparse.dest verbose_argument = "verbosity_level" /\
  (forall (ns : Namespace) (values : value),
     call quiet_argument ns values
     = Return (<["verbosity_level" := Val (VInt (-1))]> ns)) /\
  (forall (ns : Namespace) (n : Z) (values : value),
     call verbose_argument (<["verbosity_level" := Val (VInt n)]> ns) values
     = Return (<["verbosity_level" := Val (VInt (n + 1))]> ns)) /\
  (exists result,
     parse HelpFormatter_format_help progname root ["-q"; "-v"] None = Return result /\
     result !! "verbosity_level" = Some (Val (VInt 0))) /\
  (exists result,
     parse HelpFormatter_format_help progname root ["-v"; "-q"] None = Return result /\
     result !! "verbosity_level" = Some (Val (VInt (-1)))).
Proof.
  repeat split.
  - intros ns n values. unfold ArgumentParser.call, ArgumentParser._ensure_value. simpl.
    rewrite lookup_insert_eq. simpl. rewrite insert_insert_eq. reflexivity.
  - eexists. split.
    + apply parse_terminal; [evaluate_with DEFAULT_CONFIG|vm_compute; reflexivity].
    + rewrite finish_lookup by discriminate. vm_compute. reflexivity.
  - eexists. split.
    + apply parse_terminal; [evaluate_with DEFAULT_CONFIG|vm_compute; reflexivity].
    + rewrite finish_lookup by discriminate. vm_compute. reflexivity.
Qed.

(** ** The COMMANDS listing *)

(** Induction on command trees. *)
Lemma Command_tree_ind (P : Command -> Prop) :
  (forall h children arguments o,
     Forall (fun nc : string * Command => P nc.2) children ->
     P (mkCommand h children arguments o)) ->
  forall node, P node.
Proof.
  intros H. fix IH 1. intros [h children arguments o]. apply H.
  induction children as [|[name child] children IHc]; constructor.
  - apply IH.
  - exact IHc.
Qed.

Lemma join_snoc (path : list string) (name child : string) :
  PyStr.join " " [PyStr.join " " (name :: path); child]
  = PyStr.join " " ((name :: path) ++ [child]).
Proof.
  unfold PyStr.join. revert name.
  induction path as [|x path IH]; intros name; [reflexivity|].
  change (String.concat " " [String.concat " " (name :: x :: path); child])
    with ((name +:+ " " +:+ String.concat " " (x :: path)) +:+ " " +:+ child).
  change (String.concat " " ((name :: x :: path) ++ [child]))
    with (name +:+ " " +:+ String.concat " " ((x :: path) ++ [child])).
  rewrite <- IH, !append_assoc. reflexivity.
Qed.

Lemma assoc_elem_of {A : Type} (k : string) (a : A) (l : list (string * A)) :
  ArgumentParser.assoc k l = Some a -> (k, a) ∈ l.
Proof.
  induction l as [|[k' a'] l IH]; cbn [ArgumentParser.assoc]; [discriminate|].
  destruct (String.eqb_spec k' k) as [->|Hk].
  - intros [= ->]. apply list_elem_of_here.
  - intros H. apply list_elem_of_further, IH, H.
Qed.

Section listing_claims.

Variable HelpFormatter_format_help : argparse.HelpFormatter -> string.
Variable progname : string.

Local Abbreviation _subhelp := (_subhelp HelpFormatter_format_help).
Local Abbreviation subhelp := (subhelp HelpFormatter_format_help).
Local Abbreviation block := (block HelpFormatter_format_help).
Local Abbreviation commands_block := (commands_block HelpFormatter_format_help).
Local Abbreviation rendered := (rendered HelpFormatter_format_help).
Local Abbreviation format_help := (format_help HelpFormatter_format_help progname).

Lemma has_block_qualifies (node : Command) : has_block node = qualifies node.
Proof.
  unfold has_block, qualifies, _build, truthy.
  destruct (help node) as [[|x s]|], (_arguments node); reflexivity.
Qed.

Lemma _subhelp_unfold (node : Command) (name : string) :
  _subhelp node name =
  (if has_block node then [block node name] else []) ++
  flat_map (fun nc : string * Command =>
              _subhelp nc.2 (PyStr.join " " [name; nc.1])) (_children node).
Proof.
  destruct node as [h children arguments o]. cbn -[has_block block].
  f_equal. induction children as [|[childname child] children IH]; [reflexivity|].
  cbn -[has_block block]. now rewrite IH.
Qed.

Lemma preorder_unfold (path : list string) (node : Command) :
  preorder path node =
  (path, node) ::
  flat_map (fun nc : string * Command => preorder (path ++ [nc.1]) nc.2)
           (_children node).
Proof.
  destruct node as [h children arguments o]. cbn. f_equal.
  induction children as [|[childname child] children IH]; [reflexivity|].
  cbn. now rewrite IH.
Qed.

Lemma rendered_app (l1 l2 : list (list string * Command)) :
  rendered (l1 ++ l2) = rendered l1 ++ rendered l2.
Proof. unfold rendered. now rewrite filter_app, map_app. Qed.

(** [_subhelp] visits the node and its descendants in pre-order. *)
Lemma _subhelp_preorder (node : Command) :
  forall (name : string) (path : list string),
    _subhelp node (PyStr.join " " (name :: path))
    = rendered (preorder (name :: path) node).
Proof.
  induction node as [h children arguments o IH] using Command_tree_ind.
  intros name path. rewrite _subhelp_unfold, preorder_unfold.
  change ((name :: path, mkCommand h children arguments o) :: ?l)
    with ([(name :: path, mkCommand h children arguments o)] ++ l).
  rewrite rendered_app. f_equal.
  - unfold rendered. rewrite has_block_qualifies.
    cbn [filter list_filter]. 
    destruct (decide (qualifies (mkCommand h children arguments o) = true)) as [E|E].
    + cbn in E |- *. rewrite E. reflexivity.
    + apply not_true_is_false in E. cbn in E |- *. rewrite E. reflexivity.
  - cbn [_children]. induction IH as [|[childname child] children Hc _ IHl];
      [reflexivity|].
    cbn [flat_map]. rewrite rendered_app, <- IHl. f_equal.
    cbn [fst snd]. rewrite join_snoc. apply Hc.
Qed.

Lemma commands_block_eq (node : Command) :
  commands_block node = rendered (descendants node).
Proof. reflexivity. Qed.

Lemma subhelp_eq (node : Command) :
  subhelp node
  = flat_map (fun nc : string * Command => _subhelp nc.2 nc.1) (_children node).
Proof. reflexivity. Qed.

Lemma format_help_eq (node : Command) (name : option string) :
  format_help node name =
  HelpFormatter_format_help
    {| argparse.prog := or_progname progname name;
       argparse.items :=
         [argparse.add_usage None (_build node) None] ++
         (if truthy (help node) then [argparse.add_text (help node)] else []) ++
         (match _build node with
          | [] => []
          | _ => [argparse.add_text (Some "OPTIONS:");
                  argparse.section None [argparse.add_arguments (_build node)]]
          end) ++
         (match subhelp node with
          | [] => []
          | _ => [argparse.add_text (Some "COMMANDS:")]
          end) |}
  +:+ PyStr.join nl (match subhelp node with
                     | [] => []
                     | _ => EmptyString :: subhelp node
                     end).
Proof. reflexivity. Qed.

Lemma subhelp_commands_block (node : Command) :
  subhelp node = commands_block node.
Proof.
  rewrite subhelp_eq, commands_block_eq. unfold descendants.
  induction (_children node) as [|[childname child] children IH]; [reflexivity|].
  cbn [flat_map]. rewrite rendered_app, <- IH. f_equal.
  apply (_subhelp_preorder child childname []).
Qed.

(** C9. The COMMANDS block of [format_help] lists, in pre-order and
    with children in insertion order, exactly the descendants that
    have a help text or at least one argument; a node with neither
    gives no block, yet the nodes below it are listed; each block is
    rendered under the names on the way from the starting node,
    joined by spaces: it is what the formatter makes of a document
    whose program name is that path, holding the usage of the
    descendant's own arguments, its help text and its arguments. *)
Theorem format_help_commands (node : Command) (name : option string) :
  subhelp node = commands_block node /\
  (forall text : string,
     text ∈ subhelp node <->
     exists (path : list string) (child : Command),
       (path, child) ∈ descendants node /\
       qualifies child = true /\
       text = block child (PyStr.join " " path) /\
       text =
       HelpFormatter_format_help
         {| argparse.prog := PyStr.join " " path;
            argparse.items :=
              [argparse.add_usage None (_arguments child) (Some EmptyString);
               argparse.section None
                 [argparse.add_text (help child);
                  argparse.section None
                    [argparse.add_arguments (_arguments child)]]] |}) /\
  format_help node name =
  HelpFormatter_format_help
    {| argparse.prog := or_progname progname name;
       argparse.items :=
         [argparse.add_usage None (_build node) None] ++
         (if truthy (help node) then [argparse.add_text (help node)] else []) ++
         (match _build node with
          | [] => []
          | _ => [argparse.add_text (Some "OPTIONS:");
                  argparse.section None [argparse.add_arguments (_build node)]]
          end) ++
         (match commands_block node with
          | [] => []
          | _ => [argparse.add_text (Some "COMMANDS:")]
          end) |}
  +:+ PyStr.join nl (match commands_block node with
                     | [] => []
                     | _ => EmptyString :: commands_block node
                     end).
Proof.
  split; [apply subhelp_commands_block|split].
  - intros text. rewrite subhelp_commands_block, commands_block_eq.
    unfold rendered. rewrite list_elem_of_fmap. split.
    + intros [[path child] [-> Hin]]. apply list_elem_of_filter in Hin as [Hq Hin].
      exists path, child. auto.
    + intros (path & child & Hin & Hq & -> & _). exists (path, child).
      split; [reflexivity|]. apply list_elem_of_filter. auto.
  - rewrite format_help_eq, subhelp_commands_block. reflexivity.
Qed.

End listing_claims.

(** On the tree [nested]: [b] gives no block, its children do, under
    the names [b c] and [b d]. *)
Example format_help_commands_nested
        (HelpFormatter_format_help : argparse.HelpFormatter -> string) :
  subhelp HelpFormatter_format_help Examples.nested
  = [block HelpFormatter_format_help Examples.a "a";
     block HelpFormatter_format_help Examples.c "b c";
     block HelpFormatter_format_help Examples.d "b d"].
Proof. reflexivity. Qed.

(** The listing of [nested] as the standard formatter prints it: [b]
    has neither help text nor arguments and gives no block; its
    children are listed as [b c] and [b d]. *)
Lemma format_help_commands_witness :
  format_help Formatter.format_help "mopidy" Examples.nested None
  = "usage: mopidy

COMMANDS:

a

  A help

b c [--zeta]

    --zeta  z

b d

  D help
" /\
  forall text : string,
    text ∈ subhelp Formatter.format_help Examples.nested ->
    text = "a

  A help
" \/ text = "b c [--zeta]

    --zeta  z
" \/ text = "b d

  D help
".
Proof.
  destruct (format_help_commands Formatter.format_help "mopidy" Examples.nested None)
    as (_ & Hin & E).
  split; [rewrite E; vm_compute; reflexivity|].
  intros text Ht. apply Hin in Ht as (path & child & Hd & Hq & _ & ->).
  vm_compute in Hd.
  repeat (apply elem_of_cons in Hd as [[= -> ->]|Hd]);
    [..|now apply elem_of_nil in Hd];
    first [discriminate Hq
          |left; vm_compute; reflexivity
          |right; left; vm_compute; reflexivity
          |right; right; vm_compute; reflexivity].
Defined.

(** ** Dispatch: overrides, help, unknown sub-commands *)

Section dispatch_claims.

Variable HelpFormatter_format_help : argparse.HelpFormatter -> string.
Variable progname : string.

Local Abbreviation parse := (parse HelpFormatter_format_help progname).
Local Abbreviation _usage := (_usage HelpFormatter_format_help).
Local Abbreviation format_help := (format_help HelpFormatter_format_help progname).
Local Abbreviation frame_parse := (_parse_frame HelpFormatter_format_help progname).
Local Abbreviation parsed := (parsed HelpFormatter_format_help progname).
Local Abbreviation remainder := (remainder HelpFormatter_format_help progname).
Local Abbreviation next_call := (next_call HelpFormatter_format_help progname).
Local Abbreviation descends := (descends HelpFormatter_format_help progname).
Local Abbreviation first_call := (first_call progname).

Lemma next_call_overrides (f g : frame) :
  next_call f = Some g -> overrides g = _overrides (self f) ∪ overrides f.
Proof.
  rewrite next_call_eq. intros H.
  destruct (parsed f) as [result|]; [|discriminate].
  destruct (remainder f) as [[|child rest]|]; try discriminate.
  destruct (ArgumentParser.assoc child (_children (self f))); [|discriminate].
  injection H as <-. reflexivity.
Qed.

(** The overrides handed down are those of the nodes passed. *)
Lemma descends_overrides (f h : frame) (path : list Command) :
  descends f path h ->
  overrides h = merged (_overrides <$> path) ∪ overrides f.
Proof.
  induction 1 as [f|f g path h Hn _ IH].
  - cbn. unfold merged. cbn. now rewrite (left_id_L ∅ (∪)).
  - rewrite IH, (next_call_overrides _ _ Hn), fmap_cons.
    rewrite merged_cons, (assoc_L (∪)). reflexivity.
Qed.

Lemma descends_head (f h : frame) (path : list Command) :
  descends f path h ->
  (path = [] /\ h = f) \/ exists path', path = self f :: path'.
Proof. destruct 1; [left; split; reflexivity|right; eauto]. Qed.

(** At the terminal node the overrides are those of the path from
    the root, the terminal node included. *)
Lemma terminal_overrides (root : Command) (argv : list string) (name : option string)
      (path : list Command) (h : frame) :
  descends (first_call root argv name) path h ->
  _overrides (self h) ∪ overrides h = merged (_overrides <$> (path ++ [self h])).
Proof.
  intros Hd. rewrite fmap_app.
  change (_overrides <$> [self h]) with [_overrides (self h)].
  rewrite merged_snoc, (descends_overrides _ _ _ Hd).
  destruct (descends_head _ _ _ Hd) as [[-> ->]|[path' ->]].
  - change (overrides (first_call root argv name)) with (_overrides root).
    change (self (first_call root argv name)) with root.
    unfold merged. cbn. now rewrite (left_id_L ∅ (∪)), (right_id_L ∅ (∪)), (idemp_L (∪)).
  - f_equal. rewrite fmap_cons, merged_cons, <- (assoc_L (∪)).
    change (overrides (first_call root argv name)) with (_overrides root).
    change (self (first_call root argv name)) with root.
    rewrite (idemp_L (∪)). reflexivity.
Qed.

(** C2 (amended). When the vector resolves to a terminal node, the
    override maps of the nodes from the root to that node are merged
    in that order, the last level that has a key giving its value;
    they are written over the namespace the flags produced, and then
    [_args] is removed and [command] set.  So every overridden key
    other than [command] and [_args] holds its override in the
    result, whatever a flag stored under it. *)
Theorem overrides_after_flags (root : Command) (argv : list string)
        (name : option string) (path : list Command) (h : frame) (flags : Namespace) :
  descends (first_call root argv name) path h ->
  parsed h = Return flags ->
  remainder h = Some [] ->
  let levels := _overrides <$> (path ++ [self h]) in
  let result :=
    <["command" := Ref (self h)]>
      (delete "_args" ((Val <$> merged levels) ∪ flags)) in
  parse root argv name = Return result /\
  (forall before level after k v,
     levels = before ++ level :: after ->
     level !! k = Some v ->
     Forall (fun m : gmap string value => m !! k = None) after ->
     merged levels !! k = Some v) /\
  (forall k v,
     merged levels !! k = Some v -> k <> "command" -> k <> "_args" ->
     result !! k = Some (Val v)).
Proof.
  intros Hd Hp Hr levels result. split; [|split].
  - rewrite parse_first_call, (frame_parse_descends _ _ _ _ _ Hd),
      (frame_parse_terminal _ _ _ _ Hp Hr), (terminal_overrides _ _ _ _ _ Hd).
    reflexivity.
  - intros before level after k v -> Hk Hafter.
    now apply merged_last_wins.
  - intros k v Hk Hc Ha. subst result.
    pose proof (finish_lookup (self h) (merged levels) flags k Hc Ha) as E.
    unfold finish, apply_overrides in E. rewrite E, Hk. reflexivity.
Qed.

Lemma or_progname_idemp (name : option string) :
  or_progname progname (Some (or_progname progname name)) = or_progname progname name.
Proof.
  destruct name as [p|]; cbn.
  - destruct (PyStr.nonempty p) eqn:E; [now rewrite E|].
    destruct (PyStr.nonempty progname); reflexivity.
  - destruct (PyStr.nonempty progname); reflexivity.
Qed.

Lemma format_help_or_progname (node : Command) (name : option string) :
  format_help node (Some (or_progname progname name)) = format_help node name.
Proof. unfold format_help. now rewrite or_progname_idemp. Qed.

(** *** A parser without arguments never asks for help *)

Lemma _parse_optional_no_actions (arg_string : string) :
  ArgumentParser._parse_optional [] arg_string = Return None \/
  ArgumentParser._parse_optional [] arg_string
  = Return (Some (None, arg_string, None)).
Proof.
  unfold ArgumentParser._parse_optional.
  destruct arg_string as [|c0 rest]; [now left|].
  destruct (negb _); [now left|]. cbn [ArgumentParser.assoc
    ArgumentParser._option_string_actions imap flat_map].
  destruct (String.eqb rest EmptyString); [now left|].
  assert (Ht : ArgumentParser._get_option_tuples [] (String c0 rest) = []).
  { unfold ArgumentParser._get_option_tuples.
    destruct rest as [|c1 tail]; [reflexivity|].
    destruct (Ascii.eqb c1 ArgumentParser.dash); [|reflexivity].
    now destruct (PyStr.partition _ _) as [[a b]|]. }
  rewrite Ht.
  destruct (PyStr.partition _ _) as [[a b]|];
    destruct (_ && _)%bool; try (now left);
    destruct (PyStr.contains _ _); try (now left); now right.
Qed.

Lemma arg_strings_pattern_no_actions (args : list string) :
  exists ps,
    ArgumentParser.arg_strings_pattern [] args = Return ps /\
    Forall (fun sp : string * ArgumentParser.pattern =>
              match sp.2 with
              | ArgumentParser.pattern_O (Some _, _, _) => False
              | _ => True
              end) ps.
Proof.
  induction args as [|arg args (ps & E & H)]; [exists []; split; [reflexivity|constructor]|].
  cbn [ArgumentParser.arg_strings_pattern]. destruct (String.eqb arg "--").
  - eexists. split; [reflexivity|]. constructor; [exact I|].
    apply Forall_forall. intros sp Hsp.
    apply list_elem_of_In, in_map_iff in Hsp as (s & <- & _). exact I.
  - rewrite E. destruct (_parse_optional_no_actions arg) as [-> | ->];
      (eexists; split; [reflexivity|]; constructor; [exact I|exact H]).
Qed.

Lemma consume_no_actions (ps : list (string * ArgumentParser.pattern)) :
  Forall (fun sp : string * ArgumentParser.pattern =>
            match sp.2 with
            | ArgumentParser.pattern_O (Some _, _, _) => False
            | _ => True
            end) ps ->
  forall st,
    exists st',
      ArgumentParser.consume HelpFormatter_format_help progname [] ps st = Return st'.
Proof.
  induction 1 as [|[s p] ps Hp _ IH]; intros st; [eexists; reflexivity|].
  destruct p as [| |[[[ia|] o] e]]; try (eexists; reflexivity).
  - destruct Hp.
  - cbn [ArgumentParser.consume]. apply IH.
Qed.

Lemma parse_args_no_actions (args : list string) (ns : Namespace) :
  ArgumentParser.parse_args HelpFormatter_format_help progname [] args ns
  <> Raise _HelpError.
Proof.
  unfold ArgumentParser.parse_args.
  destruct (arg_strings_pattern_no_actions args) as (ps & -> & Hps).
  cbn [mbind result_bind].
  match goal with
  | |- context [ArgumentParser.consume _ _ _ ps ?st] =>
      destruct (consume_no_actions ps Hps st) as [st' ->]
  end.
  cbn. now destruct (ArgumentParser.extras st').
Qed.

Lemma help_qualifies (f : frame) :
  parsed f = Raise _HelpError -> qualifies (self f) = true.
Proof.
  rewrite parsed_eq. unfold qualifies, _build.
  destruct (_arguments (self f)) as [|action actions].
  - intros H. now apply parse_args_no_actions in H.
  - intros _. apply orb_true_r.
Qed.

(** *** Where the descent is in the listing *)

Lemma preorder_shift (pre : list string) (node : Command) :
  forall (q p : list string) (c : Command),
    (p, c) ∈ preorder q node -> (pre ++ p, c) ∈ preorder (pre ++ q) node.
Proof.
  induction node as [h children arguments o IH] using Command_tree_ind.
  intros q p c. rewrite !preorder_unfold, !elem_of_cons.
  intros [[= -> ->]|Hin]; [now left|right].
  apply list_elem_of_In, in_flat_map in Hin as ([name child] & Hc & Hin).
  apply list_elem_of_In, in_flat_map. exists (name, child). split; [exact Hc|].
  apply list_elem_of_In. rewrite Forall_forall in IH. cbn [fst snd _children] in *.
  rewrite <- app_assoc.
  apply (IH (name, child) (proj2 (list_elem_of_In _ _) Hc)).
  now apply list_elem_of_In.
Qed.

Lemma next_call_child (f g : frame) :
  next_call f = Some g ->
  exists child,
    (child, self g) ∈ _children (self f) /\
    prog g = PyStr.join " " [prog f; child].
Proof.
  rewrite next_call_eq. destruct (parsed f); [|discriminate].
  destruct (remainder f) as [[|child rest]|]; try discriminate.
  destruct (ArgumentParser.assoc child (_children (self f))) as [command|] eqn:E;
    [|discriminate].
  intros [= <-]. exists child. split; [|reflexivity]. now apply assoc_elem_of.
Qed.

Lemma join_pair (a b : string) (l : list string) :
  PyStr.join " " (PyStr.join " " [a; b] :: l) = PyStr.join " " (a :: b :: l).
Proof.
  destruct l as [|c l]; [reflexivity|].
  change (PyStr.join " " (?x :: c :: l)) with (x +:+ " " +:+ PyStr.join " " (c :: l)).
  change (PyStr.join " " (a :: b :: c :: l))
    with (a +:+ " " +:+ b +:+ " " +:+ PyStr.join " " (c :: l)).
  change (PyStr.join " " [a; b]) with (a +:+ " " +:+ b).
  now rewrite !append_assoc.
Qed.

Lemma descends_listing (f0 f : frame) (path : list Command) :
  descends f0 path f ->
  forall pre : list string,
    exists names : list string,
      length names = length path /\
      prog f = PyStr.join " " (prog f0 :: names) /\
      forall q c, (q, c) ∈ preorder (pre ++ names) (self f) ->
                  (q, c) ∈ preorder pre (self f0).
Proof.
  induction 1 as [f|f0 g path f Hn _ IH]; intros pre.
  - exists []. rewrite app_nil_r. auto.
  - destruct (next_call_child f0 g Hn) as (child & Hc & Hp).
    destruct (IH (pre ++ [child])) as (names & Hlen & Hprog & Hin).
    exists (child :: names). split; [cbn; now rewrite Hlen|]. split.
    + rewrite Hprog, Hp. apply join_pair.
    + intros q c Hq. rewrite preorder_unfold. apply list_elem_of_further.
      apply list_elem_of_In, in_flat_map. exists (child, self g).
      split; [now apply list_elem_of_In|]. apply list_elem_of_In, Hin.
      now rewrite <- app_assoc.
Qed.

Lemma preorder_descendants (root : Command) (q : list string) (c : Command) :
  (q, c) ∈ preorder [] root -> q <> [] -> (q, c) ∈ descendants root.
Proof.
  rewrite preorder_unfold, elem_of_cons. intros [[= -> ->]|H] Hq; [now destruct Hq|].
  exact H.
Qed.

Lemma commands_block_elem (root : Command) (q : list string) (c : Command) :
  (q, c) ∈ descendants root -> qualifies c = true ->
  block HelpFormatter_format_help c (PyStr.join " " q)
  ∈ commands_block HelpFormatter_format_help root.
Proof.
  intros Hin Hq. rewrite commands_block_eq. unfold rendered.
  apply list_elem_of_fmap. exists (q, c). split; [reflexivity|].
  apply list_elem_of_filter. auto.
Qed.

Lemma preorder_length (node : Command) :
  forall (q p : list string) (c : Command),
    (p, c) ∈ preorder q node -> (length q <= length p)%nat.
Proof.
  induction node as [h children arguments o IH] using Command_tree_ind.
  intros q p c. rewrite preorder_unfold, elem_of_cons.
  intros [[= -> ->]|Hin]; [lia|].
  apply list_elem_of_In, in_flat_map in Hin as ([name child] & Hc & Hin).
  rewrite Forall_forall in IH. cbn [fst snd _children] in *.
  apply list_elem_of_In in Hc, Hin. apply (IH _ Hc) in Hin.
  rewrite length_app in Hin. cbn in Hin. lia.
Qed.

Lemma descendants_shift (names : list string) (node : Command)
      (p : list string) (c : Command) :
  (p, c) ∈ descendants node ->
  p <> [] /\ (names ++ p, c) ∈ preorder names node.
Proof.
  intros Hin.
  assert (Hpre : (p, c) ∈ preorder [] node).
  { rewrite preorder_unfold. now apply list_elem_of_further. }
  split.
  - unfold descendants in Hin.
    apply list_elem_of_In, in_flat_map in Hin as ([name child] & _ & Hin).
    apply list_elem_of_In, preorder_length in Hin. now destruct p.
  - apply (preorder_shift names) in Hpre. now rewrite app_nil_r in Hpre.
Qed.

(** C4 (amended). When a help action fires at any depth, [parse]
    prints the full recursive help text of the node it was invoked
    on, under the program name it was given, and exits with status
    0.  That text is the rendering of that node's usage, help summary
    and options, followed by the blocks of its qualifying
    descendants.  The node whose parser took the help flag is that
    node itself or one of these descendants: it has an argument of its
    own, so it qualifies, and when it lies below, its block (its usage,
    help summary and options under the names that lead to it) is one
    of the blocks printed, as is the block of each qualifying node
    below it, under the names from the root on. *)
Theorem help_request (root : Command) (argv : list string) (name : option string)
        (path : list Command) (f : frame) :
  descends (first_call root argv name) path f ->
  parsed f = Raise _HelpError ->
  parse root argv name
  = Raise (SystemExit 0 stdout (format_help root name +:+ nl)) /\
  format_help root name =
  HelpFormatter_format_help
    {| argparse.prog := or_progname progname name;
       argparse.items :=
         [argparse.add_usage None (_build root) None] ++
         (if truthy (help root) then [argparse.add_text (help root)] else []) ++
         (match _build root with
          | [] => []
          | _ => [argparse.add_text (Some "OPTIONS:");
                  argparse.section None [argparse.add_arguments (_build root)]]
          end) ++
         (match commands_block HelpFormatter_format_help root with
          | [] => []
          | _ => [argparse.add_text (Some "COMMANDS:")]
          end) |}
  +:+ PyStr.join nl (match commands_block HelpFormatter_format_help root with
                     | [] => []
                     | _ => EmptyString :: commands_block HelpFormatter_format_help root
                     end) /\
  exists names : list string,
    length names = length path /\
    prog f = PyStr.join " " (or_progname progname name :: names) /\
    qualifies (self f) = true /\
    (names = [] -> self f = root) /\
    (names <> [] ->
     block HelpFormatter_format_help (self f) (PyStr.join " " names)
     ∈ commands_block HelpFormatter_format_help root) /\
    forall (below : list string) (child : Command),
      (below, child) ∈ descendants (self f) ->
      qualifies child = true ->
      block HelpFormatter_format_help child (PyStr.join " " (names ++ below))
      ∈ commands_block HelpFormatter_format_help root.
Proof.
  intros Hd Hp. split; [|split].
  - rewrite parse_first_call, (frame_parse_descends _ _ _ _ _ Hd),
      (frame_parse_help _ _ _ Hp), exit_message, format_help_or_progname.
    reflexivity.
  - rewrite format_help_eq, subhelp_commands_block. reflexivity.
  - destruct (descends_listing _ _ _ Hd []) as (names & Hlen & Hprog & Hin).
    cbn [app] in Hin.
    change (self (first_call root argv name)) with root in Hin.
    exists names. split; [exact Hlen|]. split; [exact Hprog|].
    split; [now apply help_qualifies|]. split; [|split].
    + intros ->. destruct path; [|discriminate Hlen].
      destruct (descends_head _ _ _ Hd) as [[_ ->]|[path' Hpath]];
        [reflexivity|discriminate Hpath].
    + intros Hnames. apply commands_block_elem; [|now apply help_qualifies].
      apply preorder_descendants; [|exact Hnames]. apply Hin.
      rewrite preorder_unfold. apply list_elem_of_here.
    + intros below child Hbelow Hq.
      destruct (descendants_shift names _ _ _ Hbelow) as [Hne Hsh].
      apply commands_block_elem; [|exact Hq].
      apply preorder_descendants; [now apply Hin|].
      intros E. apply app_eq_nil in E as [_ E]. now destruct Hne.
Qed.

(** C6. When the first token of the remainder at the current node is
    not the name of one of its children, [parse] exits with status 1
    after printing the usage line of that node and the message
    [unrecognized command: <token>]. *)
Theorem unrecognized_command (root : Command) (argv : list string)
        (name : option string) (path : list Command) (f : frame)
        (token : string) (rest : list string) :
  descends (first_call root argv name) path f ->
  remainder f = Some (token :: rest) ->
  ArgumentParser.assoc token (_children (self f)) = None ->
  let usage := _usage (_build (self f)) (prog f) in
  parse root argv name
  = Raise (SystemExit 1 stdout
             ((if PyStr.nonempty usage then usage +:+ nl +:+ nl else EmptyString)
              +:+ "unrecognized command: " +:+ token +:+ nl)).
Proof.
  intros Hd Hr Hc usage.
  rewrite parse_first_call, (frame_parse_descends _ _ _ _ _ Hd),
    (frame_parse_unrecognized _ _ _ _ _ Hr Hc).
  unfold unrecognized.
  change ("unrecognized command: " +:+ token)
    with (String "u"%char ("nrecognized command: " +:+ token)).
  rewrite exit_usage_message. reflexivity.
Qed.

End dispatch_claims.

(** ** The dispatch theorems on concrete trees *)

Section examples.

Import Examples.

Local Abbreviation fmt := Formatter.format_help.

(** The first step of a descent, for a call that has a next call. *)
Lemma descends_next (f : frame) :
  is_Some (next_call fmt "mopidy" f) ->
  descends fmt "mopidy" f [self f] (next f).
Proof.
  intros H. apply descends_child with (g := next f); [|apply descends_here].
  unfold next. destruct H as [g ->]. reflexivity.
Qed.

End examples.

Lemma unrecognized_command_witness :
  let f := Examples.next (Examples.call_of Examples.top ["sub"; "x"]) in
  remainder Formatter.format_help "mopidy" f = Some ["x"] /\
  ArgumentParser.assoc "x" (_children (self f)) = None /\
  parse Formatter.format_help "mopidy" Examples.top ["sub"; "x"] None
  = Raise (SystemExit 1 stdout "usage: mopidy sub [-h]

unrecognized command: x
").
Proof.
  intros f.
  assert (Hr : remainder Formatter.format_help "mopidy" f = Some ["x"])
    by (vm_compute; reflexivity).
  assert (Hc : ArgumentParser.assoc "x" (_children (self f)) = None)
    by (vm_compute; reflexivity).
  split; [exact Hr|split; [exact Hc|]].
  refine (eq_trans
            (unrecognized_command Formatter.format_help "mopidy" Examples.top
               ["sub"; "x"] None [Examples.top] f "x" [] _ Hr Hc) _).
  - apply (descends_next (Examples.call_of Examples.top ["sub"; "x"])).
    eexists. vm_compute. reflexivity.
  - vm_compute. reflexivity.
Defined.

Lemma help_request_witness :
  let f := Examples.next (Examples.call_of Examples.top ["sub"; "-h"]) in
  parsed Formatter.format_help "mopidy" f = Raise _HelpError /\
  parse Formatter.format_help "mopidy" Examples.top ["sub"; "-h"] None
  = Raise (SystemExit 0 stdout "usage: mopidy

COMMANDS:

sub [-h]

  sub help

    -h  show help

") /\
  self f = Examples.sub /\
  prog f = "mopidy sub" /\
  "sub [-h]

  sub help

    -h  show help
" ∈ commands_block Formatter.format_help Examples.top.
Proof.
  intros f.
  assert (Hp : parsed Formatter.format_help "mopidy" f = Raise _HelpError)
    by (vm_compute; reflexivity).
  assert (Hd : descends Formatter.format_help "mopidy"
                        (Examples.call_of Examples.top ["sub"; "-h"])
                        [Examples.top] f).
  { apply (descends_next (Examples.call_of Examples.top ["sub"; "-h"])).
    eexists. vm_compute. reflexivity. }
  destruct (help_request Formatter.format_help "mopidy" Examples.top
              ["sub"; "-h"] None [Examples.top] f Hd Hp)
    as (Hparse & _ & names & Hlen & Hprog & _ & _ & Hblock & _).
  split; [exact Hp|]. split; [|split; [|split]].
  - rewrite Hparse. vm_compute. reflexivity.
  - vm_compute. reflexivity.
  - vm_compute. reflexivity.
  - destruct names as [|n0 [|n1 names]]; try discriminate Hlen.
    assert (En : n0 = "sub").
    { revert Hprog. vm_compute. now intros [= ->]. }
    subst n0. apply Hblock. discriminate.
Defined.

(** C4, as stated, fails below the root: [-h] is consumed by the parser
    of [sub], reached as [mopidy sub], yet the text printed is the help
    of the root [top], not that of [sub] under either program name. *)
Lemma help_request_counterexample :
  let f := Examples.next (Examples.call_of Examples.top ["sub"; "-h"]) in
  let printed (text : string) : result Namespace :=
    Raise (SystemExit 0 stdout (text +:+ nl)) in
  descends Formatter.format_help "mopidy"
           (Examples.call_of Examples.top ["sub"; "-h"]) [Examples.top] f /\
  self f = Examples.sub /\
  prog f = "mopidy sub" /\
  parsed Formatter.format_help "mopidy" f = Raise _HelpError /\
  parse Formatter.format_help "mopidy" Examples.top ["sub"; "-h"] None
  = printed (format_help Formatter.format_help "mopidy" Examples.top (Some "mopidy")) /\
  parse Formatter.format_help "mopidy" Examples.top ["sub"; "-h"] None
  <> printed (format_help Formatter.format_help "mopidy" Examples.sub (Some "mopidy sub")) /\
  parse Formatter.format_help "mopidy" Examples.top ["sub"; "-h"] None
  <> printed (format_help Formatter.format_help "mopidy" Examples.sub (Some "mopidy")).
Proof.
  intros f printed. split; [|split; [|split; [|split; [|split; [|split]]]]].
  - apply (descends_next (Examples.call_of Examples.top ["sub"; "-h"])).
    eexists. vm_compute. reflexivity.
  - vm_compute. reflexivity.
  - vm_compute. reflexivity.
  - vm_compute. reflexivity.
  - vm_compute. reflexivity.
  - intros H. vm_compute in H. discriminate H.
  - intros H. vm_compute in H. discriminate H.
Qed.

Lemma overrides_after_flags_witness :
  exists result,
    parse Formatter.format_help "mopidy" Examples.mopidy ["-v"; "-v"; "config"] None
    = Return result /\
    result !! "base_verbosity_level" = Some (Val (VInt (-1))) /\
    result !! "verbosity_level" = Some (Val (VInt 2)).
Proof.
  set (f := Examples.call_of Examples.mopidy ["-v"; "-v"; "config"]).
  set (h := Examples.next f).
  set (flags := match parsed Formatter.format_help "mopidy" h with
                | Return ns => ns
                | Raise _ => ∅
                end).
  assert (Hd : descends Formatter.format_help "mopidy" f [Examples.mopidy] h)
    by (apply (descends_next f); eexists; vm_compute; reflexivity).
  assert (Hp : parsed Formatter.format_help "mopidy" h = Return flags)
    by (vm_compute; reflexivity).
  assert (Hr : remainder Formatter.format_help "mopidy" h = Some [])
    by (vm_compute; reflexivity).
  destruct (overrides_after_flags Formatter.format_help "mopidy" Examples.mopidy
              ["-v"; "-v"; "config"] None [Examples.mopidy] h flags Hd Hp Hr)
    as (Hparse & _ & Hkey).
  eexists. split; [exact Hparse|]. split.
  - apply Hkey; [vm_compute; reflexivity|discriminate|discriminate].
  - rewrite lookup_insert_ne, lookup_delete_ne by discriminate.
    vm_compute. reflexivity.
Defined.

(** C2, as stated, fails for the key [command]: the node forces
    [command="forced"] and the flag [--command x] stores under the same
    key, yet the result holds the terminal node there. *)
Lemma overrides_after_flags_counterexample :
  _overrides Examples.forced !! "command" = Some (VStr "forced") /\
  exists result,
    parse Formatter.format_help "mopidy" Examples.forced ["--command"; "x"] None
    = Return result /\
    result !! "command" = Some (Ref Examples.forced) /\
    result !! "command" <> Some (Val (VStr "forced")).
Proof.
  split; [vm_compute; reflexivity|].
  eexists. split; [vm_compute; reflexivity|]. split.
  - vm_compute. reflexivity.
  - intros H. vm_compute in H. discriminate H.
Qed.

(** ** The lifecycle of the actors *)

Section lifecycle.

Variables Config Proxy : Type.
Variable env : environment Config Proxy.

Local Abbreviation event := (event Config Proxy).
Local Abbreviation M := (M Config Proxy).
Local Abbreviation play := (play Config Proxy env).
Local Abbreviation first_failure := (first_failure Config Proxy env).
Local Abbreviation stop_steps := (stop_steps Config Proxy).
Local Abbreviation stop_call := (stop_call Config Proxy).

Lemma bind_eq {A B : Type} (m : M A) (k : A -> M B) (h : list event) :
  (m ≫= k) h =
  match m h with
  | (h', Return a) => k a h'
  | (h', Raise e) => (h', Raise e)
  end.
Proof. reflexivity. Qed.

Lemma play_nil (h : list event) : play [] h = (h, Return ()).
Proof. reflexivity. Qed.

Lemma play_cons (step : event) (steps : list event) (h : list event) :
  play (step :: steps) h =
  match step with
  | Called c =>
      match returned env h c with
      | Return _ => play steps (h ++ [step])
      | Raise e => (h ++ [step], Raise e)
      end
  | Logged _ _ => play steps (h ++ [step])
  end.
Proof.
  destruct step as [c|lvl message]; cbn; [|reflexivity].
  rewrite bind_eq. unfold invoke. destruct (returned env h c); reflexivity.
Qed.

Lemma play_app (steps1 steps2 : list event) (h : list event) :
  play (steps1 ++ steps2) h =
  match play steps1 h with
  | (h', Return _) => play steps2 h'
  | (h', Raise e) => (h', Raise e)
  end.
Proof.
  revert h. induction steps1 as [|step steps1 IH]; intros h; [reflexivity|].
  rewrite <- app_comm_cons, !play_cons.
  destruct step as [c|lvl message]; [destruct (returned env h c)|]; auto.
Qed.

(** Steps are taken up to and including the first one that raises. *)
Lemma play_first_failure (steps : list event) (h : list event) :
  play steps h =
  match first_failure h steps with
  | None => (h ++ steps, Return ())
  | Some (n, e) => (h ++ take (S n) steps, Raise e)
  end.
Proof.
  revert h. induction steps as [|step steps IH]; intros h.
  - cbn. now rewrite app_nil_r.
  - rewrite play_cons. cbn [first_failure].
    destruct step as [c|lvl message].
    + destruct (returned env h c) as [[]|e]; [|reflexivity].
      rewrite IH. destruct (first_failure (h ++ [Called c]) steps) as [[n e]|]; cbn;
        now rewrite <- app_assoc.
    + rewrite IH.
      destruct (first_failure (h ++ [Logged lvl message]) steps) as [[n e]|]; cbn;
        now rewrite <- app_assoc.
Qed.

Lemma stop_each_play (classes : list actor_class) (h : list event) :
  stop_each env classes h = play (stop_call <$> classes) h.
Proof.
  revert h. induction classes as [|klass classes IH]; intros h; [reflexivity|].
  cbn. rewrite !bind_eq. unfold invoke.
  destruct (returned env h (stop_actors_by_class klass)); [apply IH|reflexivity].
Qed.

Lemma seq_play (m k : M unit) (steps1 steps2 : list event) :
  (forall h, m h = play steps1 h) -> (forall h, k h = play steps2 h) ->
  forall h, (m;; k) h = play (steps1 ++ steps2) h.
Proof.
  intros Hm Hk h. rewrite bind_eq, Hm, play_app.
  destruct (play steps1 h) as [h' [[]|e]]; [apply Hk|reflexivity].
Qed.

Lemma invoke_play (c : call Config Proxy) (h : list event) :
  invoke env c h = play [Called c] h.
Proof.
  rewrite play_cons. unfold invoke.
  destruct (returned env h c) as [[]|e]; reflexivity.
Qed.

Lemma log_play (lvl : level) (message : string) (h : list event) :
  log lvl message h = play [Logged lvl message] h.
Proof. reflexivity. Qed.

Lemma stop_steps_eq (args : registry) :
  stop_steps args =
  [Called loop_quit] ++
  ([Logged INFO "Stopping Mopidy frontends"] ++ (stop_call <$> frontend args)) ++
  ([Logged INFO "Stopping Mopidy core"] ++ [stop_call Core]) ++
  ([Logged INFO "Stopping Mopidy backends"] ++ (stop_call <$> backend args)) ++
  ([Logged INFO "Stopping Mopidy audio"] ++ [stop_call Audio]) ++
  [Called stop_remaining_actors].
Proof.
  unfold stop_steps. cbn [app]. rewrite <- ?app_assoc. reflexivity.
Qed.

(** The [finally] suite takes the stop steps in order. *)
Lemma down_play (args : registry) (h : list event) :
  down env args h = play (stop_steps args) h.
Proof.
  rewrite stop_steps_eq. revert h.
  apply seq_play; [apply invoke_play|].
  apply seq_play; [apply seq_play; [apply log_play|apply stop_each_play]|].
  apply seq_play; [apply seq_play; [apply log_play|apply invoke_play]|].
  apply seq_play; [apply seq_play; [apply log_play|apply stop_each_play]|].
  apply seq_play; [apply seq_play; [apply log_play|apply invoke_play]|].
  apply invoke_play.
Qed.

Lemma down_first_failure (args : registry) (h : list event) :
  down env args h =
  match first_failure h (stop_steps args) with
  | None => (h ++ stop_steps args, Return ())
  | Some (n, e) => (h ++ take (S n) (stop_steps args), Raise e)
  end.
Proof. rewrite down_play. apply play_first_failure. Qed.

Lemma run_eq (args : registry) (config : Config) (h : list event) :
  run env args config h =
  match try_except (up env args config) handlers h with
  | (h1, r1) =>
      match down env args h1 with
      | (h2, Return _) => (h2, r1)
      | (h2, Raise e) => (h2, Raise e)
      end
  end.
Proof. reflexivity. Qed.

(** [run] is its guarded part followed by the stop steps, taken up to
    the first one that raises. *)
Lemma run_first_failure (args : registry) (config : Config) (h : list event) :
  run env args config h =
  match try_except (up env args config) handlers h with
  | (h1, r1) =>
      match first_failure h1 (stop_steps args) with
      | None => (h1 ++ stop_steps args, r1)
      | Some (n, e) => (h1 ++ take (S n) (stop_steps args), Raise e)
      end
  end.
Proof.
  rewrite run_eq. destruct (try_except _ _ h) as [h1 r1].
  rewrite down_first_failure.
  destruct (first_failure h1 (stop_steps args)) as [[n e]|]; reflexivity.
Qed.

(** C3 (amended). The stop steps are the same list whatever was
    started, and they are taken in order for as long as each one
    returns: when none raises, all of them run and [run] ends as its
    guarded part did; when one raises, the steps after it are not
    taken and that exception leaves [run]. *)
Theorem stop_steps_until_failure (args : registry) (config : Config)
        (h : list event) :
  (forall h1 : list event,
     down env args h1 =
     match first_failure h1 (stop_steps args) with
     | None => (h1 ++ stop_steps args, Return ())
     | Some (n, e) => (h1 ++ take (S n) (stop_steps args), Raise e)
     end) /\
  run env args config h =
  match try_except (up env args config) handlers h with
  | (h1, r1) =>
      match first_failure h1 (stop_steps args) with
      | None => (h1 ++ stop_steps args, r1)
      | Some (n, e) => (h1 ++ take (S n) (stop_steps args), Raise e)
      end
  end.
Proof.
  split; [intros h1; apply down_first_failure|apply run_first_failure].
Qed.

(** *** What the parts of [run] append to the history *)

Local Abbreviation emits := (emits Config Proxy).
Local Abbreviation not_stop := (not_stop Config Proxy).

Lemma emits_ret {A : Type} (P : event -> Prop) (a : A) : emits P (mret a).
Proof. intros h. exists []. split; [now rewrite app_nil_r|constructor]. Qed.

Lemma emits_raise {A : Type} (P : event -> Prop) (e : exn) :
  emits P (raise e : M A).
Proof. intros h. exists []. split; [now rewrite app_nil_r|constructor]. Qed.

Lemma emits_bind {A B : Type} (P : event -> Prop) (m : M A) (k : A -> M B) :
  emits P m -> (forall a, emits P (k a)) -> emits P (m ≫= k).
Proof.
  intros Hm Hk h. destruct (Hm h) as (evs & E & HP). rewrite bind_eq.
  destruct (m h) as [h' [a|e]]; cbn in E; subst h'.
  - destruct (Hk a (h ++ evs)) as (evs' & E' & HP').
    exists (evs ++ evs'). rewrite E', app_assoc. split; [reflexivity|].
    apply Forall_app; auto.
  - exists evs. auto.
Qed.

Lemma emits_try_except {A : Type} (P : event -> Prop) (body : M A)
      (clauses : exn -> option (M A)) :
  emits P body ->
  (forall e handler, clauses e = Some handler -> emits P handler) ->
  emits P (try_except body clauses).
Proof.
  intros Hb Hc h. destruct (Hb h) as (evs & E & HP). unfold try_except.
  destruct (body h) as [h' [a|e]]; cbn in E; subst h'.
  - exists evs. auto.
  - destruct (clauses e) as [handler|] eqn:Ec; [|exists evs; auto].
    destruct (Hc e handler Ec (h ++ evs)) as (evs' & E' & HP').
    exists (evs ++ evs'). rewrite E', app_assoc. split; [reflexivity|].
    apply Forall_app; auto.
Qed.

Lemma emits_log (P : event -> Prop) (lvl : level) (message : string) :
  P (Logged lvl message) -> emits P (log lvl message).
Proof. intros HP h. exists [Logged lvl message]. split; [reflexivity|]. auto. Qed.

Lemma emits_start_proxy (P : event -> Prop) (klass : actor_class)
      (kw : kwargs Config Proxy) :
  P (Called (start klass kw)) -> emits P (start_proxy env klass kw).
Proof. intros HP h. exists [Called (start klass kw)]. split; [reflexivity|]. auto. Qed.

Lemma emits_invoke (P : event -> Prop) (c : call Config Proxy) :
  P (Called c) -> emits P (invoke env c).
Proof. intros HP h. exists [Called c]. split; [reflexivity|]. auto. Qed.

Lemma emits_up (args : registry) (config : Config) :
  emits not_stop (up env args config).
Proof.
  unfold up.
  apply emits_bind.
  { apply emits_bind; [now apply emits_log|]. intros _. now apply emits_start_proxy. }
  intros audio. apply emits_bind.
  { apply emits_bind; [now apply emits_log|]. intros _.
    generalize (@nil Proxy).
    induction (backend args) as [|klass classes IH]; intros backends; cbn.
    - apply emits_ret.
    - apply emits_bind; [|intros backend; apply IH].
      apply emits_try_except; [now apply emits_start_proxy|].
      intros e handler He. destruct e; try discriminate. injection He as <-.
      apply emits_bind; [now apply emits_log|]. intros _. apply emits_raise. }
  intros backends. apply emits_bind.
  { apply emits_bind; [now apply emits_log|]. intros _. now apply emits_start_proxy. }
  intros core. apply emits_bind; [|intros _; now apply emits_invoke].
  apply emits_bind; [now apply emits_log|]. intros _.
  induction (frontend args) as [|klass classes IH]; cbn.
  - apply emits_ret.
  - apply emits_bind; [|intros _; apply IH].
    apply emits_try_except.
    + apply emits_bind; [now apply emits_start_proxy|]. intros _. apply emits_ret.
    + intros e handler He. destruct e; try discriminate. injection He as <-.
      apply emits_bind; [now apply emits_log|]. intros _. apply emits_raise.
Qed.

Lemma emits_guarded (args : registry) (config : Config) :
  emits not_stop (try_except (up env args config) handlers).
Proof.
  apply emits_try_except; [apply emits_up|].
  intros e handler He.
  destruct e; try discriminate; injection He as <-; now apply emits_log.
Qed.

Lemma first_failure_None (steps : list event) (h : list event) :
  stops_return Config Proxy env ->
  Forall (fun ev => match ev with
                    | Called _ => is_stop Config Proxy ev = true
                    | Logged _ _ => True
                    end) steps ->
  first_failure h steps = None.
Proof.
  intros Hs Hsteps. revert h.
  induction Hsteps as [|step steps Hstep _ IH]; intros h; [reflexivity|].
  cbn [first_failure]. destruct step as [c|lvl message].
  - rewrite (Hs h c Hstep), IH. reflexivity.
  - rewrite IH. reflexivity.
Qed.

Lemma stop_steps_stops (args : registry) :
  Forall (fun ev => match ev with
                    | Called _ => is_stop Config Proxy ev = true
                    | Logged _ _ => True
                    end) (stop_steps args).
Proof.
  unfold stop_steps.
  repeat (apply Forall_app; split); repeat constructor;
    apply Forall_fmap, Forall_true; reflexivity.
Qed.

(** C1. However the guarded part of [run] ends (the main loop was
    left, a start raised at any stage, an interrupt came), the
    [finally] suite is entered after it and no stop call is made
    before: [loop.quit()] is always attempted, then the stop steps
    come in the reverse of the start order: the frontends, the core,
    the backends, the audio, then the remaining actors, every class of
    the registry being asked to stop whether it was started or not.
    A step is taken provided every stop call before it returned: the
    history ends with the steps up to and including the first one that
    raises, or with all of them when none does.  So all the stop steps
    run, whichever start raised, when the stop calls return; they do
    not when a stop call raises or is interrupted. *)
Theorem shutdown_always_runs (args : registry) (config : Config) (h : list event) :
  exists (ups : list event) (n : nat),
    (run env args config h).1 = h ++ ups ++ take n (stop_steps args) /\
    Forall not_stop ups /\
    (0 < n)%nat /\
    (stops_return Config Proxy env ->
     (run env args config h).1 = h ++ ups ++ stop_steps args) /\
    stop_steps args =
    [Called loop_quit; Logged INFO "Stopping Mopidy frontends"] ++
    (stop_call <$> frontend args) ++
    [Logged INFO "Stopping Mopidy core"; stop_call Core;
     Logged INFO "Stopping Mopidy backends"] ++
    (stop_call <$> backend args) ++
    [Logged INFO "Stopping Mopidy audio"; stop_call Audio;
     Called stop_remaining_actors] /\
    n = match first_failure (h ++ ups) (stop_steps args) with
        | None => length (stop_steps args)
        | Some (k, _) => S k
        end.
Proof.
  destruct (emits_guarded args config h) as (ups & E & Hups).
  rewrite run_first_failure.
  destruct (try_except _ _ h) as [h1 r1]. cbn in E. subst h1.
  destruct (first_failure (h ++ ups) (stop_steps args)) as [[n e]|] eqn:Ef.
  - exists ups, (S n). rewrite Ef. cbn [fst]. rewrite <- app_assoc.
    split; [reflexivity|]. split; [exact Hups|]. split; [lia|].
    split; [|split; reflexivity].
    intros Hs. rewrite (first_failure_None _ _ Hs (stop_steps_stops args)) in Ef.
    discriminate.
  - exists ups, (length (stop_steps args)). rewrite Ef. cbn [fst].
    rewrite firstn_all, <- app_assoc.
    split; [reflexivity|]. split; [exact Hups|]. split.
    + unfold stop_steps. cbn. lia.
    + repeat split; reflexivity.
Qed.

Lemma try_except_caught {A : Type} (body : M A) (clauses : exn -> option (M A))
      (handler : M A) (h h1 : list event) (e : exn) :
  body h = (h1, Raise e) -> clauses e = Some handler ->
  try_except body clauses h = handler h1.
Proof. intros Hb Hc. unfold try_except. now rewrite Hb, Hc. Qed.

Lemma run_caught (args : registry) (config : Config)
      (h h1 : list event) (e : exn) :
  component_error e = true ->
  up env args config h = (h1, Raise e) ->
  run env args config h =
  match first_failure (h1 ++ [Logged INFO "Initialization error. Exiting..."])
                      (stop_steps args) with
  | None =>
      ((h1 ++ [Logged INFO "Initialization error. Exiting..."]) ++ stop_steps args,
       Return ())
  | Some (n, e') =>
      ((h1 ++ [Logged INFO "Initialization error. Exiting..."]) ++
       take (S n) (stop_steps args), Raise e')
  end.
Proof.
  intros He Hup. rewrite run_first_failure.
  rewrite (try_except_caught _ _ (log INFO "Initialization error. Exiting...")
             h h1 e Hup)
    by (destruct e; try discriminate; reflexivity).
  reflexivity.
Qed.

(** C7. A [BackendError], [FrontendError] or [MixerError] raised by
    the guarded part of [run], at whichever start it comes from, is
    caught there: "Initialization error. Exiting..." is logged and the
    stop steps follow.  What [run] answers is what the stop steps
    answer, so the start error does not leave [run]; when every stop
    call returns, [run] returns. *)
Theorem component_error_caught (args : registry) (config : Config)
        (h h1 : list event) (e : exn) :
  component_error e = true ->
  up env args config h = (h1, Raise e) ->
  let h2 := h1 ++ [Logged INFO "Initialization error. Exiting..."] in
  run env args config h =
  match first_failure h2 (stop_steps args) with
  | None => (h2 ++ stop_steps args, Return ())
  | Some (n, e') => (h2 ++ take (S n) (stop_steps args), Raise e')
  end /\
  (run env args config h).2 = (down env args h2).2 /\
  (stops_return Config Proxy env ->
   run env args config h = (h2 ++ stop_steps args, Return ())).
Proof.
  intros He Hup h2. pose proof (run_caught args config h h1 e He Hup) as E.
  fold h2 in E. split; [exact E|split].
  - rewrite E, down_first_failure.
    destruct (first_failure h2 (stop_steps args)) as [[n e']|]; reflexivity.
  - intros Hs. rewrite E, (first_failure_None _ _ Hs (stop_steps_stops args)).
    reflexivity.
Qed.

(** *** A backend that fails to start *)

Local Abbreviation backend_starts := (backend_starts Config Proxy).

Lemma backend_starts_app (config : Config) (audio : Proxy)
      (l1 l2 : list actor_class) :
  backend_starts config audio (l1 ++ l2)
  = backend_starts config audio l1 ++ backend_starts config audio l2.
Proof. unfold backend_starts. apply fmap_app. Qed.

(** The backends that start leave their calls in the history, in
    registration order. *)
Lemma start_backends_loop_app (config : Config) (audio : Proxy)
      (before rest : list actor_class) :
  forall (backends : list Proxy) (h : list event),
    (forall i klass,
       before !! i = Some klass ->
       exists proxy,
         started env (h ++ backend_starts config audio (take i before))
                 klass (backend_kwargs config audio) = Return proxy) ->
    exists backends',
      start_backends_loop env config (before ++ rest) audio backends h
      = start_backends_loop env config rest audio backends'
          (h ++ backend_starts config audio before).
Proof.
  induction before as [|klass before IH]; intros backends h H.
  - exists backends. cbn. now rewrite app_nil_r.
  - destruct (H O klass eq_refl) as [proxy Hp]. cbn in Hp. rewrite app_nil_r in Hp.
    destruct (IH (backends ++ [proxy])
                 (h ++ [Called (start klass (backend_kwargs config audio))]))
      as [backends' E].
    { intros i klass' Hi. destruct (H (S i) klass' Hi) as [proxy' Hp'].
      exists proxy'. cbn in Hp'. rewrite <- app_assoc. exact Hp'. }
    exists backends'.
    replace (h ++ backend_starts config audio (klass :: before))
      with ((h ++ [Called (start klass (backend_kwargs config audio))]) ++
            backend_starts config audio before)
      by (rewrite <- app_assoc; reflexivity).
    rewrite <- E, <- app_comm_cons.
    cbn [start_backends_loop]. rewrite bind_eq.
    unfold try_except, start_proxy. rewrite Hp. reflexivity.
Qed.

Lemma start_backends_loop_fails (config : Config) (audio : Proxy)
      (failing : actor_class) (after : list actor_class) (backends : list Proxy)
      (h : list event) (message : string) :
  started env h failing (backend_kwargs config audio) = Raise (BackendError message) ->
  start_backends_loop env config (failing :: after) audio backends h
  = (h ++ [Called (start failing (backend_kwargs config audio));
           Logged ERROR ("Backend (" +:+ __name__ failing +:+
                         ") initialization error: " +:+ message)],
     Raise (BackendError message)).
Proof.
  intros Hf. cbn [start_backends_loop]. rewrite bind_eq.
  unfold try_except, start_proxy. rewrite Hf. cbn.
  rewrite bind_eq. unfold log, raise. rewrite <- app_assoc. reflexivity.
Qed.

Lemma filter_none (p : event -> bool) (l : list event) :
  Forall (fun ev => p ev = false) l -> filter (fun ev => p ev = true) l = [].
Proof.
  induction 1 as [|ev l Hev _ IH]; [reflexivity|].
  rewrite filter_cons_False; [exact IH|congruence].
Qed.

Lemma stop_steps_no_start (args : registry) :
  Forall (fun ev => is_start Config Proxy ev = false) (stop_steps args).
Proof.
  unfold stop_steps.
  repeat (apply Forall_app; split); repeat constructor;
    apply Forall_fmap, Forall_true; reflexivity.
Qed.

(** C5. Backends are started one at a time in registration order.
    When the audio has started, the backends [before] have started
    and the next one, [failing], raises a [BackendError]: the history
    holds the start of the audio, the starts of [before] and of
    [failing] in that order, the error log naming [failing], the
    "Initialization error" log, and then only stop steps.  So no
    backend of [after] is started, the core is never started, and the
    audio was started once. *)
Theorem backend_start_failure (args : registry) (config : Config)
        (h : list event) (audio : Proxy)
        (before after : list actor_class) (failing : actor_class)
        (message : string) :
  let h1 := h ++ [Logged INFO "Starting Mopidy audio";
                  Called (start Audio (audio_kwargs config));
                  Logged INFO ("Starting Mopidy backends: " +:+ names (backend args))] in
  backend args = before ++ failing :: after ->
  started env (h ++ [Logged INFO "Starting Mopidy audio"]) Audio (audio_kwargs config)
  = Return audio ->
  (forall i klass,
     before !! i = Some klass ->
     exists proxy,
       started env (h1 ++ backend_starts config audio (take i before))
               klass (backend_kwargs config audio) = Return proxy) ->
  started env (h1 ++ backend_starts config audio before)
          failing (backend_kwargs config audio) = Raise (BackendError message) ->
  exists downs : list event,
    let ups :=
      [Logged INFO "Starting Mopidy audio";
       Called (start Audio (audio_kwargs config));
       Logged INFO ("Starting Mopidy backends: " +:+ names (backend args))] ++
      backend_starts config audio (before ++ [failing]) ++
      [Logged ERROR ("Backend (" +:+ __name__ failing +:+
                     ") initialization error: " +:+ message);
       Logged INFO "Initialization error. Exiting..."] in
    (run env args config h).1 = h ++ ups ++ downs /\
    Forall (fun ev => is_start Config Proxy ev = false) downs /\
    (exists n, downs = take n (stop_steps args)) /\
    (stops_return Config Proxy env -> downs = stop_steps args) /\
    Forall (fun ev => is_core_start Config Proxy ev = false) (ups ++ downs) /\
    length (filter (fun ev => is_audio_start Config Proxy ev = true) (ups ++ downs)) = 1%nat.
Proof.
  intros h1 Hargs Ha Hb Hf.
  set (h2 := h1 ++ backend_starts config audio before ++
             [Called (start failing (backend_kwargs config audio));
              Logged ERROR ("Backend (" +:+ __name__ failing +:+
                            ") initialization error: " +:+ message)]).
  assert (Hup : up env args config h = (h2, Raise (BackendError message))).
  { unfold up. rewrite bind_eq. unfold start_audio. rewrite bind_eq.
    unfold log at 1, start_proxy at 1. rewrite Ha.
    rewrite bind_eq. unfold start_backends. rewrite bind_eq. unfold log at 1.
    rewrite Hargs.
    destruct (start_backends_loop_app config audio before (failing :: after) []
                (((h ++ [Logged INFO "Starting Mopidy audio"]) ++
                  [Called (start Audio (audio_kwargs config))]) ++
                 [Logged INFO ("Starting Mopidy backends: " +:+
                               names (before ++ failing :: after))]))
      as [backends' E].
    { intros i klass Hi. destruct (Hb i klass Hi) as [proxy Hp]. exists proxy.
      subst h1. rewrite Hargs in Hp. rewrite <- Hp. f_equal.
      rewrite <- !app_assoc. reflexivity. }
    rewrite E, (start_backends_loop_fails _ _ _ _ _ _ message).
    - subst h2 h1. rewrite Hargs, <- !app_assoc. reflexivity.
    - rewrite <- Hf. subst h1. rewrite Hargs, <- !app_assoc. reflexivity. }
  pose proof (run_caught args config h h2 (BackendError message) eq_refl Hup)
    as Hrun.
  set (h3 := h2 ++ [Logged INFO "Initialization error. Exiting..."]) in *.
  assert (Hh3 : h3 = h ++
            ([Logged INFO "Starting Mopidy audio";
              Called (start Audio (audio_kwargs config));
              Logged INFO ("Starting Mopidy backends: " +:+ names (backend args))] ++
             backend_starts config audio (before ++ [failing]) ++
             [Logged ERROR ("Backend (" +:+ __name__ failing +:+
                            ") initialization error: " +:+ message);
              Logged INFO "Initialization error. Exiting..."])).
  { subst h3 h2 h1. rewrite backend_starts_app, <- !app_assoc. reflexivity. }
  assert (Hd : exists n,
             (run env args config h).1 = h3 ++ take n (stop_steps args) /\
             (stops_return Config Proxy env ->
              take n (stop_steps args) = stop_steps args)).
  { rewrite Hrun. destruct (first_failure h3 (stop_steps args)) as [[n e']|] eqn:Ef.
    - exists (S n). split; [reflexivity|]. intros Hs.
      rewrite (first_failure_None _ _ Hs (stop_steps_stops args)) in Ef. discriminate.
    - exists (length (stop_steps args)). rewrite firstn_all. auto. }
  destruct Hd as (n & Hrun' & Hall).
  exists (take n (stop_steps args)). cbv zeta.
  split; [rewrite Hrun', Hh3, <- app_assoc; reflexivity|].
  split; [apply Forall_take, stop_steps_no_start|].
  split; [eauto|]. split; [exact Hall|]. split.
  - repeat (apply Forall_app; split); repeat constructor.
    + apply Forall_fmap, Forall_true. intros klass. now destruct klass.
    + apply Forall_take. eapply Forall_impl; [apply stop_steps_no_start|].
      intros [[]|] H; try reflexivity; discriminate.
  - rewrite !filter_app.
    rewrite (filter_none (is_audio_start Config Proxy)
               (backend_starts config audio (before ++ [failing]))).
    + rewrite (filter_none (is_audio_start Config Proxy) (take n (stop_steps args))).
      * reflexivity.
      * apply Forall_take. eapply Forall_impl; [apply stop_steps_no_start|].
        intros [[]|] H; try reflexivity; discriminate.
    + apply Forall_fmap, Forall_true. intros klass. now destruct klass.
Qed.

End lifecycle.

(** ** The lifecycle theorems on concrete environments *)

Lemma quiet_stops_return :
  stops_return unit string Examples.spotify_fails /\
  stops_return unit string Examples.core_fails.
Proof.
  split; intros h c H; destruct c; try discriminate H; reflexivity.
Defined.

Lemma shutdown_always_runs_witness :
  stops_return unit string Examples.spotify_fails /\
  exists ups,
    (run Examples.spotify_fails Examples.extensions () []).1
    = [] ++ ups ++ stop_steps unit string Examples.extensions /\
    Forall (not_stop unit string) ups.
Proof.
  split; [exact (proj1 quiet_stops_return)|].
  destruct (shutdown_always_runs unit string Examples.spotify_fails
              Examples.extensions () [])
    as (ups & n & _ & Hups & _ & E & _).
  exists ups. split; [exact (E (proj1 quiet_stops_return))|exact Hups].
Defined.

(** C1, as stated, fails: the backend [spotify] fails to start, the
    stop steps begin, and an interrupt arrives while the core is being
    stopped.  The backends, the audio and the remaining actors are
    never asked to stop, and the interrupt leaves [run]. *)
Lemma shutdown_always_runs_counterexample :
  run Examples.core_stop_interrupted Examples.extensions () []
  = ([Logged INFO "Starting Mopidy audio";
      Called (start Audio (audio_kwargs ()));
      Logged INFO "Starting Mopidy backends: local, spotify, stream";
      Called (start (Extension "local") (backend_kwargs () "Audio"));
      Called (start (Extension "spotify") (backend_kwargs () "Audio"));
      Logged ERROR "Backend (spotify) initialization error: login failed";
      Logged INFO "Initialization error. Exiting...";
      Called loop_quit;
      Logged INFO "Stopping Mopidy frontends";
      Called (stop_actors_by_class (Extension "mpd"));
      Called (stop_actors_by_class (Extension "http"));
      Logged INFO "Stopping Mopidy core";
      Called (stop_actors_by_class Core)],
     Raise KeyboardInterrupt) /\
  Forall (fun ev : event unit string =>
            ev <> Called (stop_actors_by_class (Extension "local")) /\
            ev <> Called (stop_actors_by_class (Extension "spotify")) /\
            ev <> Called (stop_actors_by_class (Extension "stream")) /\
            ev <> Called (stop_actors_by_class Audio) /\
            ev <> Called stop_remaining_actors)
         (run Examples.core_stop_interrupted Examples.extensions () []).1.
Proof.
  assert (E : run Examples.core_stop_interrupted Examples.extensions () []
              = ([Logged INFO "Starting Mopidy audio";
                  Called (start Audio (audio_kwargs ()));
                  Logged INFO "Starting Mopidy backends: local, spotify, stream";
                  Called (start (Extension "local") (backend_kwargs () "Audio"));
                  Called (start (Extension "spotify") (backend_kwargs () "Audio"));
                  Logged ERROR "Backend (spotify) initialization error: login failed";
                  Logged INFO "Initialization error. Exiting...";
                  Called loop_quit;
                  Logged INFO "Stopping Mopidy frontends";
                  Called (stop_actors_by_class (Extension "mpd"));
                  Called (stop_actors_by_class (Extension "http"));
                  Logged INFO "Stopping Mopidy core";
                  Called (stop_actors_by_class Core)],
                 Raise KeyboardInterrupt))
    by (vm_compute; reflexivity).
  split; [exact E|]. rewrite E. cbn [fst].
  repeat constructor; discriminate.
Qed.

Lemma component_error_caught_witness :
  exists h1,
    component_error (MixerError "no mixer") = true /\
    up Examples.core_fails Examples.extensions () [] = (h1, Raise (MixerError "no mixer")) /\
    run Examples.core_fails Examples.extensions () []
    = ((h1 ++ [Logged INFO "Initialization error. Exiting..."]) ++
       stop_steps unit string Examples.extensions, Return ()).
Proof.
  eexists. split; [reflexivity|].
  assert (Hup : up Examples.core_fails Examples.extensions () []
                = ([Logged INFO "Starting Mopidy audio";
                    Called (start Audio (audio_kwargs ()));
                    Logged INFO "Starting Mopidy backends: local, spotify, stream";
                    Called (start (Extension "local") (backend_kwargs () "Audio"));
                    Called (start (Extension "spotify") (backend_kwargs () "Audio"));
                    Called (start (Extension "stream") (backend_kwargs () "Audio"));
                    Logged INFO "Starting Mopidy core";
                    Called (start Core (core_kwargs "Audio" ["local"; "spotify"; "stream"]))],
                   Raise (MixerError "no mixer")))
    by (vm_compute; reflexivity).
  split; [exact Hup|].
  exact (proj2 (proj2 (component_error_caught unit string Examples.core_fails
                         Examples.extensions () [] _ (MixerError "no mixer")
                         eq_refl Hup))
               (proj2 quiet_stops_return)).
Defined.

Lemma backend_start_failure_witness :
  (run Examples.spotify_fails Examples.extensions () []).1
  = [Logged INFO "Starting Mopidy audio";
     Called (start Audio (audio_kwargs ()));
     Logged INFO "Starting Mopidy backends: local, spotify, stream";
     Called (start (Extension "local") (backend_kwargs () "Audio"));
     Called (start (Extension "spotify") (backend_kwargs () "Audio"));
     Logged ERROR "Backend (spotify) initialization error: login failed";
     Logged INFO "Initialization error. Exiting..."] ++
    stop_steps unit string Examples.extensions.
Proof.
  destruct (backend_start_failure unit string Examples.spotify_fails
              Examples.extensions () [] "Audio"
              [Extension "local"] [Extension "stream"] (Extension "spotify")
              "login failed")
    as (downs & E & _ & _ & Hall & _).
  - reflexivity.
  - reflexivity.
  - intros i klass Hi. exists (__name__ klass).
    destruct i as [|i]; [|destruct i; discriminate Hi].
    injection Hi as <-. reflexivity.
  - reflexivity.
  - rewrite E, (Hall (proj1 quiet_stops_return)). reflexivity.
Defined.

(** C3, as stated, fails: when stopping the frontend [mpd] raises, the
    core, the backends, the audio and the remaining actors are never
    asked to stop, and the exception leaves [run]. *)
Lemma stop_steps_until_failure_counterexample :
  run Examples.mpd_stop_fails Examples.extensions () []
  = ([Logged INFO "Starting Mopidy audio";
      Called (start Audio (audio_kwargs ()));
      Logged INFO "Starting Mopidy backends: local, spotify, stream";
      Called (start (Extension "local") (backend_kwargs () "Audio"));
      Called (start (Extension "spotify") (backend_kwargs () "Audio"));
      Called (start (Extension "stream") (backend_kwargs () "Audio"));
      Logged INFO "Starting Mopidy core";
      Called (start Core (core_kwargs "Audio" ["local"; "spotify"; "stream"]));
      Logged INFO "Starting Mopidy frontends: mpd, http";
      Called (start (Extension "mpd") (frontend_kwargs () "Core"));
      Called (start (Extension "http") (frontend_kwargs () "Core"));
      Called loop_run;
      Logged INFO "Interrupted. Exiting...";
      Called loop_quit;
      Logged INFO "Stopping Mopidy frontends";
      Called (stop_actors_by_class (Extension "mpd"))],
     Raise (OtherError "ActorDeadError")) /\
  Forall (fun ev : event unit string =>
            ev <> Called (stop_actors_by_class (Extension "http")) /\
            ev <> Called (stop_actors_by_class Core) /\
            ev <> Called (stop_actors_by_class (Extension "local")) /\
            ev <> Called (stop_actors_by_class Audio) /\
            ev <> Called stop_remaining_actors)
         (run Examples.mpd_stop_fails Examples.extensions () []).1.
Proof.
  assert (E : run Examples.mpd_stop_fails Examples.extensions () []
              = ([Logged INFO "Starting Mopidy audio";
                  Called (start Audio (audio_kwargs ()));
                  Logged INFO "Starting Mopidy backends: local, spotify, stream";
                  Called (start (Extension "local") (backend_kwargs () "Audio"));
                  Called (start (Extension "spotify") (backend_kwargs () "Audio"));
                  Called (start (Extension "stream") (backend_kwargs () "Audio"));
                  Logged INFO "Starting Mopidy core";
                  Called (start Core (core_kwargs "Audio" ["local"; "spotify"; "stream"]));
                  Logged INFO "Starting Mopidy frontends: mpd, http";
                  Called (start (Extension "mpd") (frontend_kwargs () "Core"));
                  Called (start (Extension "http") (frontend_kwargs () "Core"));
                  Called loop_run;
                  Logged INFO "Interrupted. Exiting...";
                  Called loop_quit;
                  Logged INFO "Stopping Mopidy frontends";
                  Called (stop_actors_by_class (Extension "mpd"))],
                 Raise (OtherError "ActorDeadError")))
    by (vm_compute; reflexivity).
  split; [exact E|]. rewrite E. cbn [fst].
  repeat constructor; discriminate.
Qed.

(** * Further properties of the module *)

(** ** The converters, both ways *)

Lemma append_cons (c : ascii) (a b : string) : String c a +:+ b = String c (a +:+ b).
Proof. reflexivity. Qed.

Lemma append_nil_r (a : string) : a +:+ EmptyString = a.
Proof. induction a as [|c a IH]; [reflexivity|]. now rewrite append_cons, IH. Qed.

Lemma contains_app (c : ascii) (a b : string) :
  PyStr.contains c (a +:+ b) = (PyStr.contains c a || PyStr.contains c b)%bool.
Proof.
  induction a as [|d a IH]; [reflexivity|].
  rewrite append_cons. cbn [PyStr.contains]. now rewrite IH, orb_assoc.
Qed.

Lemma partition_Some (c : ascii) (s a b : string) :
  PyStr.partition c s = Some (a, b) ->
  s = a +:+ String c b /\ PyStr.contains c a = false.
Proof.
  revert a. induction s as [|d s IH]; intros a; cbn [PyStr.partition]; [discriminate|].
  destruct (Ascii.eqb d c) eqn:E.
  - intros [= <- <-]. apply Ascii.eqb_eq in E as ->. split; reflexivity.
  - destruct (PyStr.partition c s) as [[a' b']|]; [|discriminate].
    intros [= <- <-]. destruct (IH a' eq_refl) as [-> H].
    split; [reflexivity|]. cbn [PyStr.contains]. now rewrite E, H.
Qed.

Lemma partition_None_contains (c : ascii) (s : string) :
  PyStr.partition c s = None -> PyStr.contains c s = false.
Proof.
  induction s as [|d s IH]; cbn [PyStr.partition PyStr.contains]; [reflexivity|].
  destruct (Ascii.eqb d c); [discriminate|].
  destruct (PyStr.partition c s) as [[a b]|]; [discriminate|]. intros _. now apply IH.
Qed.

Lemma split_aux_cons (sep : ascii) (s cur : string) :
  exists part parts, PyStr.split_aux sep cur s = part :: parts.
Proof.
  revert cur. induction s as [|c s IH]; intros cur; cbn [PyStr.split_aux]; [eauto|].
  destruct (Ascii.eqb c sep); eauto.
Qed.

Lemma join_cons (sep part part' : string) (parts : list string) :
  PyStr.join sep (part :: part' :: parts)
  = part +:+ sep +:+ PyStr.join sep (part' :: parts).
Proof. reflexivity. Qed.

Lemma split_aux_join (sep : ascii) (s cur : string) :
  PyStr.join (String sep EmptyString) (PyStr.split_aux sep cur s) = cur +:+ s.
Proof.
  revert cur. induction s as [|c s IH]; intros cur; cbn [PyStr.split_aux].
  - now rewrite append_nil_r.
  - destruct (Ascii.eqb c sep) eqn:E.
    + apply Ascii.eqb_eq in E as ->.
      destruct (split_aux_cons sep s EmptyString) as (part & parts & Ep).
      specialize (IH EmptyString). rewrite Ep in IH |- *.
      now rewrite join_cons, IH.
    + rewrite IH, append_assoc. reflexivity.
Qed.

Lemma split_aux_parts (sep : ascii) (s cur : string) :
  PyStr.contains sep cur = false ->
  Forall (fun part => PyStr.contains sep part = false) (PyStr.split_aux sep cur s).
Proof.
  revert cur. induction s as [|c s IH]; intros cur Hcur; cbn [PyStr.split_aux].
  - repeat constructor. exact Hcur.
  - destruct (Ascii.eqb c sep) eqn:E.
    + constructor; [exact Hcur|]. now apply IH.
    + apply IH. rewrite contains_app, Hcur. cbn. now rewrite E.
Qed.

Lemma split_aux_length (sep : ascii) (s cur : string) :
  length (PyStr.split_aux sep cur s)
  = S (length (filter (fun c => c = sep) (list_ascii_of_string s))).
Proof.
  revert cur. induction s as [|c s IH]; intros cur; cbn [PyStr.split_aux]; [reflexivity|].
  cbn [list_ascii_of_string]. destruct (Ascii.eqb c sep) eqn:E.
  - apply Ascii.eqb_eq in E as ->. rewrite filter_cons_True by reflexivity.
    cbn. now rewrite IH.
  - apply Ascii.eqb_neq in E. rewrite filter_cons_False by exact E. apply IH.
Qed.

(** X1. [config_files_type] loses nothing: joining the parts it returns
    with [:] gives the value back.  No part holds a colon, and there
    is one part more than there are colons in the value, so the result
    is never empty: the empty value gives one empty part, and a colon
    at either end or two colons in a row give empty parts. *)
Theorem config_files_type_join (value : string) :
  PyStr.join ":" (config_files_type value) = value /\
  Forall (fun part => PyStr.contains ":"%char part = false) (config_files_type value) /\
  length (config_files_type value)
  = S (length (filter (fun c => c = ":"%char) (list_ascii_of_string value))).
Proof.
  unfold config_files_type, PyStr.split. split; [|split].
  - apply (split_aux_join ":"%char value EmptyString).
  - now apply split_aux_parts.
  - apply split_aux_length.
Qed.

Lemma split_aux_plain (sep : ascii) (s cur : string) :
  PyStr.contains sep s = false -> PyStr.split_aux sep cur s = [cur +:+ s].
Proof.
  revert cur. induction s as [|c s IH]; intros cur; cbn [PyStr.split_aux PyStr.contains].
  - now rewrite append_nil_r.
  - destruct (Ascii.eqb c sep); [discriminate|]. cbn [orb]. intros H.
    now rewrite IH, append_assoc.
Qed.

Lemma split_aux_app (sep : ascii) (a b cur : string) :
  PyStr.contains sep a = false ->
  PyStr.split_aux sep cur (a +:+ String sep b)
  = (cur +:+ a) :: PyStr.split_aux sep EmptyString b.
Proof.
  revert cur. induction a as [|c a IH]; intros cur; cbn [PyStr.contains].
  - intros _. change (EmptyString +:+ String sep b) with (String sep b).
    cbn [PyStr.split_aux]. now rewrite Ascii.eqb_refl, append_nil_r.
  - rewrite append_cons. cbn [PyStr.split_aux].
    destruct (Ascii.eqb c sep); [discriminate|]. cbn [orb]. intros H.
    now rewrite IH, append_assoc.
Qed.

(** X2. The way [DEFAULT_CONFIG] is built and read back (lines 20-27):
    a non-empty list of paths none of which holds a colon, joined with
    [:] and handed to [config_files_type], comes back as it was, in
    the same order. *)
Theorem config_files_type_split (part : string) (parts : list string) :
  Forall (fun p => PyStr.contains ":"%char p = false) (part :: parts) ->
  config_files_type (PyStr.join ":" (part :: parts)) = part :: parts.
Proof.
  unfold config_files_type, PyStr.split.
  revert part. induction parts as [|part' parts IH]; intros part H.
  - apply Forall_inv in H. cbn [PyStr.join concat]. now rewrite split_aux_plain.
  - rewrite join_cons. change (":" +:+ ?x) with (String ":"%char x).
    rewrite split_aux_app by exact (Forall_inv H).
    f_equal. apply IH. exact (Forall_inv_tail H).
Qed.

Lemma config_files_type_split_witness :
  Forall (fun p => PyStr.contains ":"%char p = false)
         ["/etc/xdg/mopidy/mopidy.conf"; "/home/a/.config/mopidy/mopidy.conf"] /\
  config_files_type "/etc/xdg/mopidy/mopidy.conf:/home/a/.config/mopidy/mopidy.conf"
  = ["/etc/xdg/mopidy/mopidy.conf"; "/home/a/.config/mopidy/mopidy.conf"].
Proof.
  assert (H : Forall (fun p => PyStr.contains ":"%char p = false)
                ["/etc/xdg/mopidy/mopidy.conf"; "/home/a/.config/mopidy/mopidy.conf"])
    by (repeat constructor).
  split; [exact H|].
  exact (config_files_type_split "/etc/xdg/mopidy/mopidy.conf"
           ["/home/a/.config/mopidy/mopidy.conf"] H).
Defined.

(** An accepted [-o] value has a slash and, after it, an equals sign. *)
Lemma config_override_type_Converted (input section key value : string) :
  config_override_type input = Converted (section, key, value) ->
  exists s k v : string,
    input = s +:+ "/" +:+ k +:+ "=" +:+ v /\
    PyStr.contains "/"%char s = false /\
    PyStr.contains "="%char k = false /\
    section = PyStr.strip s /\ key = PyStr.strip k /\ value = PyStr.strip v.
Proof.
  unfold config_override_type, PyStr.split1.
  destruct (PyStr.partition "/"%char input) as [[s r]|] eqn:Es; [|discriminate].
  destruct (partition_Some _ _ _ _ Es) as [-> Hs].
  destruct (PyStr.partition "="%char r) as [[k v]|] eqn:Ek; [|discriminate].
  destruct (partition_Some _ _ _ _ Ek) as [-> Hk].
  intros [= <- <- <-]. exists s, k, v. repeat split; assumption.
Qed.

(** X3. What [config_override_type] accepts and what it rejects.  A
    value is accepted exactly when it has a slash and an equals sign
    somewhere after its first slash: the section is the text before
    the first slash, the key the text between that slash and the first
    equals sign after it, the value everything that follows (further
    slashes and equals signs included), each stripped.  Everything
    else is rejected with the message naming the value as given; an
    equals sign that only comes before the first slash does not
    count. *)
Theorem config_override_type_inv (input : string) :
  match config_override_type input with
  | Converted (section, key, value) =>
      exists s k v : string,
        input = s +:+ "/" +:+ k +:+ "=" +:+ v /\
        PyStr.contains "/"%char s = false /\
        PyStr.contains "="%char k = false /\
        section = PyStr.strip s /\ key = PyStr.strip k /\ value = PyStr.strip v
  | ArgumentTypeError message =>
      message = input +:+ " must have the format section/key=value" /\
      (PyStr.contains "/"%char input = false \/
       exists s r : string,
         input = s +:+ "/" +:+ r /\
         PyStr.contains "/"%char s = false /\
         PyStr.contains "="%char r = false)
  end.
Proof.
  destruct (config_override_type input) as [[[section key] value]|message] eqn:E.
  { now apply config_override_type_Converted. }
  revert E. unfold config_override_type, PyStr.split1.
  destruct (PyStr.partition "/"%char input) as [[s r]|] eqn:Es.
  - destruct (partition_Some _ _ _ _ Es) as [-> Hs].
    destruct (PyStr.partition "="%char r) as [[k v]|] eqn:Ek; [discriminate|].
    intros [= <-]. split; [reflexivity|]. right. exists s, r.
    repeat split; [assumption|]. now apply partition_None_contains.
  - intros [= <-]. split; [reflexivity|]. left. now apply partition_None_contains.
Qed.

(** *** What [strip] leaves *)

Lemma contains_lstrip_by (p : ascii -> bool) (c : ascii) (s : string) :
  PyStr.contains c s = false -> PyStr.contains c (PyStr.lstrip_by p s) = false.
Proof.
  induction s as [|d s IH]; [reflexivity|]. cbn [PyStr.lstrip_by].
  destruct (p d); [|trivial]. cbn [PyStr.contains].
  intros H. apply orb_false_iff in H as [_ H]. now apply IH.
Qed.

Lemma contains_rstrip_by (p : ascii -> bool) (c : ascii) (s : string) :
  PyStr.contains c s = false -> PyStr.contains c (PyStr.rstrip_by p s) = false.
Proof.
  induction s as [|d s IH]; [reflexivity|]. cbn [PyStr.rstrip_by PyStr.contains].
  intros H. apply orb_false_iff in H as [Hd H]. specialize (IH H).
  destruct (PyStr.rstrip_by p s) as [|e r].
  - destruct (p d); [reflexivity|]. cbn. now rewrite Hd.
  - cbn [PyStr.contains] in *. now rewrite Hd.
Qed.

Lemma contains_strip (c : ascii) (s : string) :
  PyStr.contains c s = false -> PyStr.contains c (PyStr.strip s) = false.
Proof. intros H. now apply contains_rstrip_by, contains_lstrip_by. Qed.

Lemma rstrip_by_idemp (p : ascii -> bool) (s : string) :
  PyStr.rstrip_by p (PyStr.rstrip_by p s) = PyStr.rstrip_by p s.
Proof.
  induction s as [|c s IH]; [reflexivity|]. cbn [PyStr.rstrip_by].
  destruct (PyStr.rstrip_by p s) as [|d r] eqn:E.
  - destruct (p c) eqn:Ec; [reflexivity|]. cbn. now rewrite Ec.
  - cbn [PyStr.rstrip_by] in *. now rewrite IH.
Qed.

(** What [lstrip_by p] returns does not begin with a character of [p],
    and [rstrip_by p] keeps it so. *)
Lemma lstrip_by_head (p : ascii -> bool) (s : string) :
  match PyStr.lstrip_by p s with
  | EmptyString => True
  | String c _ => p c = false
  end.
Proof.
  induction s as [|c s IH]; [exact I|]. cbn [PyStr.lstrip_by].
  destruct (p c) eqn:E; [exact IH|exact E].
Qed.

Lemma rstrip_by_head (p : ascii -> bool) (s : string) :
  match s with
  | EmptyString => True
  | String c _ => p c = false
  end ->
  PyStr.lstrip_by p (PyStr.rstrip_by p s) = PyStr.rstrip_by p s.
Proof.
  destruct s as [|c s]; [reflexivity|]. cbn [PyStr.rstrip_by]. intros H.
  destruct (PyStr.rstrip_by p s); rewrite ?H; cbn [PyStr.lstrip_by];
    now rewrite H.
Qed.

Lemma strip_idemp (s : string) : PyStr.strip (PyStr.strip s) = PyStr.strip s.
Proof.
  unfold PyStr.strip, PyStr.lstrip, PyStr.rstrip.
  rewrite (rstrip_by_head _ _ (lstrip_by_head _ s)). apply rstrip_by_idemp.
Qed.

(** X4. What [config_override_type] returns is in normal form: the
    three texts have no white space left at either end, the section
    holds no slash and the key no equals sign.  So writing the triple
    back as [section/key=value] and converting that gives the same
    triple. *)
Theorem config_override_type_normal (input section key value : string) :
  config_override_type input = Converted (section, key, value) ->
  PyStr.strip section = section /\
  PyStr.strip key = key /\
  PyStr.strip value = value /\
  PyStr.contains "/"%char section = false /\
  PyStr.contains "="%char key = false /\
  config_override_type (section +:+ "/" +:+ key +:+ "=" +:+ value)
  = Converted (section, key, value).
Proof.
  intros E.
  destruct (config_override_type_Converted _ _ _ _ E)
    as (s & k & v & _ & Hs & Hk & -> & -> & ->).
  assert (Hs' := contains_strip _ _ Hs). assert (Hk' := contains_strip _ _ Hk).
  rewrite !strip_idemp. repeat split; try assumption.
  unfold config_override_type, PyStr.split1.
  change ("/" +:+ ?x) with (String "/"%char x).
  rewrite (partition_app _ _ _ Hs').
  change ("=" +:+ ?x) with (String "="%char x).
  rewrite (partition_app _ _ _ Hk'). now rewrite !strip_idemp.
Qed.

Lemma config_override_type_normal_witness :
  config_override_type " core / cache_dir = /tmp/a=b "
  = Converted ("core", "cache_dir", "/tmp/a=b") /\
  config_override_type "core/cache_dir=/tmp/a=b"
  = Converted ("core", "cache_dir", "/tmp/a=b").
Proof.
  assert (E : config_override_type " core / cache_dir = /tmp/a=b "
              = Converted ("core", "cache_dir", "/tmp/a=b")) by reflexivity.
  split; [exact E|].
  exact (proj2 (proj2 (proj2 (proj2 (proj2
           (config_override_type_normal _ _ _ _ E)))))).
Defined.

(** ** Building the tree: [add_child] *)

Lemma assoc_setitem (name : string) (command : Command) (d : list (string * Command)) :
  ArgumentParser.assoc name (setitem name command d) = Some command.
Proof.
  induction d as [|[k c] d IH]; cbn [setitem ArgumentParser.assoc].
  - now rewrite String.eqb_refl.
  - destruct (String.eqb k name) eqn:E; cbn [ArgumentParser.assoc]; now rewrite E.
Qed.

Lemma assoc_setitem_ne (name other : string) (command : Command)
      (d : list (string * Command)) :
  other <> name ->
  ArgumentParser.assoc other (setitem name command d) = ArgumentParser.assoc other d.
Proof.
  intros Hne. induction d as [|[k c] d IH]; cbn [setitem ArgumentParser.assoc].
  - destruct (String.eqb_spec name other); [congruence|reflexivity].
  - destruct (String.eqb_spec k name) as [->|Hk]; cbn [ArgumentParser.assoc].
    + destruct (String.eqb_spec name other); [congruence|reflexivity].
    + now rewrite IH.
Qed.

Lemma assoc_None {A : Type} (k : string) (l : list (string * A)) :
  ArgumentParser.assoc k l = None <-> k ∉ l.*1.
Proof.
  induction l as [|[k' a] l IH]; cbn [ArgumentParser.assoc fmap list_fmap fst].
  - split; [intros _; apply not_elem_of_nil|reflexivity].
  - rewrite not_elem_of_cons. destruct (String.eqb_spec k' k) as [->|Hk].
    + split; [discriminate|]. intros [H _]. now contradict H.
    + rewrite IH. split; [intros H; split; [congruence|exact H]|now intros [_ H]].
Qed.

Lemma setitem_new (name : string) (command : Command) (d : list (string * Command)) :
  ArgumentParser.assoc name d = None -> setitem name command d = d ++ [(name, command)].
Proof.
  induction d as [|[k c] d IH]; cbn [setitem ArgumentParser.assoc]; [reflexivity|].
  destruct (String.eqb k name); [discriminate|]. intros H. now rewrite IH.
Qed.

Lemma setitem_keys (name : string) (command : Command) (d : list (string * Command)) :
  (setitem name command d).*1 =
  match ArgumentParser.assoc name d with
  | Some _ => d.*1
  | None => d.*1 ++ [name]
  end.
Proof.
  induction d as [|[k c] d IH]; cbn [setitem ArgumentParser.assoc]; [reflexivity|].
  destruct (String.eqb k name); [reflexivity|].
  rewrite fmap_cons, IH. now destruct (ArgumentParser.assoc name d).
Qed.

(** X5. [add_child] is an insertion into an ordered dictionary.  After
    [add_child name command], looking [name] up among the children
    gives [command] (so registering a name again replaces the command);
    every other name resolves as before; a name that was already there
    keeps its place in the order of the children, a new one goes to the
    end; and names that were unique stay unique. *)
Theorem add_child_lookup (self command : Command) (name : string) :
  let children := _children (add_child name command self) in
  ArgumentParser.assoc name children = Some command /\
  (forall other : string,
     other <> name ->
     ArgumentParser.assoc other children = ArgumentParser.assoc other (_children self)) /\
  children.*1 =
  match ArgumentParser.assoc name (_children self) with
  | Some _ => (_children self).*1
  | None => (_children self).*1 ++ [name]
  end /\
  (NoDup (_children self).*1 -> NoDup children.*1).
Proof.
  cbn [add_child _children]. split; [apply assoc_setitem|].
  split; [intros other H; now apply assoc_setitem_ne|].
  split; [apply setitem_keys|]. intros Hd. rewrite setitem_keys.
  destruct (ArgumentParser.assoc name (_children self)) eqn:E; [exact Hd|].
  apply NoDup_app. split; [exact Hd|]. split; [|apply NoDup_singleton].
  intros k Hk Hin. apply list_elem_of_singleton in Hin as ->.
  now apply assoc_None in E.
Qed.

Section building.

Variable HelpFormatter_format_help : argparse.HelpFormatter -> string.
Variable progname : string.

Local Abbreviation parse_args :=
  (ArgumentParser.parse_args HelpFormatter_format_help progname).
Local Abbreviation _parse := (_parse HelpFormatter_format_help progname).
Local Abbreviation _subhelp := (_subhelp HelpFormatter_format_help).
Local Abbreviation subhelp := (subhelp HelpFormatter_format_help).

(** X6. A command registered with [add_child] is the one [_parse]
    hands over to.  When the parser of a node leaves a remainder whose
    first token is [name], [_parse] on the node extended by
    [add_child name command] answers what [_parse] of [command]
    answers on the rest of the remainder, with the namespace parsed so
    far, the overrides of the node merged over those passed in, and
    the program name extended by [name]; whatever [name] stood for
    before. *)
Theorem add_child_dispatch (self command : Command) (name : string)
        (args rest : list string) (ns result : Namespace)
        (ov : gmap string value) (prog : string) :
  parse_args (_build self) args ns = Return result ->
  result !! "_args" ≫= strings = Some (name :: rest) ->
  _parse (add_child name command self) args ns ov prog
  = _parse command rest (<["_args" := Val (VList (VStr <$> rest))]> result)
           (_overrides self ∪ ov) (PyStr.join " " [prog; name]).
Proof.
  intros Hp Hr. rewrite (_parse_unfold _ _ (add_child name command self)).
  change (_build (add_child name command self)) with (_build self). rewrite Hp.
  destruct (result !! "_args") as [a|]; [|discriminate]. cbn in Hr.
  rewrite (strings_cons _ _ _ Hr), Hr. cbn [negb].
  cbn [add_child _children _overrides]. now rewrite assoc_setitem.
Qed.

(** X7. A child registered under a new name comes last in the help
    listing: the texts [format_help] collects for the extended node
    are those it collected before, followed by what [_subhelp] gives
    for the new child under its name. *)
Theorem add_child_listing (self command : Command) (name : string) :
  ArgumentParser.assoc name (_children self) = None ->
  subhelp (add_child name command self) = subhelp self ++ _subhelp command name.
Proof.
  intros H. rewrite !subhelp_eq. cbn [add_child _children].
  rewrite (setitem_new _ _ _ H), flat_map_app. cbn [flat_map fst snd].
  now rewrite app_nil_r.
Qed.

End building.

Lemma add_child_dispatch_witness :
  let ns : Namespace := {["_args" := Val (VList [VStr "sub"; VStr "-x"])]} in
  ArgumentParser.parse_args Formatter.format_help "mopidy"
    (_build (Command_init None)) ["sub"; "-x"] ∅ = Return ns /\
  ns !! "_args" ≫= strings = Some ["sub"; "-x"] /\
  _parse Formatter.format_help "mopidy" Examples.top ["sub"; "-x"] ∅ ∅ "mopidy"
  = _parse Formatter.format_help "mopidy" Examples.sub ["-x"]
           (<["_args" := Val (VList [VStr "-x"])]> ns) ∅ "mopidy sub".
Proof.
  intros ns.
  assert (Hp : ArgumentParser.parse_args Formatter.format_help "mopidy"
                 (_build (Command_init None)) ["sub"; "-x"] ∅ = Return ns)
    by (vm_compute; reflexivity).
  assert (Hr : ns !! "_args" ≫= strings = Some ["sub"; "-x"])
    by (vm_compute; reflexivity).
  split; [exact Hp|split; [exact Hr|]].
  exact (add_child_dispatch Formatter.format_help "mopidy" (Command_init None)
           Examples.sub "sub" ["sub"; "-x"] ["-x"] ∅ ns ∅ "mopidy" Hp Hr).
Defined.

Lemma add_child_listing_witness :
  ArgumentParser.assoc "b" (_children (add_child "a" Examples.a (Command_init None)))
  = None /\
  subhelp Formatter.format_help Examples.nested
  = subhelp Formatter.format_help (add_child "a" Examples.a (Command_init None)) ++
    _subhelp Formatter.format_help Examples.b "b".
Proof.
  split; [reflexivity|].
  apply (add_child_listing Formatter.format_help
           (add_child "a" Examples.a (Command_init None)) Examples.b "b").
  reflexivity.
Defined.

(** ** The remainder [parse_args] leaves under [_args] *)

Section remainder.

Variable HelpFormatter_format_help : argparse.HelpFormatter -> string.
Variable progname : string.

Local Abbreviation parse_args :=
  (ArgumentParser.parse_args HelpFormatter_format_help progname).
Local Abbreviation consume :=
  (ArgumentParser.consume HelpFormatter_format_help progname).
Local Abbreviation convert_defaults := ArgumentParser.convert_defaults.
Local Abbreviation parsed := (parsed HelpFormatter_format_help progname).
Local Abbreviation remainder := (remainder HelpFormatter_format_help progname).
Local Abbreviation next_call := (next_call HelpFormatter_format_help progname).
Local Abbreviation descends := (descends HelpFormatter_format_help progname).

Lemma bind_Return {A B : Type} (m : result A) (k : A -> result B) (b : B) :
  m ≫= k = Return b -> exists a, m = Return a /\ k a = Return b.
Proof. destruct m as [a|e]; [eauto|discriminate]. Qed.

Lemma arg_strings_pattern_fst (parser : list argparse.Action) (args : list string) :
  forall ps, ArgumentParser.arg_strings_pattern parser args = Return ps -> ps.*1 = args.
Proof.
  induction args as [|arg args IH]; intros ps; cbn [ArgumentParser.arg_strings_pattern].
  - now intros [= <-].
  - destruct (String.eqb arg "--").
    + intros [= <-]. cbn. f_equal. clear.
      induction args as [|a l IHl]; [reflexivity|]. cbn. f_equal. exact IHl.
    + intros H. apply bind_Return in H as (t & _ & H).
      apply bind_Return in H as (ps' & Hps & H). injection H as <-.
      cbn. now rewrite (IH ps' Hps).
Qed.

Lemma consume_suffix (parser : list argparse.Action) (n : nat) :
  forall (strings : list (string * ArgumentParser.pattern))
         (st st' : ArgumentParser.state),
    (length strings <= n)%nat ->
    consume parser strings st = Return st' ->
    exists rest,
      rest `suffix_of` strings /\
      ArgumentParser.namespace st' !! "_args"
      = Some (Val (VList (map (fun p : string * ArgumentParser.pattern => VStr p.1) rest))).
Proof.
  induction n as [|n IH]; intros strings st st' Hn H.
  - destruct strings; [|cbn in Hn; lia]. injection H as <-. exists [].
    split; [done|]. cbn. now rewrite lookup_insert_eq.
  - assert (Hhere : forall st0,
              ArgumentParser.namespace
                {| ArgumentParser.namespace :=
                     <["_args" := Val (VList (map (fun p : string * ArgumentParser.pattern =>
                                                     VStr p.1) strings))]>
                       (ArgumentParser.namespace st0);
                   ArgumentParser.seen_actions := ArgumentParser.seen_actions st0;
                   ArgumentParser.extras := ArgumentParser.extras st0 |} !! "_args"
              = Some (Val (VList (map (fun p : string * ArgumentParser.pattern =>
                                         VStr p.1) strings)))).
    { intros st0. cbn. now rewrite lookup_insert_eq. }
    destruct strings as [|[arg_string p] rest].
    { injection H as <-. exists []. split; [done|apply Hhere]. }
    cbn in Hn.
    assert (Hrest : forall st1, consume parser rest st1 = Return st' ->
              exists rest0, rest0 `suffix_of` (arg_string, p) :: rest /\
                ArgumentParser.namespace st' !! "_args"
                = Some (Val (VList (map (fun p : string * ArgumentParser.pattern =>
                                           VStr p.1) rest0)))).
    { intros st1 H1. destruct (IH rest st1 st' ltac:(lia) H1) as (rest0 & Hs & E).
      exists rest0. split; [now apply suffix_cons_r|exact E]. }
    destruct p as [| |t];
      [injection H as <-; eexists; split; [reflexivity|apply Hhere]..|].
    destruct t as [[action option_string] explicit_arg].
    cbn [ArgumentParser.consume] in H. destruct action as [ia|]; [|now apply Hrest in H].
    apply bind_Return in H as (r & _ & H). destruct (r.2) as [last|].
    + destruct (argparse.nargs last.2).
      * destruct rest as [|[arg [| |t]] rest'];
          try discriminate H.
        apply bind_Return in H as (st1 & _ & H).
        destruct (IH rest' st1 st' ltac:(cbn in Hn; lia) H) as (rest0 & Hs & E).
        exists rest0. split; [now apply suffix_cons_r, suffix_cons_r|exact E].
      * apply bind_Return in H as (st1 & _ & H). now apply Hrest in H.
    + apply bind_Return in H as (st1 & _ & H). now apply Hrest in H.
Qed.

Lemma convert_defaults_args (actions : list (nat * argparse.Action)) (xs : list value) :
  forall st st' : ArgumentParser.state,
    ArgumentParser.namespace st !! "_args" = Some (Val (VList xs)) ->
    convert_defaults actions st = Return st' ->
    ArgumentParser.namespace st' !! "_args" = Some (Val (VList xs)).
Proof.
  induction actions as [|[i action] actions IH]; intros st st' Hst;
    cbn [ArgumentParser.convert_defaults].
  - now intros [= <-].
  - destruct (ArgumentParser.seen i st); [now apply IH|].
    destruct (argparse.default action) as [[]|]; try now apply IH.
    destruct (ArgumentParser.namespace st !! argparse.dest action) as [a|] eqn:Ea;
      [|now apply IH].
    destruct (ArgumentParser.is_default a s) eqn:Ed; [|now apply IH].
    intros H. apply bind_Return in H as (v & _ & H). revert H. apply IH. cbn.
    destruct (decide (argparse.dest action = "_args")) as [E|E].
    + rewrite E, Hst in Ea. injection Ea as <-. discriminate Ed.
    + now rewrite lookup_insert_ne.
Qed.

Lemma parse_args_remainder (parser : list argparse.Action) (args : list string)
      (ns result : Namespace) :
  parse_args parser args ns = Return result ->
  exists rest,
    rest `suffix_of` args /\
    result !! "_args" = Some (Val (VList (VStr <$> rest))).
Proof.
  unfold ArgumentParser.parse_args. intros H.
  apply bind_Return in H as (ps & Hps & H).
  apply bind_Return in H as (st & Hst & H).
  apply bind_Return in H as (st' & Hst' & H).
  destruct (ArgumentParser.extras st'); [|discriminate]. injection H as <-.
  destruct (consume_suffix _ _ _ _ _ (le_n _) Hst) as (rest & [k Hk] & E).
  exists rest.*1. split.
  - exists k.*1. now rewrite <- (arg_strings_pattern_fst _ _ _ Hps), Hk, fmap_app.
  - rewrite (convert_defaults_args _ _ _ _ E Hst'). do 3 f_equal.
    clear. induction rest as [|p rest IH]; [reflexivity|]. cbn. now rewrite IH.
Qed.

Lemma strings_VStr (l : list string) : strings (Val (VList (VStr <$> l))) = Some l.
Proof. cbn [strings]. now apply mapM_fmap_Some. Qed.

Lemma remainder_suffix (f : frame) (result : Namespace) :
  parsed f = Return result ->
  exists rest : list string, remainder f = Some rest /\ rest `suffix_of` args f.
Proof.
  intros H. pose proof H as H'. rewrite parsed_eq in H'.
  apply parse_args_remainder in H' as (rest & Hs & E).
  exists rest. split; [|exact Hs].
  rewrite remainder_eq, H, E. cbn. apply strings_VStr.
Qed.

(** What [consume] leaves for [_args] starts, if with anything, with
    a letter that is no flag. *)
Local Abbreviation starts_positional :=
  (fun strings : list (string * ArgumentParser.pattern) =>
     match strings with
     | [] => True
     | (_, p) :: _ => positional p = true
     end).

Lemma consume_groups (parser : list argparse.Action) (n : nat) :
  forall (strings : list (string * ArgumentParser.pattern))
         (st st' : ArgumentParser.state),
    (length strings <= n)%nat ->
    consume parser strings st = Return st' ->
    exists (groups : list (list (string * ArgumentParser.pattern)))
           (rest : list (string * ArgumentParser.pattern)),
      strings = concat groups ++ rest /\
      Forall (pattern_group parser) groups /\
      starts_positional rest /\
      ArgumentParser.namespace st' !! "_args"
      = Some (Val (VList (map (fun p : string * ArgumentParser.pattern => VStr p.1) rest))).
Proof.
  induction n as [|n IH]; intros strings st st' Hn H.
  - destruct strings; [|cbn in Hn; lia]. injection H as <-. exists [], [].
    split; [reflexivity|]. split; [constructor|]. split; [exact I|].
    cbn. now rewrite lookup_insert_eq.
  - assert (Hhere : strings = [] \/ (exists s p rest, strings = (s, p) :: rest /\
                                       positional p = true) ->
              consume parser strings st = Return st' ->
              exists groups rest,
                strings = concat groups ++ rest /\
                Forall (pattern_group parser) groups /\
                starts_positional rest /\
                ArgumentParser.namespace st' !! "_args"
                = Some (Val (VList (map (fun p : string * ArgumentParser.pattern =>
                                           VStr p.1) rest)))).
    { intros Hs H'. exists [], strings. split; [reflexivity|]. split; [constructor|].
      destruct Hs as [-> | (s & p & rest & -> & Hp)].
      - injection H' as <-. split; [exact I|]. cbn. now rewrite lookup_insert_eq.
      - split; [exact Hp|]. destruct p; try discriminate Hp;
          injection H' as <-; cbn; now rewrite lookup_insert_eq. }
    destruct strings as [|[arg_string p] rest]; [apply Hhere; [now left|exact H]|].
    destruct p as [| |t];
      [apply Hhere; [right; now eauto|exact H]..|].
    clear Hhere. cbn in Hn.
    assert (Hone : forall st1,
              wants_argument parser t = false ->
              consume parser rest st1 = Return st' ->
              exists groups rest0,
                (arg_string, ArgumentParser.pattern_O t) :: rest
                = concat groups ++ rest0 /\
                Forall (pattern_group parser) groups /\
                starts_positional rest0 /\
                ArgumentParser.namespace st' !! "_args"
                = Some (Val (VList (map (fun p : string * ArgumentParser.pattern =>
                                           VStr p.1) rest0)))).
    { intros st1 Hw H1.
      destruct (IH rest st1 st' ltac:(lia) H1) as (groups & rest0 & -> & Hg & Hp & E).
      exists ([(arg_string, ArgumentParser.pattern_O t)] :: groups), rest0.
      split; [reflexivity|]. split; [constructor; [exact Hw|exact Hg]|]. auto. }
    destruct t as [[action option_string] explicit_arg].
    cbn [ArgumentParser.consume] in H. destruct action as [ia|].
    { apply bind_Return in H as ([tuples last] & Hr & H).
      cbn [fst snd] in H. destruct last as [last|].
      - destruct (argparse.nargs last.2) eqn:Hnargs.
        + destruct rest as [|[arg [| |t]] rest']; try discriminate H.
          apply bind_Return in H as (st1 & _ & H).
          destruct (IH rest' st1 st' ltac:(cbn in Hn; lia) H)
            as (groups & rest0 & -> & Hg & Hp & E).
          exists ([(arg_string,
                    ArgumentParser.pattern_O (Some ia, option_string, explicit_arg));
                   (arg, ArgumentParser.pattern_A)] :: groups), rest0.
          split; [reflexivity|]. split; [|auto].
          constructor; [|exact Hg]. unfold pattern_group, wants_argument.
          destruct explicit_arg as [e|];
            [now rewrite Hr, Hnargs|injection Hr as _ ->; now rewrite Hnargs].
        + apply bind_Return in H as (st1 & _ & H). apply (Hone st1); [|exact H].
          unfold wants_argument.
          destruct explicit_arg as [e|];
            [now rewrite Hr, Hnargs|injection Hr as _ ->; now rewrite Hnargs].
      - apply bind_Return in H as (st1 & _ & H). apply (Hone st1); [|exact H].
        unfold wants_argument.
        destruct explicit_arg as [e|]; [now rewrite Hr|discriminate Hr]. }
    apply (Hone _ eq_refl H).
Qed.

Lemma pattern_token (parser : list argparse.Action) (arg_strings : list string) :
  forall (front tail : list (string * ArgumentParser.pattern))
         (tok : string) (p : ArgumentParser.pattern),
    ArgumentParser.arg_strings_pattern parser arg_strings
    = Return (front ++ (tok, p) :: tail) ->
    Forall (fun sp : string * ArgumentParser.pattern =>
              sp.2 <> ArgumentParser.pattern_dashes) front ->
    match p with
    | ArgumentParser.pattern_dashes => tok = "--"
    | ArgumentParser.pattern_A =>
        tok <> "--" /\ ArgumentParser._parse_optional parser tok = Return None
    | ArgumentParser.pattern_O t => is_flag parser tok t
    end.
Proof.
  induction arg_strings as [|arg arg_strings IH]; intros front tail tok p;
    cbn [ArgumentParser.arg_strings_pattern].
  - intros [= H]. now destruct front.
  - destruct (String.eqb_spec arg "--") as [->|Hne].
    + intros [= H] Hfront. destruct front as [|[s q] front].
      * now injection H as <- <- _.
      * injection H as _ <- _. apply Forall_inv in Hfront. now destruct Hfront.
    + intros H Hfront. apply bind_Return in H as (t & Ht & H).
      apply bind_Return in H as (ps & Hps & H). injection H as H.
      destruct front as [|[s q] front].
      * injection H as -> <- _. now destruct t.
      * injection H as _ _ ->. apply (IH _ _ _ _ Hps (Forall_inv_tail Hfront)).
Qed.

Lemma pattern_groups_no_dashes (parser : list argparse.Action)
      (groups : list (list (string * ArgumentParser.pattern))) :
  Forall (pattern_group parser) groups ->
  Forall (fun sp : string * ArgumentParser.pattern =>
            sp.2 <> ArgumentParser.pattern_dashes) (concat groups).
Proof.
  induction 1 as [|group groups Hg _ IH]; [constructor|].
  cbn [concat]. apply Forall_app. split; [|exact IH].
  destruct group as [|[s [| |t]] [|[s' [| |t']] [|? ?]]]; try (exfalso; exact Hg);
    repeat constructor; discriminate.
Qed.

Lemma groups_tokens (parser : list argparse.Action) (args : list string)
      (rest : list (string * ArgumentParser.pattern)) :
  forall (groups : list (list (string * ArgumentParser.pattern)))
         (front : list (string * ArgumentParser.pattern)),
    ArgumentParser.arg_strings_pattern parser args
    = Return (front ++ concat groups ++ rest) ->
    Forall (fun sp : string * ArgumentParser.pattern =>
              sp.2 <> ArgumentParser.pattern_dashes) front ->
    Forall (pattern_group parser) groups ->
    starts_positional rest ->
    Forall (flag_group parser) ((fun g : list (string * ArgumentParser.pattern) => g.*1) <$> groups) /\
    starts_no_flag parser rest.*1.
Proof.
  induction groups as [|group groups IH]; intros front Hps Hfront Hg Hrest.
  - split; [constructor|]. destruct rest as [|[tok p] rest]; [exact I|].
    cbn in Hps. pose proof (pattern_token _ _ _ _ _ _ Hps Hfront) as Ht.
    cbn. destruct p; [right; apply Ht|now left|discriminate Hrest].
  - apply Forall_cons in Hg as [Hgroup Hg].
    assert (Hnext : Forall (fun sp : string * ArgumentParser.pattern =>
                              sp.2 <> ArgumentParser.pattern_dashes) (front ++ group)).
    { apply Forall_app. split; [exact Hfront|].
      apply (Forall_app _ group (concat groups)).
      apply (pattern_groups_no_dashes parser (group :: groups)).
      now constructor. }
    cbn [concat] in Hps. rewrite <- (app_assoc group), app_assoc in Hps.
    destruct (IH _ Hps Hnext Hg Hrest) as [IHg IHr]. split; [|exact IHr].
    rewrite fmap_cons. constructor; [|exact IHg]. clear IH IHg IHr Hnext.
    rewrite <- app_assoc in Hps.
    destruct group as [|[s [| |t]] [|[s' [| |t']] [|? ?]]]; try (exfalso; exact Hgroup).
    + exists t. split; [|exact Hgroup].
      exact (pattern_token _ _ _ _ _ _ Hps Hfront).
    + exists t. split; [exact (pattern_token _ _ _ _ _ _ Hps Hfront)|].
      split; [exact Hgroup|].
      change (front ++ [(s, ArgumentParser.pattern_O t); (s', ArgumentParser.pattern_A)]
                    ++ concat groups ++ rest)
        with (front ++ [(s, ArgumentParser.pattern_O t)]
                    ++ (s', ArgumentParser.pattern_A) :: concat groups ++ rest) in Hps.
      rewrite app_assoc in Hps.
      apply (pattern_token _ _ _ _ _ _ Hps).
      apply Forall_app. split; [exact Hfront|]. repeat constructor. discriminate.
Qed.

Lemma parse_args_division (parser : list argparse.Action) (args : list string)
      (ns result : Namespace) :
  parse_args parser args ns = Return result ->
  exists (groups : list (list string)) (rest : list string),
    args = concat groups ++ rest /\
    Forall (flag_group parser) groups /\
    starts_no_flag parser rest /\
    result !! "_args" = Some (Val (VList (VStr <$> rest))).
Proof.
  unfold ArgumentParser.parse_args. intros H.
  apply bind_Return in H as (ps & Hps & H).
  apply bind_Return in H as (st & Hst & H).
  apply bind_Return in H as (st' & Hst' & H).
  destruct (ArgumentParser.extras st'); [|discriminate]. injection H as <-.
  destruct (consume_groups _ _ _ _ _ (le_n _) Hst) as (groups & rest & E & Hg & Hr & Ha).
  pose proof (arg_strings_pattern_fst _ _ _ Hps) as Hargs.
  rewrite E in Hps.
  destruct (groups_tokens parser args rest groups [] Hps ltac:(constructor) Hg Hr)
    as [Hgroups Hrest].
  exists ((fun g : list (string * ArgumentParser.pattern) => g.*1) <$> groups), rest.*1. split; [|split; [exact Hgroups|split; [exact Hrest|]]].
  - rewrite <- Hargs, E, fmap_app. f_equal. clear.
    induction groups as [|g gs IH]; [reflexivity|]. cbn. now rewrite fmap_app, IH.
  - rewrite (convert_defaults_args _ _ _ _ Ha Hst'). do 3 f_equal.
    clear. induction rest as [|p rest IH]; [reflexivity|]. cbn. now rewrite IH.
Qed.

(** The division is the only one: a command line starts with a flag
    group or with a string that is no flag, never both, and the flag
    decides the length of its group. *)
Lemma division_unique (parser : list argparse.Action) :
  forall (groups groups' : list (list string)) (rest rest' : list string),
    concat groups ++ rest = concat groups' ++ rest' ->
    Forall (flag_group parser) groups -> Forall (flag_group parser) groups' ->
    starts_no_flag parser rest -> starts_no_flag parser rest' ->
    groups = groups' /\ rest = rest'.
Proof.
  assert (Hclash : forall flag t, is_flag parser flag t -> no_flag parser flag -> False).
  { intros flag t [Hne Ht] [->|Hn]; [now apply Hne|]. rewrite Ht in Hn. discriminate. }
  assert (Hhead : forall group gs rest',
             flag_group parser group ->
             exists flag t tail, group ++ concat gs ++ rest' = flag :: tail /\
                                 is_flag parser flag t).
  { intros [|flag [|value [|? ?]]] gs rest' Hg; try (exfalso; exact Hg).
    - destruct Hg as (t & Ht & _). now exists flag, t, (concat gs ++ rest').
    - destruct Hg as (t & Ht & _). now exists flag, t, (value :: concat gs ++ rest'). }
  induction groups as [|group groups IH]; intros groups' rest rest' E Hg Hg' Hr Hr'.
  - destruct groups' as [|group' groups']; [now split|]. exfalso.
    apply Forall_cons in Hg' as [Hgroup' _]. cbn in E. rewrite <- app_assoc in E.
    destruct (Hhead group' groups' rest' Hgroup') as (flag & t & tail & Eh & Ht).
    rewrite Eh in E. subst rest. exact (Hclash flag t Ht Hr).
  - apply Forall_cons in Hg as [Hgroup Hg].
    destruct groups' as [|group' groups'].
    + exfalso. cbn in E. rewrite <- app_assoc in E.
      destruct (Hhead group groups rest Hgroup) as (flag & t & tail & Eh & Ht).
      rewrite Eh in E. subst rest'. exact (Hclash flag t Ht Hr').
    + apply Forall_cons in Hg' as [Hgroup' Hg'].
      cbn [concat] in E. rewrite <- !app_assoc in E.
      assert (Hsame : group = group' /\
                      concat groups ++ rest = concat groups' ++ rest').
      { destruct group as [|flag [|value [|? ?]]]; try (exfalso; exact Hgroup);
          destruct group' as [|flag' [|value' [|? ?]]]; try (exfalso; exact Hgroup').
        - injection E as -> E. now split.
        - injection E as -> E. exfalso.
          destruct Hgroup as (t & [_ Ht] & Hw), Hgroup' as (t' & [_ Ht'] & Hw' & _).
          rewrite Ht in Ht'. injection Ht' as <-. congruence.
        - injection E as -> E. exfalso.
          destruct Hgroup as (t & [_ Ht] & Hw & _), Hgroup' as (t' & [_ Ht'] & Hw').
          rewrite Ht in Ht'. injection Ht' as <-. congruence.
        - injection E as -> -> E. now split. }
      destruct Hsame as [<- E'].
      destruct (IH groups' rest rest' E' Hg Hg' Hr Hr') as [<- <-]. now split.
Qed.


Lemma next_call_shorter (f g : frame) :
  next_call f = Some g -> (length (args g) < length (args f))%nat.
Proof.
  rewrite next_call_eq. destruct (parsed f) as [result|] eqn:Hp; [|discriminate].
  destruct (remainder_suffix f result Hp) as (rest & -> & [k Hk]).
  destruct rest as [|child rest]; [discriminate|].
  destruct (ArgumentParser.assoc child (_children (self f))); [|discriminate].
  intros [= <-]. cbn. rewrite Hk, length_app. cbn. lia.
Qed.

(** X9. Every level of the descent uses up at least the token that
    names the child: the arguments of a call reached through [path]
    are a suffix of the arguments of the call it started from, shorter
    by at least the length of [path].  So [_parse] goes no deeper than
    there are arguments. *)
Theorem descent_consumes (f h : frame) (path : list Command) :
  descends f path h ->
  (length path + length (args h) <= length (args f))%nat /\
  args h `suffix_of` args f.
Proof.
  induction 1 as [f|f g path h Hn _ [IH1 IH2]]; [split; [cbn; lia|done]|].
  pose proof (next_call_shorter f g Hn). split; [cbn; lia|].
  etrans; [exact IH2|]. revert Hn.
  rewrite next_call_eq. destruct (parsed f) as [result|] eqn:Hp; [|discriminate].
  destruct (remainder_suffix f result Hp) as (rest & -> & [k Hk]).
  destruct rest as [|child rest]; [discriminate|].
  destruct (ArgumentParser.assoc child (_children (self f))); [|discriminate].
  intros [= <-]. cbn. exists (k ++ [child]). now rewrite Hk, <- app_assoc.
Qed.

End remainder.


Lemma descent_consumes_witness :
  let f := Examples.call_of Examples.top ["sub"; "x"] in
  descends Formatter.format_help "mopidy" f [Examples.top] (Examples.next f) /\
  (length [Examples.top] + length (args (Examples.next f)) <= length (args f))%nat /\
  args (Examples.next f) `suffix_of` args f.
Proof.
  intros f.
  assert (Hd : descends Formatter.format_help "mopidy" f [Examples.top]
                        (Examples.next f)).
  { apply (descends_next f). eexists. vm_compute. reflexivity. }
  split; [exact Hd|].
  exact (descent_consumes Formatter.format_help "mopidy" f (Examples.next f)
           [Examples.top] Hd).
Defined.

(** ** Dispatch: parser errors, other exceptions, the result *)

Section dispatch_more.

Variable HelpFormatter_format_help : argparse.HelpFormatter -> string.
Variable progname : string.

Local Abbreviation parse_args :=
  (ArgumentParser.parse_args HelpFormatter_format_help progname).
Local Abbreviation _parse := (_parse HelpFormatter_format_help progname).
Local Abbreviation _usage := (_usage HelpFormatter_format_help).
Local Abbreviation frame_parse := (_parse_frame HelpFormatter_format_help progname).
Local Abbreviation parsed := (parsed HelpFormatter_format_help progname).
Local Abbreviation remainder := (remainder HelpFormatter_format_help progname).
Local Abbreviation next_call := (next_call HelpFormatter_format_help progname).
Local Abbreviation descends := (descends HelpFormatter_format_help progname).
Local Abbreviation first_call := (first_call progname).

Lemma exit_filter (A : Type) (status : Z) (message usage : string) :
  @exit A status (Some message) (Some usage) =
  Raise (SystemExit status stdout
           (PyStr.join (nl +:+ nl) (List.filter PyStr.nonempty [usage; message]) +:+ nl)).
Proof. unfold exit. now destruct usage, message. Qed.

Lemma frame_parse_error (f : frame) (message : string) :
  parsed f = Raise (_ParserError message) ->
  frame_parse f
  = exit 1 (Some message) (Some (_usage (_build (self f)) (prog f))).
Proof.
  intros H. rewrite parsed_eq in H. now rewrite frame_parse_eq, _parse_unfold, H.
Qed.

Lemma frame_parse_raise (f : frame) (e : exn) :
  parsed f = Raise e -> (forall message, e <> _ParserError message) ->
  frame_parse f = Raise e.
Proof.
  intros H He. rewrite parsed_eq in H. rewrite frame_parse_eq, _parse_unfold, H.
  destruct e; try reflexivity. now destruct (He message).
Qed.

Lemma nonempty_join (a b : string) : PyStr.nonempty (PyStr.join " " [a; b]) = true.
Proof. now destruct a. Qed.

Lemma next_call_prog (f g : frame) :
  next_call f = Some g -> PyStr.nonempty (prog g) = true.
Proof.
  rewrite next_call_eq. destruct (parsed f); [|discriminate].
  destruct (remainder f) as [[|child rest]|]; try discriminate.
  destruct (ArgumentParser.assoc child (_children (self f))); [|discriminate].
  intros [= <-]. apply nonempty_join.
Qed.

Lemma descends_prog (f h : frame) (path : list Command) :
  descends f path h ->
  or_progname progname (Some (prog f)) = prog f ->
  or_progname progname (Some (prog h)) = prog h.
Proof.
  induction 1 as [f|f g path h Hn _ IH]; [trivial|]. intros _. apply IH.
  cbn. now rewrite (next_call_prog f g Hn).
Qed.

(** X10. An error of the flag parser, at whatever depth of the
    descent it is raised (an unknown flag, a flag without its argument,
    a value its converter rejects), ends [parse] with exit status 1.
    What is printed on standard output is the usage line of the node
    whose parser failed, under the program name extended by the child
    names that led to it, then a blank line and the parser's message,
    an empty text being left out; that usage line is [format_usage] of
    the node without its final newline. *)
Theorem parser_error_exit (root : Command) (argv : list string)
        (name : option string) (path : list Command) (f : frame) (message : string) :
  descends (first_call root argv name) path f ->
  parsed f = Raise (_ParserError message) ->
  let usage := _usage (_build (self f)) (prog f) in
  parse HelpFormatter_format_help progname root argv name
  = Raise (SystemExit 1 stdout
             (PyStr.join (nl +:+ nl) (List.filter PyStr.nonempty [usage; message])
              +:+ nl)) /\
  format_usage HelpFormatter_format_help progname (self f) (Some (prog f))
  = usage +:+ nl.
Proof.
  intros Hd Hp usage. split.
  - rewrite parse_first_call, (frame_parse_descends _ _ _ _ _ Hd),
      (frame_parse_error _ _ Hp), exit_filter. reflexivity.
  - unfold format_usage. fold usage.
    rewrite (descends_prog _ _ _ Hd); [reflexivity|]. apply or_progname_idemp.
Qed.

(** X11. [parse] and [_parse] handle two exceptions of the flag
    parser, [_ParserError] and [_HelpError].  Any other exception it
    raises, at whatever depth, leaves [parse] as it is: nothing is
    printed by [Command.exit] and the status is not changed.  This is
    how [--version] ends the program with status 0 after argparse has
    written the version to standard error. *)
Theorem parser_exception_propagates (root : Command) (argv : list string)
        (name : option string) (path : list Command) (f : frame) (e : exn) :
  descends (first_call root argv name) path f ->
  parsed f = Raise e ->
  e <> _HelpError ->
  (forall message, e <> _ParserError message) ->
  parse HelpFormatter_format_help progname root argv name = Raise e.
Proof.
  intros Hd Hp Hh He.
  rewrite parse_first_call, (frame_parse_descends _ _ _ _ _ Hd),
    (frame_parse_raise _ _ Hp He).
  destruct e; try reflexivity. now destruct Hh.
Qed.

Lemma exit_Raise (A : Type) (status : Z) (message usage : option string)
      (r : A) :
  @exit A status message usage <> Return r.
Proof. discriminate. Qed.

Lemma _parse_Return (node : Command) :
  forall (args : list string) (ns : Namespace) (ov : gmap string value)
         (prog : string) (pre : list string) (result : Namespace),
    _parse node args ns ov prog = Return result ->
    result !! "_args" = None /\
    exists (names : list string) (terminal : Command),
      result !! "command" = Some (Ref terminal) /\
      (pre ++ names, terminal) ∈ preorder pre node.
Proof.
  induction node as [h children arguments o IH] using Command_tree_ind.
  intros args ns ov prog pre result. rewrite _parse_unfold.
  destruct (parse_args _ args ns) as [flags|e].
  2:{ destruct e; discriminate. }
  destruct (flags !! "_args") as [a|]; [|discriminate].
  destruct (negb (attr_truthy a)).
  - intros [= <-]. unfold finish. split.
    + rewrite lookup_insert_ne by discriminate. apply lookup_delete_eq.
    + exists [], (mkCommand h children arguments o).
      rewrite lookup_insert_eq, app_nil_r, preorder_unfold.
      split; [reflexivity|apply list_elem_of_here].
  - destruct (strings a) as [[|child rest]|]; try discriminate.
    cbn [_children].
    destruct (ArgumentParser.assoc child children) as [command|] eqn:Ec;
      [|discriminate].
    apply assoc_elem_of in Ec. intros H.
    rewrite Forall_forall in IH.
    destruct (IH _ Ec _ _ _ _ (pre ++ [child]) _ H)
      as (Ha & names & terminal & Hc & Hin).
    split; [exact Ha|]. exists (child :: names), terminal.
    split; [exact Hc|]. rewrite preorder_unfold. apply list_elem_of_further.
    apply list_elem_of_In, in_flat_map. exists (child, command).
    split; [now apply list_elem_of_In|]. apply list_elem_of_In.
    cbn [fst snd _children]. now rewrite <- app_assoc in Hin.
Qed.

(** X12. Whenever [parse] returns a namespace, the namespace has no
    [_args] attribute left, and its [command] attribute is a node of
    the tree [parse] was called on: the node itself, or the descendant
    reached through the child names [names]. *)
Theorem parse_result (root : Command) (argv : list string) (name : option string)
        (result : Namespace) :
  parse HelpFormatter_format_help progname root argv name = Return result ->
  result !! "_args" = None /\
  exists (names : list string) (terminal : Command),
    result !! "command" = Some (Ref terminal) /\
    (names, terminal) ∈ preorder [] root.
Proof.
  unfold parse. intros H. apply (_parse_Return root argv ∅ (_overrides root)
                                   (or_progname progname name) []).
  destruct (_parse _ _ _ _ _) as [r|e]; [exact H|]. destruct e; discriminate.
Qed.

End dispatch_more.

Lemma parse_result_witness :
  exists result,
    parse Formatter.format_help "mopidy" Examples.nested ["b"; "c"; "--zeta"] None
    = Return result /\
    result !! "_args" = None /\
    exists names terminal,
      result !! "command" = Some (Ref terminal) /\
      (names, terminal) ∈ preorder [] Examples.nested.
Proof.
  eexists. split; [vm_compute; reflexivity|].
  apply (parse_result Formatter.format_help "mopidy" Examples.nested
           ["b"; "c"; "--zeta"] None).
  vm_compute. reflexivity.
Defined.

Lemma parser_error_exit_witness :
  let f := Examples.next (Examples.call_of Examples.nested ["b"; "--zeta"]) in
  parsed Formatter.format_help "mopidy" f
  = Raise (_ParserError "unrecognized arguments: --zeta") /\
  parse Formatter.format_help "mopidy" Examples.nested ["b"; "--zeta"] None
  = Raise (SystemExit 1 stdout "usage: mopidy b

unrecognized arguments: --zeta
").
Proof.
  intros f.
  assert (Hp : parsed Formatter.format_help "mopidy" f
               = Raise (_ParserError "unrecognized arguments: --zeta"))
    by (vm_compute; reflexivity).
  split; [exact Hp|].
  refine (eq_trans
            (proj1 (parser_error_exit Formatter.format_help "mopidy" Examples.nested
                      ["b"; "--zeta"] None [Examples.nested] f _ _ Hp)) _).
  - apply (descends_next (Examples.call_of Examples.nested ["b"; "--zeta"])).
    eexists. vm_compute. reflexivity.
  - vm_compute. reflexivity.
Defined.

Lemma parser_exception_propagates_witness :
  let f := Examples.call_of Examples.mopidy ["-v"; "--version"] in
  parsed Formatter.format_help "mopidy" f
  = Raise (SystemExit 0 stderr "Mopidy 0.18.3
") /\
  parse Formatter.format_help "mopidy" Examples.mopidy ["-v"; "--version"] None
  = Raise (SystemExit 0 stderr "Mopidy 0.18.3
").
Proof.
  intros f.
  assert (Hp : parsed Formatter.format_help "mopidy" f
               = Raise (SystemExit 0 stderr "Mopidy 0.18.3
")) by (vm_compute; reflexivity).
  split; [exact Hp|].
  apply (parser_exception_propagates Formatter.format_help "mopidy" Examples.mopidy
           ["-v"; "--version"] None [] f _ (descends_here _ _ _) Hp);
    [discriminate|intros message; discriminate].
Defined.

(** ** The lifecycle: the start steps, interrupts, other exceptions *)

Section lifecycle_more.

Variables Config Proxy : Type.
Variable env : environment Config Proxy.

Local Abbreviation event := (event Config Proxy).
Local Abbreviation M := (M Config Proxy).
Local Abbreviation first_failure := (first_failure Config Proxy env).
Local Abbreviation stop_steps := (stop_steps Config Proxy).
Local Abbreviation stops_return := (stops_return Config Proxy env).
Local Abbreviation backend_starts := (backend_starts Config Proxy).
Local Abbreviation frontend_starts := (frontend_starts Config Proxy).
Local Abbreviation emits := (emits Config Proxy).
Local Abbreviation is_startup := (is_startup Config Proxy).
Local Abbreviation is_shutdown := (is_shutdown Config Proxy).
Local Abbreviation is_loop_run := (is_loop_run Config Proxy).

(** *** The start steps, one by one *)

Lemma start_audio_eq (config : Config) (h : list event) :
  start_audio env config h =
  (h ++ [Logged INFO "Starting Mopidy audio"; Called (start Audio (audio_kwargs config))],
   started env (h ++ [Logged INFO "Starting Mopidy audio"]) Audio (audio_kwargs config)).
Proof.
  unfold start_audio. rewrite bind_eq. unfold log, start_proxy.
  rewrite <- app_assoc. now destruct (started env _ _ _).
Qed.

Lemma start_core_eq (audio : Proxy) (backends : list Proxy) (h : list event) :
  start_core env audio backends h =
  (h ++ [Logged INFO "Starting Mopidy core";
         Called (start Core (core_kwargs audio backends))],
   started env (h ++ [Logged INFO "Starting Mopidy core"]) Core
           (core_kwargs audio backends)).
Proof.
  unfold start_core. rewrite bind_eq. unfold log, start_proxy.
  rewrite <- app_assoc. now destruct (started env _ _ _).
Qed.

Lemma start_backends_eq (config : Config) (classes : list actor_class)
      (audio : Proxy) (h : list event) :
  start_backends env config classes audio h =
  start_backends_loop env config classes audio []
    (h ++ [Logged INFO ("Starting Mopidy backends: " +:+ names classes)]).
Proof. unfold start_backends. rewrite bind_eq. reflexivity. Qed.

Lemma start_frontends_eq (config : Config) (classes : list actor_class)
      (core : Proxy) (h : list event) :
  start_frontends env config classes core h =
  start_frontends_loop env config classes core
    (h ++ [Logged INFO ("Starting Mopidy frontends: " +:+ names classes)]).
Proof. unfold start_frontends. rewrite bind_eq. reflexivity. Qed.

Lemma up_eq (args : registry) (config : Config) (h : list event) :
  up env args config h =
  match start_audio env config h with
  | (ha, Raise e) => (ha, Raise e)
  | (ha, Return audio) =>
      match start_backends env config (backend args) audio ha with
      | (hb, Raise e) => (hb, Raise e)
      | (hb, Return backends) =>
          match start_core env audio backends hb with
          | (hc, Raise e) => (hc, Raise e)
          | (hc, Return core) =>
              match start_frontends env config (frontend args) core hc with
              | (hf, Raise e) => (hf, Raise e)
              | (hf, Return _) => (hf ++ [Called loop_run], returned env hf loop_run)
              end
          end
      end
  end.
Proof.
  unfold up. rewrite bind_eq.
  destruct (start_audio env config h) as [ha [audio|e]]; [|reflexivity].
  rewrite bind_eq.
  destruct (start_backends env config (backend args) audio ha) as [hb [backends|e]];
    [|reflexivity].
  rewrite bind_eq.
  destruct (start_core env audio backends hb) as [hc [core|e]]; [|reflexivity].
  rewrite bind_eq.
  destruct (start_frontends env config (frontend args) core hc) as [hf [[]|e]];
    [|reflexivity].
  unfold invoke. now destruct (returned env hf loop_run).
Qed.

Lemma frontend_starts_app (config : Config) (core : Proxy)
      (l1 l2 : list actor_class) :
  frontend_starts config core (l1 ++ l2)
  = frontend_starts config core l1 ++ frontend_starts config core l2.
Proof. unfold frontend_starts. apply fmap_app. Qed.

Lemma start_frontends_loop_cons (config : Config) (core : Proxy)
      (klass : actor_class) (classes : list actor_class) (h : list event) :
  start_frontends_loop env config (klass :: classes) core h =
  match started env h klass (frontend_kwargs config core) with
  | Return _ =>
      start_frontends_loop env config classes core
        (h ++ [Called (start klass (frontend_kwargs config core))])
  | Raise (FrontendError message) =>
      (h ++ [Called (start klass (frontend_kwargs config core));
             Logged ERROR ("Frontend (" +:+ __name__ klass +:+
                           ") initialization error: " +:+ message)],
       Raise (FrontendError message))
  | Raise e => (h ++ [Called (start klass (frontend_kwargs config core))], Raise e)
  end.
Proof.
  cbn [start_frontends_loop]. rewrite bind_eq. unfold try_except.
  rewrite bind_eq. unfold start_proxy.
  destruct (started env h klass (frontend_kwargs config core)) as [proxy|e];
    [reflexivity|].
  destruct e; try reflexivity.
  rewrite bind_eq. unfold log, raise. now rewrite <- app_assoc.
Qed.

Lemma start_backends_loop_cons (config : Config) (audio : Proxy)
      (klass : actor_class) (classes : list actor_class) (backends : list Proxy)
      (h : list event) :
  start_backends_loop env config (klass :: classes) audio backends h =
  match started env h klass (backend_kwargs config audio) with
  | Return backend =>
      start_backends_loop env config classes audio (backends ++ [backend])
        (h ++ [Called (start klass (backend_kwargs config audio))])
  | Raise (BackendError message) =>
      (h ++ [Called (start klass (backend_kwargs config audio));
             Logged ERROR ("Backend (" +:+ __name__ klass +:+
                           ") initialization error: " +:+ message)],
       Raise (BackendError message))
  | Raise e => (h ++ [Called (start klass (backend_kwargs config audio))], Raise e)
  end.
Proof.
  cbn [start_backends_loop]. rewrite bind_eq. unfold try_except, start_proxy.
  destruct (started env h klass (backend_kwargs config audio)) as [proxy|e];
    [reflexivity|].
  destruct e; try reflexivity.
  rewrite bind_eq. unfold log, raise. now rewrite <- app_assoc.
Qed.

Lemma start_frontends_loop_app (config : Config) (core : Proxy)
      (before rest : list actor_class) :
  forall h : list event,
    (forall i klass,
       before !! i = Some klass ->
       exists proxy,
         started env (h ++ frontend_starts config core (take i before))
                 klass (frontend_kwargs config core) = Return proxy) ->
    start_frontends_loop env config (before ++ rest) core h
    = start_frontends_loop env config rest core
        (h ++ frontend_starts config core before).
Proof.
  induction before as [|klass before IH]; intros h H.
  - cbn. now rewrite app_nil_r.
  - destruct (H O klass eq_refl) as [proxy Hp]. cbn in Hp. rewrite app_nil_r in Hp.
    rewrite <- app_comm_cons, start_frontends_loop_cons, Hp, IH.
    + cbn. now rewrite <- app_assoc.
    + intros i klass' Hi. destruct (H (S i) klass' Hi) as [proxy' Hp'].
      exists proxy'. cbn in Hp'. rewrite <- app_assoc. exact Hp'.
Qed.

Lemma start_backends_loop_Return (config : Config) (audio : Proxy)
      (classes : list actor_class) :
  forall (backends result : list Proxy) (h h' : list event),
    start_backends_loop env config classes audio backends h = (h', Return result) ->
    h' = h ++ backend_starts config audio classes /\
    exists new : list Proxy,
      result = backends ++ new /\
      length new = length classes /\
      forall i klass,
        classes !! i = Some klass ->
        exists proxy,
          new !! i = Some proxy /\
          started env (h ++ backend_starts config audio (take i classes))
                  klass (backend_kwargs config audio) = Return proxy.
Proof.
  induction classes as [|klass classes IH]; intros backends result h h'.
  - cbn. intros [= <- <-]. split; [now rewrite app_nil_r|]. exists [].
    split; [now rewrite app_nil_r|]. split; [reflexivity|]. intros i klass Hi.
    discriminate Hi.
  - rewrite start_backends_loop_cons.
    destruct (started env h klass (backend_kwargs config audio)) as [proxy|e] eqn:Es.
    2:{ destruct e; discriminate. }
    intros H. apply IH in H as (-> & new & -> & Hlen & Hnew).
    split; [cbn; now rewrite <- app_assoc|]. exists (proxy :: new).
    split; [now rewrite <- app_assoc|]. split; [cbn; now rewrite Hlen|].
    intros [|i] klass' Hi.
    + injection Hi as <-. exists proxy. cbn. now rewrite app_nil_r.
    + destruct (Hnew i klass' Hi) as (proxy' & Hp & Hs). exists proxy'.
      split; [exact Hp|]. cbn. now rewrite <- app_assoc in Hs.
Qed.

Lemma start_frontends_loop_Return (config : Config) (core : Proxy)
      (classes : list actor_class) :
  forall (h h' : list event) (u : unit),
    start_frontends_loop env config classes core h = (h', Return u) ->
    h' = h ++ frontend_starts config core classes.
Proof.
  induction classes as [|klass classes IH]; intros h h' u.
  - cbn. intros [= <-]. now rewrite app_nil_r.
  - rewrite start_frontends_loop_cons.
    destruct (started env h klass (frontend_kwargs config core)) as [proxy|e].
    2:{ destruct e; discriminate. }
    intros H. apply IH in H as ->. cbn. now rewrite <- app_assoc.
Qed.

Lemma emits_start_backends_loop (config : Config) (audio : Proxy)
      (classes : list actor_class) :
  forall backends : list Proxy,
    emits (fun ev => is_startup ev = true)
          (start_backends_loop env config classes audio backends).
Proof.
  induction classes as [|klass classes IH]; intros backends h.
  - exists []. cbn. split; [now rewrite app_nil_r|constructor].
  - rewrite start_backends_loop_cons.
    destruct (started env h klass (backend_kwargs config audio)) as [proxy|e].
    + destruct (IH (backends ++ [proxy])
                  (h ++ [Called (start klass (backend_kwargs config audio))]))
        as (evs & E & HP).
      exists (Called (start klass (backend_kwargs config audio)) :: evs).
      rewrite E, <- app_assoc. split; [reflexivity|]. now constructor.
    + destruct e; eexists; (split; [reflexivity|repeat constructor]).
Qed.

Lemma emits_start_frontends_loop (config : Config) (core : Proxy)
      (classes : list actor_class) :
  emits (fun ev => is_startup ev = true)
        (start_frontends_loop env config classes core).
Proof.
  induction classes as [|klass classes IH]; intros h.
  - exists []. cbn. split; [now rewrite app_nil_r|constructor].
  - rewrite start_frontends_loop_cons.
    destruct (started env h klass (frontend_kwargs config core)) as [proxy|e].
    + destruct (IH (h ++ [Called (start klass (frontend_kwargs config core))]))
        as (evs & E & HP).
      exists (Called (start klass (frontend_kwargs config core)) :: evs).
      rewrite E, <- app_assoc. split; [reflexivity|]. now constructor.
    + destruct e; eexists; (split; [reflexivity|repeat constructor]).
Qed.

(** X15. Frontends are started one at a time in registration order,
    after the audio, the backends and the core.  When the frontends
    [before] have started and the next one, [failing], raises a
    [FrontendError]: the history holds the starts of [before] and of
    [failing] in that order, the error log naming [failing] with the
    message of the exception, the "Initialization error" log, and then
    only stop steps.  So no frontend of [after] is started and
    [loop.run()] is never called; when the stop calls return, [run]
    returns normally. *)
Theorem frontend_start_failure (args : registry) (config : Config)
        (h ha hb hc : list event) (audio core : Proxy) (backends : list Proxy)
        (before after : list actor_class) (failing : actor_class)
        (message : string) :
  let h1 := hc ++ [Logged INFO ("Starting Mopidy frontends: " +:+
                                names (frontend args))] in
  frontend args = before ++ failing :: after ->
  start_audio env config h = (ha, Return audio) ->
  start_backends env config (backend args) audio ha = (hb, Return backends) ->
  start_core env audio backends hb = (hc, Return core) ->
  (forall i klass,
     before !! i = Some klass ->
     exists proxy,
       started env (h1 ++ frontend_starts config core (take i before))
               klass (frontend_kwargs config core) = Return proxy) ->
  started env (h1 ++ frontend_starts config core before)
          failing (frontend_kwargs config core) = Raise (FrontendError message) ->
  exists downs : list event,
    let ups :=
      [Logged INFO ("Starting Mopidy frontends: " +:+ names (frontend args))] ++
      frontend_starts config core (before ++ [failing]) ++
      [Logged ERROR ("Frontend (" +:+ __name__ failing +:+
                     ") initialization error: " +:+ message);
       Logged INFO "Initialization error. Exiting..."] in
    (run env args config h).1 = hc ++ ups ++ downs /\
    (exists n, downs = take n (stop_steps args)) /\
    (stops_return ->
     downs = stop_steps args /\ (run env args config h).2 = Return ()) /\
    Forall (fun ev => is_loop_run ev = false) (ups ++ downs).
Proof.
  intros h1 Hargs Ha Hb Hc Hbefore Hf.
  set (h2 := h1 ++ frontend_starts config core before ++
             [Called (start failing (frontend_kwargs config core));
              Logged ERROR ("Frontend (" +:+ __name__ failing +:+
                            ") initialization error: " +:+ message)]).
  assert (Hup : up env args config h = (h2, Raise (FrontendError message))).
  { rewrite up_eq, Ha, Hb, Hc, start_frontends_eq. fold h1.
    rewrite Hargs, (start_frontends_loop_app _ _ _ _ _ Hbefore),
      start_frontends_loop_cons, Hf.
    subst h2. now rewrite <- !app_assoc. }
  pose proof (run_caught _ _ env args config h h2 (FrontendError message) eq_refl Hup)
    as Hrun.
  set (h3 := h2 ++ [Logged INFO "Initialization error. Exiting..."]) in *.
  assert (Hh3 : h3 = hc ++
            [Logged INFO ("Starting Mopidy frontends: " +:+ names (frontend args))] ++
            frontend_starts config core (before ++ [failing]) ++
            [Logged ERROR ("Frontend (" +:+ __name__ failing +:+
                           ") initialization error: " +:+ message);
             Logged INFO "Initialization error. Exiting..."]).
  { subst h3 h2 h1. rewrite frontend_starts_app, <- !app_assoc. reflexivity. }
  assert (Hstop : Forall (fun ev => is_loop_run ev = false) (stop_steps args)).
  { eapply Forall_impl; [apply (stop_steps_stops Config Proxy)|].
    intros [[]|] H; try reflexivity; discriminate. }
  assert (Hups : Forall (fun ev => is_loop_run ev = false)
            ([Logged INFO ("Starting Mopidy frontends: " +:+ names (frontend args))] ++
             frontend_starts config core (before ++ [failing]) ++
             [Logged ERROR ("Frontend (" +:+ __name__ failing +:+
                            ") initialization error: " +:+ message);
              Logged INFO "Initialization error. Exiting..."])).
  { repeat (apply Forall_app; split); repeat constructor.
    apply Forall_fmap, Forall_true. reflexivity. }
  destruct (first_failure h3 (stop_steps args)) as [[n e']|] eqn:Ef.
  - exists (take (S n) (stop_steps args)). cbv zeta.
    split; [now rewrite Hrun, Hh3, <- !app_assoc|]. split; [eauto|]. split.
    + intros Hs.
      rewrite (first_failure_None _ _ _ _ _ Hs (stop_steps_stops _ _ args)) in Ef.
      discriminate.
    + apply Forall_app. split; [exact Hups|apply Forall_take, Hstop].
  - exists (stop_steps args). cbv zeta.
    split; [now rewrite Hrun, Hh3, <- !app_assoc|]. split.
    { exists (length (stop_steps args)). now rewrite firstn_all. }
    split; [intros _; split; [reflexivity|now rewrite Hrun]|].
    apply Forall_app. split; [exact Hups|exact Hstop].
Qed.


Lemma start_audio_emits (config : Config) :
  emits (fun ev => is_startup ev = true) (start_audio env config).
Proof. intros h. rewrite start_audio_eq. eexists. split; [reflexivity|now repeat constructor]. Qed.

Lemma start_core_emits (audio : Proxy) (backends : list Proxy) :
  emits (fun ev => is_startup ev = true) (start_core env audio backends).
Proof. intros h. rewrite start_core_eq. eexists. split; [reflexivity|now repeat constructor]. Qed.

Lemma start_backends_emits (config : Config) (classes : list actor_class)
      (audio : Proxy) :
  emits (fun ev => is_startup ev = true) (start_backends env config classes audio).
Proof.
  intros h. rewrite start_backends_eq.
  destruct (emits_start_backends_loop config audio classes [] (h ++ [Logged INFO
              ("Starting Mopidy backends: " +:+ names classes)])) as (evs & E & HP).
  eexists (_ :: evs). rewrite E, <- app_assoc. split; [reflexivity|now constructor].
Qed.

Lemma start_frontends_emits (config : Config) (classes : list actor_class)
      (core : Proxy) :
  emits (fun ev => is_startup ev = true) (start_frontends env config classes core).
Proof.
  intros h. rewrite start_frontends_eq.
  destruct (emits_start_frontends_loop config core classes (h ++ [Logged INFO
              ("Starting Mopidy frontends: " +:+ names classes)])) as (evs & E & HP).
  eexists (_ :: evs). rewrite E, <- app_assoc. split; [reflexivity|now constructor].
Qed.

Lemma start_frontends_loop_started (config : Config) (core : Proxy)
      (classes : list actor_class) :
  forall (h h' : list event) (u : unit),
    start_frontends_loop env config classes core h = (h', Return u) ->
    forall i klass,
      classes !! i = Some klass ->
      exists proxy,
        started env (h ++ frontend_starts config core (take i classes))
                klass (frontend_kwargs config core) = Return proxy.
Proof.
  induction classes as [|klass classes IH]; intros h h' u.
  - intros _ i klass Hi. discriminate Hi.
  - rewrite start_frontends_loop_cons.
    destruct (started env h klass (frontend_kwargs config core)) as [proxy|e] eqn:Es.
    2:{ destruct e; discriminate. }
    intros H [|i] klass' Hi.
    + injection Hi as <-. exists proxy. cbn. now rewrite app_nil_r.
    + destruct (IH _ _ _ H i klass' Hi) as [proxy' Hs]. exists proxy'.
      cbn. now rewrite <- app_assoc in Hs.
Qed.

Lemma startup_no_loop_run (evs : list event) :
  Forall (fun ev => is_startup ev = true) evs -> Called loop_run ∉ evs.
Proof. intros H Hin. rewrite Forall_forall in H. discriminate (H _ Hin). Qed.

(** The [try] suite either stops at a start, leaving only start calls
    and log lines, or starts everything and calls [loop.run()]. *)
Lemma up_cases (args : registry) (config : Config) (h : list event) :
  (exists starts : list event,
     (up env args config h).1 = h ++ starts /\
     Forall (fun ev => is_startup ev = true) starts) \/
  (exists (audio : Proxy) (backends : list Proxy) (core : Proxy),
     let h1 := h ++ [Logged INFO "Starting Mopidy audio";
                     Called (start Audio (audio_kwargs config));
                     Logged INFO ("Starting Mopidy backends: " +:+
                                  names (backend args))] in
     let starts :=
       [Logged INFO "Starting Mopidy audio";
        Called (start Audio (audio_kwargs config));
        Logged INFO ("Starting Mopidy backends: " +:+ names (backend args))] ++
       backend_starts config audio (backend args) ++
       [Logged INFO "Starting Mopidy core";
        Called (start Core (core_kwargs audio backends));
        Logged INFO ("Starting Mopidy frontends: " +:+ names (frontend args))] ++
       frontend_starts config core (frontend args) in
     let h2 := h1 ++ backend_starts config audio (backend args) ++
               [Logged INFO "Starting Mopidy core";
                Called (start Core (core_kwargs audio backends));
                Logged INFO ("Starting Mopidy frontends: " +:+
                             names (frontend args))] in
     up env args config h
     = (h ++ starts ++ [Called loop_run], returned env (h ++ starts) loop_run) /\
     length backends = length (backend args) /\
     (forall i klass,
        backend args !! i = Some klass ->
        exists proxy,
          backends !! i = Some proxy /\
          started env (h1 ++ backend_starts config audio (take i (backend args)))
                  klass (backend_kwargs config audio) = Return proxy) /\
     started env (h ++ [Logged INFO "Starting Mopidy audio"]) Audio
             (audio_kwargs config) = Return audio /\
     started env (h1 ++ backend_starts config audio (backend args) ++
                  [Logged INFO "Starting Mopidy core"])
             Core (core_kwargs audio backends) = Return core /\
     forall i klass,
       frontend args !! i = Some klass ->
       exists proxy,
         started env (h2 ++ frontend_starts config core (take i (frontend args)))
                 klass (frontend_kwargs config core) = Return proxy).
Proof.
  rewrite up_eq.
  destruct (start_audio_emits config h) as (evs_a & Ea & Pa).
  destruct (start_audio env config h) as [ha [audio|e]] eqn:Ha; cbn in Ea; subst ha.
  2:{ left. exists evs_a. auto. }
  destruct (start_backends_emits config (backend args) audio (h ++ evs_a))
    as (evs_b & Eb & Pb).
  destruct (start_backends env config (backend args) audio (h ++ evs_a))
    as [hb [backends|e]] eqn:Hb; cbn in Eb; subst hb.
  2:{ left. exists (evs_a ++ evs_b). rewrite app_assoc. split; [reflexivity|].
      apply Forall_app; auto. }
  destruct (start_core_emits audio backends ((h ++ evs_a) ++ evs_b))
    as (evs_c & Ec & Pc).
  destruct (start_core env audio backends ((h ++ evs_a) ++ evs_b))
    as [hc [core|e]] eqn:Hc; cbn in Ec; subst hc.
  2:{ left. exists (evs_a ++ evs_b ++ evs_c). rewrite !app_assoc.
      split; [reflexivity|]. repeat (apply Forall_app; split); auto. }
  destruct (start_frontends_emits config (frontend args) core
              (((h ++ evs_a) ++ evs_b) ++ evs_c)) as (evs_f & Ef & Pf).
  destruct (start_frontends env config (frontend args) core
              (((h ++ evs_a) ++ evs_b) ++ evs_c)) as [hf [u|e]] eqn:Hf;
    cbn in Ef; subst hf.
  2:{ left. exists (evs_a ++ evs_b ++ evs_c ++ evs_f). rewrite !app_assoc.
      split; [reflexivity|]. repeat (apply Forall_app; split); auto. }
  right. exists audio, backends, core. cbv zeta.
  rewrite start_audio_eq in Ha. injection Ha as Ha Hsa.
  apply app_inv_head in Ha. subst evs_a.
  rewrite start_backends_eq in Hb.
  apply start_backends_loop_Return in Hb as (Hb & new & -> & Hlen & Hnew).
  rewrite <- !app_assoc in Hb. apply app_inv_head in Hb. cbn in Hb.
  injection Hb as Hb. subst evs_b.
  rewrite start_core_eq in Hc. injection Hc as Hc Hsc.
  apply app_inv_head in Hc. subst evs_c.
  rewrite start_frontends_eq in Hf.
  pose proof (start_frontends_loop_started _ _ _ _ _ _ Hf) as Hfs.
  apply start_frontends_loop_Return in Hf.
  rewrite <- !app_assoc in Hf. do 3 apply app_inv_head in Hf. cbn in Hf.
  injection Hf as Hf. subst evs_f.
  split; [|split; [exact Hlen|split; [|split; [exact Hsa|split]]]].
  - rewrite <- !app_assoc. cbn. reflexivity.
  - intros i klass Hi. destruct (Hnew i klass Hi) as (proxy & Hp & Hs).
    exists proxy. split; [exact Hp|]. rewrite <- Hs. f_equal.
    now rewrite <- !app_assoc.
  - rewrite <- Hsc. f_equal. now rewrite <- !app_assoc.
  - intros i klass Hi. destruct (Hfs i klass Hi) as [proxy Hs].
    exists proxy. rewrite <- Hs. f_equal. now rewrite <- !app_assoc.
Qed.

(** X16. [loop.run()] is called only after everything has started.
    If the history of the [try] suite holds a call of [loop.run()],
    then that call is its last event and what comes before is exactly:
    the start of the audio, the starts of all the backends in registry
    order (each given the configuration and the audio proxy), the start
    of the core (given the audio proxy and the backend proxies), the
    starts of all the frontends in registry order (each given the
    configuration and the core proxy), with the four log lines.  The
    proxies handed on are the ones the starts returned: [audio] is what
    [Audio.start] returned, the core receives one proxy for each
    backend, in registry order, each the one the start of that backend
    returned, [core] is what [Core.start] returned, and every frontend
    start returned. *)
Theorem main_loop_entered (args : registry) (config : Config)
        (h evs : list event) :
  (up env args config h).1 = h ++ evs ->
  Called loop_run ∈ evs ->
  exists (audio : Proxy) (backends : list Proxy) (core : Proxy),
    let h1 := h ++ [Logged INFO "Starting Mopidy audio";
                    Called (start Audio (audio_kwargs config));
                    Logged INFO ("Starting Mopidy backends: " +:+
                                 names (backend args))] in
    let starts :=
      [Logged INFO "Starting Mopidy audio";
       Called (start Audio (audio_kwargs config));
       Logged INFO ("Starting Mopidy backends: " +:+ names (backend args))] ++
      backend_starts config audio (backend args) ++
      [Logged INFO "Starting Mopidy core";
       Called (start Core (core_kwargs audio backends));
       Logged INFO ("Starting Mopidy frontends: " +:+ names (frontend args))] ++
      frontend_starts config core (frontend args) in
    let h2 := h1 ++ backend_starts config audio (backend args) ++
              [Logged INFO "Starting Mopidy core";
               Called (start Core (core_kwargs audio backends));
               Logged INFO ("Starting Mopidy frontends: " +:+
                            names (frontend args))] in
    evs = starts ++ [Called loop_run] /\
    (up env args config h).2 = returned env (h ++ starts) loop_run /\
    length backends = length (backend args) /\
    (forall i klass,
       backend args !! i = Some klass ->
       exists proxy,
         backends !! i = Some proxy /\
         started env (h1 ++ backend_starts config audio (take i (backend args)))
                 klass (backend_kwargs config audio) = Return proxy) /\
    started env (h ++ [Logged INFO "Starting Mopidy audio"]) Audio
            (audio_kwargs config) = Return audio /\
    started env (h1 ++ backend_starts config audio (backend args) ++
                 [Logged INFO "Starting Mopidy core"])
            Core (core_kwargs audio backends) = Return core /\
    forall i klass,
      frontend args !! i = Some klass ->
      exists proxy,
        started env (h2 ++ frontend_starts config core (take i (frontend args)))
                klass (frontend_kwargs config core) = Return proxy.
Proof.
  intros Hevs Hin.
  destruct (up_cases args config h)
    as [(starts & E & HP)
       |(audio & backends & core & E & Hlen & Hb & Ha & Hc & Hf)].
  - rewrite E in Hevs. apply app_inv_head in Hevs. subst evs.
    now destruct (startup_no_loop_run starts HP).
  - exists audio, backends, core. cbv zeta in *. rewrite E in Hevs |- *.
    cbn [fst snd] in *. apply app_inv_head in Hevs. subst evs.
    repeat split; assumption.
Qed.

Lemma stop_steps_cons (args : registry) :
  exists rest : list event,
    stop_steps args = Called loop_quit :: rest /\
    Forall (fun ev => is_shutdown ev = true) rest.
Proof.
  eexists. split; [reflexivity|].
  repeat constructor. repeat (apply Forall_app; split); repeat constructor;
    apply Forall_fmap, Forall_true; reflexivity.
Qed.

(** X17. The shape of every execution of [run], whatever the
    collaborators do: start calls and log lines; then [loop.run()], or
    nothing if a start raised; then one of the two "Exiting..." log
    lines, or nothing; then [loop.quit()]; then only stop calls and log
    lines.  So [loop.quit()] is called exactly once, [loop.run()] at
    most once and before it, and nothing is started after either of
    them. *)
Theorem run_trace (args : registry) (config : Config) (h : list event) :
  exists starts tail handled after : list event,
    (run env args config h).1
    = h ++ starts ++ tail ++ handled ++ [Called loop_quit] ++ after /\
    Forall (fun ev => is_startup ev = true) starts /\
    (tail = [] \/ tail = [Called loop_run]) /\
    (handled = [] \/
     handled = [Logged INFO "Initialization error. Exiting..."] \/
     handled = [Logged INFO "Interrupted. Exiting..."]) /\
    Forall (fun ev => is_shutdown ev = true) after.
Proof.
  assert (Hup : exists starts tail,
            (up env args config h).1 = h ++ starts ++ tail /\
            Forall (fun ev => is_startup ev = true) starts /\
            (tail = [] \/ tail = [Called loop_run])).
  { destruct (up_cases args config h)
      as [(starts & E & HP)|(audio & backends & core & E & _)].
    - exists starts, []. rewrite app_nil_r. auto.
    - cbv zeta in E. eexists _, [Called loop_run]. rewrite E.
      split; [reflexivity|]. split; [|auto].
      repeat (apply Forall_app; split); repeat constructor;
        apply Forall_fmap, Forall_true; reflexivity. }
  destruct Hup as (starts & tail & E & HP & Ht).
  assert (Hg : exists handled,
            (try_except (up env args config) handlers h).1
            = h ++ starts ++ tail ++ handled /\
            (handled = [] \/
             handled = [Logged INFO "Initialization error. Exiting..."] \/
             handled = [Logged INFO "Interrupted. Exiting..."])).
  { unfold try_except. destruct (up env args config h) as [h1 [u|e]];
      cbn in E; subst h1.
    - exists []. rewrite app_nil_r. auto.
    - destruct e; cbn;
        first [exists []; rewrite app_nil_r; split; [reflexivity|auto; fail]
              |eexists; rewrite <- !app_assoc; split; [reflexivity|auto]]. }
  destruct Hg as (handled & Eg & Hh).
  destruct (stop_steps_cons args) as (rest & Es & Hrest).
  rewrite run_first_failure.
  destruct (try_except (up env args config) handlers h) as [h1 r1].
  cbn in Eg. subst h1. rewrite Es.
  destruct (first_failure _ (Called loop_quit :: rest)) as [[n e]|].
  - exists starts, tail, handled, (take n rest). cbn [fst take].
    split; [now rewrite <- !app_assoc|]. split; [exact HP|]. split; [exact Ht|].
    split; [exact Hh|]. apply Forall_take, Hrest.
  - exists starts, tail, handled, rest. cbn [fst].
    split; [now rewrite <- !app_assoc|]. auto.
Qed.

Lemma run_handled (args : registry) (config : Config) (h h1 : list event)
      (e : exn) (handler : M unit) :
  up env args config h = (h1, Raise e) ->
  handlers e = Some handler ->
  run env args config h =
  match handler h1 with
  | (h2, r) =>
      match first_failure h2 (stop_steps args) with
      | None => (h2 ++ stop_steps args, r)
      | Some (n, e') => (h2 ++ take (S n) (stop_steps args), Raise e')
      end
  end.
Proof.
  intros Hup He. rewrite run_first_failure.
  now rewrite (try_except_caught _ _ _ _ handler h h1 e Hup He).
Qed.

(** X13. A [KeyboardInterrupt] that reaches the [try] suite of [run]
    (from the main loop, or from a start) is caught: "Interrupted.
    Exiting..." is logged and the stop steps follow.  What [run]
    answers is what the stop steps answer; when every stop call
    returns, [run] returns normally. *)
Theorem interrupt_caught (args : registry) (config : Config) (h h1 : list event) :
  up env args config h = (h1, Raise KeyboardInterrupt) ->
  let h2 := h1 ++ [Logged INFO "Interrupted. Exiting..."] in
  run env args config h =
  match first_failure h2 (stop_steps args) with
  | None => (h2 ++ stop_steps args, Return ())
  | Some (n, e') => (h2 ++ take (S n) (stop_steps args), Raise e')
  end /\
  (stops_return -> run env args config h = (h2 ++ stop_steps args, Return ())).
Proof.
  intros Hup h2.
  pose proof (run_handled args config h h1 KeyboardInterrupt
                (log INFO "Interrupted. Exiting...") Hup eq_refl) as E.
  unfold log in E. fold h2 in E. split; [exact E|].
  intros Hs. rewrite E.
  now rewrite (first_failure_None _ _ _ _ _ Hs (stop_steps_stops _ _ args)).
Qed.

(** X14. An exception that is neither a component error
    ([BackendError], [FrontendError], [MixerError]) nor a
    [KeyboardInterrupt] is not handled by [run]: nothing is logged for
    it, the stop steps are taken from the history it left, and the
    exception leaves [run] once they are through.  If a stop step
    raises, that later exception is the one that leaves [run]. *)
Theorem other_exception_leaves_run (args : registry) (config : Config)
        (h h1 : list event) (e : exn) :
  up env args config h = (h1, Raise e) ->
  component_error e = false ->
  e <> KeyboardInterrupt ->
  run env args config h =
  match first_failure h1 (stop_steps args) with
  | None => (h1 ++ stop_steps args, Raise e)
  | Some (n, e') => (h1 ++ take (S n) (stop_steps args), Raise e')
  end /\
  (stops_return -> run env args config h = (h1 ++ stop_steps args, Raise e)).
Proof.
  intros Hup Hc Hk.
  assert (E : run env args config h =
              match first_failure h1 (stop_steps args) with
              | None => (h1 ++ stop_steps args, Raise e)
              | Some (n, e') => (h1 ++ take (S n) (stop_steps args), Raise e')
              end).
  { rewrite run_first_failure. unfold try_except. rewrite Hup.
    destruct e; try discriminate Hc; try reflexivity. now destruct Hk. }
  split; [exact E|]. intros Hs. rewrite E.
  now rewrite (first_failure_None _ _ _ _ _ Hs (stop_steps_stops _ _ args)).
Qed.

End lifecycle_more.

(** ** The further lifecycle theorems on concrete environments *)

Lemma more_stops_return :
  stops_return unit string Examples.quiet /\
  stops_return unit string Examples.http_fails /\
  stops_return unit string Examples.core_crashes.
Proof.
  repeat split; intros h c H; destruct c; try discriminate H; reflexivity.
Defined.

Lemma interrupt_caught_witness :
  exists h1,
    up Examples.quiet Examples.extensions () [] = (h1, Raise KeyboardInterrupt) /\
    run Examples.quiet Examples.extensions () []
    = ((h1 ++ [Logged INFO "Interrupted. Exiting..."]) ++
       stop_steps unit string Examples.extensions, Return ()).
Proof.
  eexists.
  assert (Hup : up Examples.quiet Examples.extensions () []
                = ([Logged INFO "Starting Mopidy audio";
                    Called (start Audio (audio_kwargs ()));
                    Logged INFO "Starting Mopidy backends: local, spotify, stream";
                    Called (start (Extension "local") (backend_kwargs () "Audio"));
                    Called (start (Extension "spotify") (backend_kwargs () "Audio"));
                    Called (start (Extension "stream") (backend_kwargs () "Audio"));
                    Logged INFO "Starting Mopidy core";
                    Called (start Core (core_kwargs "Audio" ["local"; "spotify"; "stream"]));
                    Logged INFO "Starting Mopidy frontends: mpd, http";
                    Called (start (Extension "mpd") (frontend_kwargs () "Core"));
                    Called (start (Extension "http") (frontend_kwargs () "Core"));
                    Called loop_run],
                   Raise KeyboardInterrupt))
    by (vm_compute; reflexivity).
  split; [exact Hup|].
  exact (proj2 (interrupt_caught unit string Examples.quiet Examples.extensions
                  () [] _ Hup)
               (proj1 more_stops_return)).
Defined.

Lemma other_exception_leaves_run_witness :
  exists h1,
    up Examples.core_crashes Examples.extensions () []
    = (h1, Raise (OtherError "RuntimeError")) /\
    run Examples.core_crashes Examples.extensions () []
    = (h1 ++ stop_steps unit string Examples.extensions,
       Raise (OtherError "RuntimeError")).
Proof.
  eexists.
  assert (Hup : up Examples.core_crashes Examples.extensions () []
                = ([Logged INFO "Starting Mopidy audio";
                    Called (start Audio (audio_kwargs ()));
                    Logged INFO "Starting Mopidy backends: local, spotify, stream";
                    Called (start (Extension "local") (backend_kwargs () "Audio"));
                    Called (start (Extension "spotify") (backend_kwargs () "Audio"));
                    Called (start (Extension "stream") (backend_kwargs () "Audio"));
                    Logged INFO "Starting Mopidy core";
                    Called (start Core (core_kwargs "Audio" ["local"; "spotify"; "stream"]))],
                   Raise (OtherError "RuntimeError")))
    by (vm_compute; reflexivity).
  split; [exact Hup|].
  refine (proj2 (other_exception_leaves_run unit string Examples.core_crashes
                   Examples.extensions () [] _ (OtherError "RuntimeError")
                   Hup eq_refl _)
                (proj2 (proj2 more_stops_return))).
  discriminate.
Defined.

Lemma frontend_start_failure_witness :
  run Examples.http_fails Examples.extensions () []
  = ([Logged INFO "Starting Mopidy audio";
      Called (start Audio (audio_kwargs ()));
      Logged INFO "Starting Mopidy backends: local, spotify, stream";
      Called (start (Extension "local") (backend_kwargs () "Audio"));
      Called (start (Extension "spotify") (backend_kwargs () "Audio"));
      Called (start (Extension "stream") (backend_kwargs () "Audio"));
      Logged INFO "Starting Mopidy core";
      Called (start Core (core_kwargs "Audio" ["local"; "spotify"; "stream"]));
      Logged INFO "Starting Mopidy frontends: mpd, http";
      Called (start (Extension "mpd") (frontend_kwargs () "Core"));
      Called (start (Extension "http") (frontend_kwargs () "Core"));
      Logged ERROR "Frontend (http) initialization error: port in use";
      Logged INFO "Initialization error. Exiting..."] ++
     stop_steps unit string Examples.extensions, Return ()).
Proof.
  destruct (frontend_start_failure unit string Examples.http_fails
              Examples.extensions () []
              [Logged INFO "Starting Mopidy audio";
               Called (start Audio (audio_kwargs ()))]
              [Logged INFO "Starting Mopidy audio";
               Called (start Audio (audio_kwargs ()));
               Logged INFO "Starting Mopidy backends: local, spotify, stream";
               Called (start (Extension "local") (backend_kwargs () "Audio"));
               Called (start (Extension "spotify") (backend_kwargs () "Audio"));
               Called (start (Extension "stream") (backend_kwargs () "Audio"))]
              [Logged INFO "Starting Mopidy audio";
               Called (start Audio (audio_kwargs ()));
               Logged INFO "Starting Mopidy backends: local, spotify, stream";
               Called (start (Extension "local") (backend_kwargs () "Audio"));
               Called (start (Extension "spotify") (backend_kwargs () "Audio"));
               Called (start (Extension "stream") (backend_kwargs () "Audio"));
               Logged INFO "Starting Mopidy core";
               Called (start Core (core_kwargs "Audio" ["local"; "spotify"; "stream"]))]
              "Audio" "Core" ["local"; "spotify"; "stream"]
              [Extension "mpd"] [] (Extension "http") "port in use")
    as (downs & E & _ & Hall & _).
  - reflexivity.
  - reflexivity.
  - reflexivity.
  - reflexivity.
  - intros i klass Hi. exists (__name__ klass).
    destruct i as [|i]; [|destruct i; discriminate Hi].
    injection Hi as <-. reflexivity.
  - reflexivity.
  - destruct (Hall (proj1 (proj2 more_stops_return))) as [-> Hr].
    rewrite (surjective_pairing (run _ _ _ _)), E, Hr. reflexivity.
Defined.

Lemma main_loop_entered_witness :
  Called loop_run ∈ (up Examples.quiet Examples.extensions () []).1 /\
  (up Examples.quiet Examples.extensions () []).1
  = [Logged INFO "Starting Mopidy audio";
     Called (start Audio (audio_kwargs ()));
     Logged INFO "Starting Mopidy backends: local, spotify, stream";
     Called (start (Extension "local") (backend_kwargs () "Audio"));
     Called (start (Extension "spotify") (backend_kwargs () "Audio"));
     Called (start (Extension "stream") (backend_kwargs () "Audio"));
     Logged INFO "Starting Mopidy core";
     Called (start Core (core_kwargs "Audio" ["local"; "spotify"; "stream"]));
     Logged INFO "Starting Mopidy frontends: mpd, http";
     Called (start (Extension "mpd") (frontend_kwargs () "Core"));
     Called (start (Extension "http") (frontend_kwargs () "Core"));
     Called loop_run].
Proof.
  assert (Hin : Called loop_run ∈ (up Examples.quiet Examples.extensions () []).1)
    by (vm_compute; repeat constructor).
  split; [exact Hin|].
  destruct (main_loop_entered unit string Examples.quiet Examples.extensions () []
              (up Examples.quiet Examples.extensions () []).1 eq_refl Hin)
    as (audio & backends & core & E & _ & Hlen & Hb & Ha & Hc & _).
  injection Ha as <-. injection Hc as <-.
  destruct backends as [|b0 [|b1 [|b2 [|b3 backends]]]]; try discriminate Hlen.
  destruct (Hb 0%nat _ eq_refl) as (p0 & [= <-] & [= <-]).
  destruct (Hb 1%nat _ eq_refl) as (p1 & [= <-] & [= <-]).
  destruct (Hb 2%nat _ eq_refl) as (p2 & [= <-] & [= <-]).
  exact E.
Defined.

(** ** No arguments at all *)

Section empty.

Variable HelpFormatter_format_help : argparse.HelpFormatter -> string.
Variable progname : string.

Local Abbreviation parse_args :=
  (ArgumentParser.parse_args HelpFormatter_format_help progname).
Local Abbreviation convert_defaults := ArgumentParser.convert_defaults.

Lemma _get_value_Raise (action : argparse.Action) (arg_string : string) (e : exn) :
  ArgumentParser._get_value action arg_string = Raise e ->
  exists message, e = _ParserError message.
Proof.
  unfold ArgumentParser._get_value. destruct (argparse.type action) as [type_func|];
    [|discriminate].
  destruct (type_func arg_string); [discriminate|].
  intros [= <-]. unfold ArgumentParser.ArgumentError. eauto.
Qed.

(** Converting the defaults raises nothing but parser errors and
    leaves the extras alone. *)
Lemma convert_defaults_cases (actions : list (nat * argparse.Action)) :
  forall st : ArgumentParser.state,
    (exists st', convert_defaults actions st = Return st' /\
                 ArgumentParser.extras st' = ArgumentParser.extras st) \/
    (exists message, convert_defaults actions st = Raise (_ParserError message)).
Proof.
  induction actions as [|[i action] actions IH]; intros st;
    cbn [ArgumentParser.convert_defaults]; [left; eauto|].
  destruct (ArgumentParser.seen i st); [apply IH|].
  destruct (argparse.default action) as [[]|]; try apply IH.
  destruct (ArgumentParser.namespace st !! argparse.dest action) as [a|];
    [|apply IH].
  destruct (ArgumentParser.is_default a s); [|apply IH].
  destruct (ArgumentParser._get_value action s) as [v|e] eqn:Ev.
  - cbn [mbind result_bind].
    match goal with
    | |- context [convert_defaults actions ?st1] =>
        destruct (IH st1) as [(st' & E & Hx)|(message & E)]
    end.
    + left. exists st'. split; [exact E|exact Hx].
    + right. eauto.
  - right. destruct (_get_value_Raise _ _ _ Ev) as [message ->]. eauto.
Qed.

Lemma parse_args_nil (parser : list argparse.Action) (ns : Namespace) :
  (exists result,
     parse_args parser [] ns = Return result /\
     result !! "_args" = Some (Val (VList []))) \/
  (exists message, parse_args parser [] ns = Raise (_ParserError message)).
Proof.
  unfold ArgumentParser.parse_args.
  cbn [ArgumentParser.arg_strings_pattern ArgumentParser.consume mbind result_bind map].
  match goal with
  | |- context [convert_defaults ?acts ?st] =>
      destruct (convert_defaults_cases acts st) as [(st' & E & Hx)|(message & E)];
      [pose proof (convert_defaults_args acts [] st st') as Ha|]
  end.
  - rewrite E. cbn in Hx |- *. rewrite Hx. left. eexists. split; [reflexivity|].
    apply Ha; [|exact E]. cbn. apply lookup_insert_eq.
  - rewrite E. right. eauto.
Qed.

(** X18. With no arguments at all [parse] neither descends nor
    prints help.  Either it returns a namespace whose [command] is the
    node it was called on, with every override of that node in place
    (other than [command] and [_args]); or the converter of a string
    default rejected it and [parse] exits with status 1, printing on
    standard output. *)
Theorem empty_argv (root : Command) (name : option string) :
  match parse HelpFormatter_format_help progname root [] name with
  | Return result =>
      result !! "command" = Some (Ref root) /\
      forall k v,
        _overrides root !! k = Some v -> k <> "command" -> k <> "_args" ->
        result !! k = Some (Val v)
  | Raise (SystemExit status out _) => status = 1 /\ out = stdout
  | Raise _ => False
  end.
Proof.
  unfold parse. rewrite _parse_unfold.
  destruct (parse_args_nil (_build root) ∅) as [(result & -> & Ha)|(message & ->)].
  - rewrite Ha. cbn [attr_truthy negb]. split.
    + unfold finish. apply lookup_insert_eq.
    + intros k v Hk Hc Hargs. rewrite finish_lookup by assumption.
      now rewrite (lookup_union_Some_l _ _ _ _ Hk).
  - unfold exit. split; reflexivity.
Qed.

End empty.

(** ** What a parser leaves alone *)

Section untouched.

Variable HelpFormatter_format_help : argparse.HelpFormatter -> string.
Variable progname : string.

Local Abbreviation parse_args :=
  (ArgumentParser.parse_args HelpFormatter_format_help progname).
Local Abbreviation consume :=
  (ArgumentParser.consume HelpFormatter_format_help progname).
Local Abbreviation take_action :=
  (ArgumentParser.take_action HelpFormatter_format_help progname).
Local Abbreviation take_actions :=
  (ArgumentParser.take_actions HelpFormatter_format_help progname).
Local Abbreviation call := (ArgumentParser.call HelpFormatter_format_help progname).
Local Abbreviation convert_defaults := ArgumentParser.convert_defaults.
Local Abbreviation parsed := (parsed HelpFormatter_format_help progname).
Local Abbreviation next_call := (next_call HelpFormatter_format_help progname).
Local Abbreviation descends := (descends HelpFormatter_format_help progname).

(** The option a pattern names, if any, is one of the parser's. *)
Local Abbreviation known parser :=
  (fun sp : string * ArgumentParser.pattern =>
     match sp.2 with
     | ArgumentParser.pattern_O (Some ia, _, _) => ia.2 ∈ parser
     | _ => True
     end).

Variable k : string.
Variable parser : list argparse.Action.
Hypothesis Hk : k <> "_args".
Hypothesis Hparser : Forall (fun action => argparse.dest action <> k) parser.

Lemma dest_ne (action : argparse.Action) : action ∈ parser -> argparse.dest action <> k.
Proof. intros H. rewrite Forall_forall in Hparser. now apply Hparser. Qed.

Lemma add_defaults_untouched (actions : list argparse.Action) :
  Forall (fun action => argparse.dest action <> k) actions ->
  forall ns : Namespace, ArgumentParser.add_defaults actions ns !! k = ns !! k.
Proof.
  induction 1 as [|action actions Ha _ IH]; intros ns; [reflexivity|].
  cbn [ArgumentParser.add_defaults]. rewrite IH.
  destruct (String.eqb _ _); [reflexivity|].
  destruct (ns !! argparse.dest action); [reflexivity|].
  destruct (argparse.default action); [|reflexivity].
  now rewrite lookup_insert_ne.
Qed.

Lemma option_actions_in (s : string) (ia : nat * argparse.Action) :
  (s, ia) ∈ ArgumentParser._option_string_actions parser -> ia.2 ∈ parser.
Proof.
  unfold ArgumentParser._option_string_actions. intros H.
  apply list_elem_of_In, in_flat_map in H as (ia' & Hin & H).
  apply in_map_iff in H as (s' & [= _ ->] & _).
  apply list_elem_of_In, elem_of_lookup_imap in Hin as (i & action & -> & Hi).
  cbn. now apply list_elem_of_lookup_2 in Hi.
Qed.

Lemma assoc_option_actions (s : string) (ia : nat * argparse.Action) :
  ArgumentParser.assoc s (ArgumentParser._option_string_actions parser) = Some ia ->
  ia.2 ∈ parser.
Proof. intros H. apply (option_actions_in s), assoc_elem_of, H. Qed.

Lemma _get_option_tuples_in (s o : string) (e : option string)
      (ia : nat * argparse.Action) :
  (Some ia, o, e) ∈ ArgumentParser._get_option_tuples parser s -> ia.2 ∈ parser.
Proof.
  unfold ArgumentParser._get_option_tuples.
  destruct s as [|c0 [|c1 tail]]; try (intros H; now apply elem_of_nil in H).
  destruct (Ascii.eqb c1 ArgumentParser.dash); [destruct (PyStr.partition _ _) as [[a b]|]|];
    intros H; apply list_elem_of_omap in H as ([s' ia'] & Hin & H); cbn in H;
    repeat match type of H with
           | (if ?c then _ else _) = _ => destruct c
           end;
    try discriminate; injection H as -> _ _; now apply option_actions_in in Hin.
Qed.

Lemma _parse_optional_in (s o : string) (e : option string)
      (ia : nat * argparse.Action) :
  ArgumentParser._parse_optional parser s = Return (Some (Some ia, o, e)) ->
  ia.2 ∈ parser.
Proof.
  unfold ArgumentParser._parse_optional. destruct s as [|c0 rest]; [discriminate|].
  destruct (negb _); [discriminate|].
  destruct (ArgumentParser.assoc _ _) as [ia0|] eqn:E0.
  { intros [= -> _ _]. now apply assoc_option_actions in E0. }
  destruct (String.eqb rest _); [discriminate|].
  destruct (PyStr.partition _ _) as [[a b]|].
  - destruct (ArgumentParser.assoc a _) as [ia1|] eqn:E1.
    { intros [= -> _ _]. now apply assoc_option_actions in E1. }
    destruct (ArgumentParser._get_option_tuples parser _) as [|t [|t' ts]] eqn:Et.
    + destruct (_ && _)%bool; [discriminate|].
      destruct (PyStr.contains _ _); discriminate.
    + intros [= ->]. apply (_get_option_tuples_in (String c0 rest) o e).
      rewrite Et. apply list_elem_of_here.
    + discriminate.
  - destruct (ArgumentParser._get_option_tuples parser _) as [|t [|t' ts]] eqn:Et.
    + destruct (_ && _)%bool; [discriminate|].
      destruct (PyStr.contains _ _); discriminate.
    + intros [= ->]. apply (_get_option_tuples_in (String c0 rest) o e).
      rewrite Et. apply list_elem_of_here.
    + discriminate.
Qed.

Lemma arg_strings_pattern_known (args : list string) :
  forall ps,
    ArgumentParser.arg_strings_pattern parser args = Return ps ->
    Forall (known parser) ps.
Proof.
  induction args as [|arg args IH]; intros ps; cbn [ArgumentParser.arg_strings_pattern].
  - intros [= <-]. constructor.
  - destruct (String.eqb arg "--").
    + intros [= <-]. constructor; [exact I|]. apply Forall_forall.
      intros sp Hsp. apply list_elem_of_In, in_map_iff in Hsp as (s & <- & _). exact I.
    + intros H. apply bind_Return in H as (t & Ht & H).
      apply bind_Return in H as (ps' & Hps & H). injection H as <-.
      constructor; [|now apply IH]. cbn.
      destruct t as [[[[ia|] o] e]|]; try exact I.
      now apply _parse_optional_in in Ht.
Qed.

Lemma explicit_loop_in (explicit_arg : string) :
  forall (ia : nat * argparse.Action) (option_string : string)
         (r : list ArgumentParser.action_tuple * option (nat * argparse.Action)),
    ia.2 ∈ parser ->
    ArgumentParser.explicit_loop parser ia option_string explicit_arg = Return r ->
    Forall (fun t : ArgumentParser.action_tuple => t.1.2 ∈ parser) r.1 /\
    forall last, r.2 = Some last -> last.2 ∈ parser.
Proof.
  induction explicit_arg as [|c new IH]; intros ia option_string r Hia;
    cbn [ArgumentParser.explicit_loop].
  - destruct (argparse.nargs ia.2).
    + intros [= <-]. split; [repeat constructor; exact Hia|discriminate].
    + destruct (ArgumentParser.second_is_dash _) as [[]|]; discriminate.
  - destruct (argparse.nargs ia.2).
    + intros [= <-]. split; [repeat constructor; exact Hia|discriminate].
    + destruct (ArgumentParser.second_is_dash _) as [[]|]; try discriminate.
      destruct (ArgumentParser.assoc _ _) as [ia'|] eqn:E; [|discriminate].
      apply assoc_option_actions in E.
      destruct new as [|c' new'].
      * intros [= <-]. split; [repeat constructor; exact Hia|].
        intros last [= <-]. exact E.
      * intros H. apply bind_Return in H as (r' & Hr' & H). injection H as <-.
        destruct (IH ia' _ r' E Hr') as [H1 H2].
        split; [constructor; [exact Hia|exact H1]|exact H2].
Qed.

Lemma _ensure_value_untouched (ns : Namespace) (name : string) (v : value) :
  name <> k -> (ArgumentParser._ensure_value ns name v).1 !! k = ns !! k.
Proof.
  intros Hne. unfold ArgumentParser._ensure_value.
  destruct (ns !! name) as [[[]|]|]; cbn; try reflexivity;
    now rewrite lookup_insert_ne.
Qed.

Lemma call_untouched (action : argparse.Action) (ns ns' : Namespace) (values : value) :
  argparse.dest action <> k ->
  call action ns values = Return ns' -> ns' !! k = ns !! k.
Proof.
  intros Hne. unfold ArgumentParser.call. destruct (argparse.class action).
  - intros [= <-]. now rewrite lookup_insert_ne.
  - intros [= <-]. now rewrite lookup_insert_ne.
  - pose proof (_ensure_value_untouched ns _ (VList []) Hne) as E.
    destruct (ArgumentParser._ensure_value ns _ _) as [ns1 items]. cbn in E.
    destruct items as [[]|]; try discriminate.
    intros [= <-]. now rewrite lookup_insert_ne.
  - pose proof (_ensure_value_untouched ns _ (VInt 0) Hne) as E.
    destruct (ArgumentParser._ensure_value ns _ _) as [ns1 count]. cbn in E.
    destruct count as [[]|]; try discriminate;
      intros [= <-]; now rewrite lookup_insert_ne.
  - discriminate.
  - discriminate.
Qed.

Lemma take_actions_untouched (tuples : list ArgumentParser.action_tuple) :
  Forall (fun t : ArgumentParser.action_tuple => t.1.2 ∈ parser) tuples ->
  forall st st' : ArgumentParser.state,
    take_actions tuples st = Return st' ->
    ArgumentParser.namespace st' !! k = ArgumentParser.namespace st !! k.
Proof.
  induction 1 as [|[ia strings] tuples Hia _ IH]; intros st st';
    cbn [ArgumentParser.take_actions].
  - now intros [= <-].
  - intros H. apply bind_Return in H as (st1 & H1 & H).
    rewrite (IH _ _ H). unfold ArgumentParser.take_action in H1.
    apply bind_Return in H1 as (values & _ & H1).
    apply bind_Return in H1 as (ns1 & Hc & H1). injection H1 as <-. cbn.
    apply (call_untouched ia.2 _ _ values); [|exact Hc]. now apply dest_ne.
Qed.

Lemma consume_untouched (n : nat) :
  forall (strings : list (string * ArgumentParser.pattern))
         (st st' : ArgumentParser.state),
    (length strings <= n)%nat ->
    Forall (known parser) strings ->
    consume parser strings st = Return st' ->
    ArgumentParser.namespace st' !! k = ArgumentParser.namespace st !! k.
Proof.
  induction n as [|n IH]; intros strings st st' Hn Hknown H.
  - destruct strings; [|cbn in Hn; lia]. injection H as <-. cbn.
    now rewrite lookup_insert_ne.
  - destruct strings as [|[arg_string p] rest].
    { injection H as <-. cbn. now rewrite lookup_insert_ne. }
    cbn in Hn. apply Forall_cons in Hknown as [Hp Hrest].
    destruct p as [| |t];
      [injection H as <-; cbn; now rewrite lookup_insert_ne..|].
    destruct t as [[action option_string] explicit_arg].
    cbn [ArgumentParser.consume] in H. destruct action as [ia|].
    2:{ apply IH in H; [exact H|lia|exact Hrest]. }
    cbn in Hp. apply bind_Return in H as (r & Hr & H).
    assert (Hr' : Forall (fun t : ArgumentParser.action_tuple => t.1.2 ∈ parser) r.1 /\
                  forall last, r.2 = Some last -> last.2 ∈ parser).
    { destruct explicit_arg as [e|].
      - now apply (explicit_loop_in e ia option_string).
      - injection Hr as <-. split; [constructor|]. now intros last [= <-]. }
    destruct Hr' as [Hr1 Hr2]. destruct (r.2) as [last|].
    + specialize (Hr2 last eq_refl).
      assert (Hall : forall strings',
                Forall (fun t : ArgumentParser.action_tuple => t.1.2 ∈ parser)
                       (r.1 ++ [(last, strings')])).
      { intros strings'. apply Forall_app. split; [exact Hr1|].
        repeat constructor. exact Hr2. }
      destruct (argparse.nargs last.2).
      * destruct rest as [|[arg [| |t]] rest']; try discriminate H.
        apply bind_Return in H as (st1 & H1 & H).
        apply IH in H; [|cbn in Hn; lia|exact (Forall_inv_tail Hrest)].
        rewrite H. exact (take_actions_untouched _ (Hall _) _ _ H1).
      * apply bind_Return in H as (st1 & H1 & H).
        apply IH in H; [|lia|exact Hrest].
        rewrite H. exact (take_actions_untouched _ (Hall _) _ _ H1).
    + apply bind_Return in H as (st1 & H1 & H).
      apply IH in H; [|lia|exact Hrest].
      rewrite H. exact (take_actions_untouched _ Hr1 _ _ H1).
Qed.

Lemma convert_defaults_untouched (actions : list (nat * argparse.Action)) :
  Forall (fun ia : nat * argparse.Action => argparse.dest ia.2 <> k) actions ->
  forall st st' : ArgumentParser.state,
    convert_defaults actions st = Return st' ->
    ArgumentParser.namespace st' !! k = ArgumentParser.namespace st !! k.
Proof.
  induction 1 as [|[i action] actions Ha _ IH]; intros st st';
    cbn [ArgumentParser.convert_defaults].
  - now intros [= <-].
  - destruct (ArgumentParser.seen i st); [apply IH|].
    destruct (argparse.default action) as [[]|]; try apply IH.
    destruct (ArgumentParser.namespace st !! argparse.dest action) as [a|];
      [|apply IH].
    destruct (ArgumentParser.is_default a s); [|apply IH].
    intros H. apply bind_Return in H as (v & _ & H). apply IH in H.
    rewrite H. cbn. now rewrite lookup_insert_ne.
Qed.

Lemma parse_args_untouched (args : list string) (ns result : Namespace) :
  parse_args parser args ns = Return result -> result !! k = ns !! k.
Proof.
  unfold ArgumentParser.parse_args. intros H.
  apply bind_Return in H as (ps & Hps & H).
  apply bind_Return in H as (st & Hst & H).
  apply bind_Return in H as (st' & Hst' & H).
  destruct (ArgumentParser.extras st'); [|discriminate]. injection H as <-.
  assert (Hc : Forall (fun ia : nat * argparse.Action => argparse.dest ia.2 <> k)
                      (imap pair parser)).
  { apply Forall_forall. intros [i action] Hin.
    apply elem_of_lookup_imap in Hin as (i' & action' & [= -> ->] & Hi).
    cbn. apply dest_ne. now apply list_elem_of_lookup_2 in Hi. }
  rewrite (convert_defaults_untouched _ Hc _ _ Hst').
  rewrite (consume_untouched _ _ _ _ (le_n _) (arg_strings_pattern_known _ _ Hps) Hst).
  cbn. unfold ArgumentParser.add_args_default.
  destruct (_ !! "_args"); [|rewrite lookup_insert_ne by congruence];
    now apply add_defaults_untouched.
Qed.

End untouched.

Section kept.

Variable HelpFormatter_format_help : argparse.HelpFormatter -> string.
Variable progname : string.

Local Abbreviation parsed := (parsed HelpFormatter_format_help progname).
Local Abbreviation remainder := (remainder HelpFormatter_format_help progname).
Local Abbreviation next_call := (next_call HelpFormatter_format_help progname).
Local Abbreviation descends := (descends HelpFormatter_format_help progname).

Lemma next_call_namespace (f g : frame) (flags : Namespace) (k : string) :
  next_call f = Some g -> parsed f = Return flags -> k <> "_args" ->
  namespace g !! k = flags !! k.
Proof.
  rewrite next_call_eq. intros H Hf Hk. rewrite Hf in H.
  destruct (remainder f) as [[|child rest]|]; try discriminate.
  destruct (ArgumentParser.assoc child (_children (self f))); [|discriminate].
  injection H as <-. cbn. now rewrite lookup_insert_ne by congruence.
Qed.

Lemma descends_parsed (g h : frame) (path : list Command) (result : Namespace) :
  descends g path h -> parsed h = Return result ->
  (exists flags, parsed g = Return flags) /\
  exists nodes, path ++ [self h] = self g :: nodes.
Proof.
  intros Hd Hh. destruct Hd as [g|g g' path h Hn Hd].
  - split; [eauto|]. now exists [].
  - split; [|now exists (path ++ [self h])].
    revert Hn. rewrite next_call_eq. destruct (parsed g); [eauto|discriminate].
Qed.

(** X19. What the flags of a node stored stays in the namespace all
    the way down, unless a node further down has an argument of its own
    with the same destination: the parser of a node changes only the
    attributes its own arguments name, and [_args].  So for every
    attribute [k] other than [_args] that no argument of the nodes below
    [f] on the path names, the namespace parsed at the end of the path
    holds under [k] what the one parsed at [f] holds. *)
Theorem ancestor_flags_kept (f h : frame) (path : list Command)
        (flags result : Namespace) (k : string) :
  descends f path h ->
  parsed f = Return flags ->
  parsed h = Return result ->
  k <> "_args" ->
  Forall (fun node : Command =>
            Forall (fun action => argparse.dest action <> k) (_arguments node))
         (drop 1 (path ++ [self h])) ->
  result !! k = flags !! k.
Proof.
  intros Hd. revert flags.
  induction Hd as [f|f g path h Hn Hd IH]; intros flags Hf Hh Hk Hall.
  - rewrite Hf in Hh. now injection Hh as <-.
  - destruct (descends_parsed g h path result Hd Hh) as [[rg Hg] [nodes Hnodes]].
    cbn in Hall. rewrite Hnodes in Hall. apply Forall_cons in Hall as [Hself Hrest].
    rewrite (IH rg Hg Hh Hk) by (rewrite Hnodes; exact Hrest).
    rewrite <- (next_call_namespace f g flags k Hn Hf Hk).
    rewrite parsed_eq in Hg.
    exact (parse_args_untouched _ _ k _ Hk Hself _ _ _ Hg).
Qed.

End kept.

Lemma ancestor_flags_kept_witness :
  let f := Examples.call_of Examples.mopidy ["-v"; "-v"; "config"] in
  exists flags result,
    descends Formatter.format_help "mopidy" f [Examples.mopidy] (Examples.next f) /\
    parsed Formatter.format_help "mopidy" f = Return flags /\
    parsed Formatter.format_help "mopidy" (Examples.next f) = Return result /\
    flags !! "verbosity_level" = Some (Val (VInt 2)) /\
    result !! "verbosity_level" = Some (Val (VInt 2)).
Proof.
  intros f.
  assert (Hd : descends Formatter.format_help "mopidy" f [Examples.mopidy]
                        (Examples.next f)).
  { apply (descends_next f). eexists. vm_compute. reflexivity. }
  assert (Hv : match parsed Formatter.format_help "mopidy" f with
               | Return flags => flags !! "verbosity_level" = Some (Val (VInt 2))
               | Raise _ => False
               end) by (vm_compute; reflexivity).
  assert (Hr : match parsed Formatter.format_help "mopidy" (Examples.next f) with
               | Return _ => True
               | Raise _ => False
               end) by (vm_compute; exact I).
  destruct (parsed Formatter.format_help "mopidy" f) as [flags|e] eqn:Hf;
    [|destruct Hv].
  destruct (parsed Formatter.format_help "mopidy" (Examples.next f))
    as [result|e] eqn:Hh; [|destruct Hr].
  exists flags, result. repeat split; try assumption.
  rewrite <- Hv.
  apply (ancestor_flags_kept Formatter.format_help "mopidy" f (Examples.next f)
           [Examples.mopidy] flags result "verbosity_level" Hd Hf Hh).
  - discriminate.
  - vm_compute. repeat constructor.
Defined.

(** ** Any sequence of [-q] and [-v] *)

Lemma convert_defaults_Return (actions : list (nat * argparse.Action)) :
  Forall (fun ia : nat * argparse.Action =>
            forall d, argparse.default ia.2 = Some (VStr d) ->
                      exists v, ArgumentParser._get_value ia.2 d = Return v) actions ->
  forall st : ArgumentParser.state,
    exists st',
      ArgumentParser.convert_defaults actions st = Return st' /\
      ArgumentParser.extras st' = ArgumentParser.extras st.
Proof.
  induction 1 as [|[i action] actions Ha _ IH]; intros st;
    cbn [ArgumentParser.convert_defaults]; [eauto|].
  cbn [snd] in Ha.
  destruct (ArgumentParser.seen i st); [apply IH|].
  destruct (argparse.default action) as [[]|] eqn:Ed; try apply IH.
  destruct (ArgumentParser.namespace st !! argparse.dest action) as [a|];
    [|apply IH].
  destruct (ArgumentParser.is_default a s); [|apply IH].
  destruct (Ha s eq_refl) as [v ->]. cbn [mbind result_bind].
  match goal with
  | |- context [ArgumentParser.convert_defaults actions ?st1] =>
      destruct (IH st1) as (st' & E & Hx)
  end.
  exists st'. split; [exact E|exact Hx].
Qed.

Lemma convert_defaults_keeps (k : string) (actions : list (nat * argparse.Action)) :
  Forall (fun ia : nat * argparse.Action =>
            argparse.dest ia.2 <> k \/
            forall d, argparse.default ia.2 <> Some (VStr d)) actions ->
  forall st st' : ArgumentParser.state,
    ArgumentParser.convert_defaults actions st = Return st' ->
    ArgumentParser.namespace st' !! k = ArgumentParser.namespace st !! k.
Proof.
  induction 1 as [|[i action] actions Ha _ IH]; intros st st';
    cbn [ArgumentParser.convert_defaults].
  - now intros [= <-].
  - cbn [snd] in Ha.
    destruct (ArgumentParser.seen i st); [apply IH|].
    destruct (argparse.default action) as [[]|] eqn:Ed; try apply IH.
    destruct (ArgumentParser.namespace st !! argparse.dest action) as [a|];
      [|apply IH].
    destruct (ArgumentParser.is_default a s); [|apply IH].
    intros H. apply bind_Return in H as (v & _ & H). apply IH in H.
    rewrite H. cbn. destruct Ha as [Ha|Ha]; [|now destruct (Ha s)].
    now rewrite lookup_insert_ne.
Qed.

Section verbosity.

Variable HelpFormatter_format_help : argparse.HelpFormatter -> string.
Variables progname get_version DEFAULT_CONFIG : string.

Local Abbreviation root := (RootCommand get_version DEFAULT_CONFIG).
Local Abbreviation parser := (_build (RootCommand get_version DEFAULT_CONFIG)).
Local Abbreviation parse_args :=
  (ArgumentParser.parse_args HelpFormatter_format_help progname).
Local Abbreviation consume :=
  (ArgumentParser.consume HelpFormatter_format_help progname).
Local Abbreviation take_action :=
  (ArgumentParser.take_action HelpFormatter_format_help progname).

(** The action of a flag, with its position in the parser, and the
    pattern entry of the flag. *)
Local Abbreviation action_of :=
  (fun flag : string =>
     if String.eqb flag "-q" then (2%nat, quiet_argument)
     else (3%nat, verbose_argument)).
Local Abbreviation entry :=
  (fun flag : string =>
     (flag, ArgumentParser.pattern_O (Some (action_of flag), flag, None))).

Lemma flags_pattern (flags : list string) :
  Forall (fun flag => flag = "-q" \/ flag = "-v") flags ->
  ArgumentParser.arg_strings_pattern parser flags = Return (map entry flags).
Proof.
  induction 1 as [|flag flags Hflag _ IH]; [reflexivity|].
  cbn [ArgumentParser.arg_strings_pattern map]. rewrite IH.
  destruct Hflag as [-> | ->]; reflexivity.
Qed.

Lemma consume_flag (flag : string) (rest : list (string * ArgumentParser.pattern))
      (st : ArgumentParser.state) :
  flag = "-q" \/ flag = "-v" ->
  consume parser (entry flag :: rest) st
  = take_action (action_of flag) [] st ≫= consume parser rest.
Proof.
  intros [-> | ->]; [reflexivity|].
  change (String.eqb "-v" "-q") with false. cbv iota.
  cbn [ArgumentParser.consume mbind result_bind fst snd app
       ArgumentParser.take_actions].
  change (argparse.nargs verbose_argument) with argparse.nargs_0. cbv iota.
  now destruct (take_action (3%nat, verbose_argument) [] st).
Qed.

Lemma take_action_flag (flag : string) (st : ArgumentParser.state) (level : value) :
  flag = "-q" \/ flag = "-v" ->
  ArgumentParser.namespace st !! "verbosity_level" = Some (Val level) ->
  level = VNone \/ (exists n, level = VInt n) ->
  exists st',
    take_action (action_of flag) [] st = Return st' /\
    ArgumentParser.extras st' = ArgumentParser.extras st /\
    ArgumentParser.namespace st' !! "verbosity_level"
    = Some (Val (verbosity_after level flag)).
Proof.
  intros Hflag Hns Hlevel. unfold ArgumentParser.take_action.
  destruct Hflag as [-> | ->]; cbn.
  - eexists. split; [reflexivity|]. split; [reflexivity|].
    cbn. apply lookup_insert_eq.
  - unfold ArgumentParser._ensure_value. rewrite Hns.
    destruct Hlevel as [-> | [n ->]]; cbn;
      (eexists; split; [reflexivity|]; split; [reflexivity|]);
      cbn; apply lookup_insert_eq.
Qed.

Lemma verbosity_after_level (level : value) (flag : string) :
  verbosity_after level flag = VNone \/
  exists n, verbosity_after level flag = VInt n.
Proof.
  right. unfold verbosity_after. destruct (String.eqb flag "-q"); [eauto|].
  destruct level; eauto.
Qed.

Lemma consume_flags (flags : list string) :
  Forall (fun flag => flag = "-q" \/ flag = "-v") flags ->
  forall (st : ArgumentParser.state) (level : value),
    ArgumentParser.namespace st !! "verbosity_level" = Some (Val level) ->
    level = VNone \/ (exists n, level = VInt n) ->
    exists st',
      consume parser (map entry flags) st = Return st' /\
      ArgumentParser.extras st' = ArgumentParser.extras st /\
      ArgumentParser.namespace st' !! "verbosity_level"
      = Some (Val (foldl verbosity_after level flags)) /\
      ArgumentParser.namespace st' !! "_args" = Some (Val (VList [])).
Proof.
  induction 1 as [|flag flags Hflag _ IH]; intros st level Hns Hlevel.
  - eexists. split; [reflexivity|]. split; [reflexivity|]. cbn.
    now rewrite lookup_insert_ne, lookup_insert_eq.
  - cbn [map]. rewrite (consume_flag flag _ st Hflag).
    destruct (take_action_flag flag st level Hflag Hns Hlevel) as (st1 & -> & Hx & H1).
    cbn [mbind result_bind].
    destruct (IH st1 _ H1 (verbosity_after_level level flag))
      as (st' & E & Hx' & Hv & Ha).
    exists st'. split; [exact E|]. split; [congruence|]. split; [exact Hv|exact Ha].
Qed.

Lemma root_defaults_convert :
  Forall (fun ia : nat * argparse.Action =>
            forall d, argparse.default ia.2 = Some (VStr d) ->
                      exists v, ArgumentParser._get_value ia.2 d = Return v)
         (imap pair parser).
Proof.
  cbn [imap _build RootCommand add_argument set Command_init _arguments app].
  repeat (apply Forall_cons; split;
          [cbn; intros d; first [discriminate|intros _; eexists; reflexivity]|]).
  constructor.
Qed.

Lemma root_defaults_keep :
  Forall (fun ia : nat * argparse.Action =>
            argparse.dest ia.2 <> "verbosity_level" \/
            forall d, argparse.default ia.2 <> Some (VStr d))
         (imap pair parser).
Proof.
  cbn [imap _build RootCommand add_argument set Command_init _arguments app].
  repeat (apply Forall_cons; split;
          [cbn; first [right; discriminate|left; discriminate]|]).
  constructor.
Qed.

Lemma root_initial_level :
  ArgumentParser.add_args_default (ArgumentParser.add_defaults parser ∅)
    !! "verbosity_level" = Some (Val VNone).
Proof. vm_compute. reflexivity. Qed.

Lemma parse_args_steps (actions : list argparse.Action) (args : list string)
      (ns : Namespace) (ps : list (string * ArgumentParser.pattern))
      (st st' : ArgumentParser.state) :
  ArgumentParser.arg_strings_pattern actions args = Return ps ->
  consume actions ps
    {| ArgumentParser.namespace :=
         ArgumentParser.add_args_default (ArgumentParser.add_defaults actions ns);
       ArgumentParser.seen_actions := [];
       ArgumentParser.extras := [] |} = Return st ->
  ArgumentParser.convert_defaults (imap pair actions) st = Return st' ->
  ArgumentParser.extras st' = [] ->
  parse_args actions args ns = Return (ArgumentParser.namespace st').
Proof.
  intros H1 H2 H3 H4. unfold ArgumentParser.parse_args.
  rewrite H1. cbn [mbind result_bind]. rewrite H2. cbn [mbind result_bind].
  rewrite H3. cbn [mbind result_bind]. now rewrite H4.
Qed.

Lemma root_flags_parsed (flags : list string) :
  Forall (fun flag => flag = "-q" \/ flag = "-v") flags ->
  exists result,
    parse_args parser flags ∅ = Return result /\
    result !! "verbosity_level" = Some (Val (foldl verbosity_after VNone flags)) /\
    result !! "_args" = Some (Val (VList [])).
Proof.
  intros Hflags.
  destruct (consume_flags flags Hflags
              {| ArgumentParser.namespace :=
                   ArgumentParser.add_args_default
                     (ArgumentParser.add_defaults parser ∅);
                 ArgumentParser.seen_actions := [];
                 ArgumentParser.extras := [] |} VNone root_initial_level)
    as (st & Hst & Hx & Hv & Ha); [now left|].
  destruct (convert_defaults_Return _ root_defaults_convert st) as (st' & Hst' & Hx').
  exists (ArgumentParser.namespace st'). split; [|split].
  - apply (parse_args_steps _ _ _ _ _ _ (flags_pattern flags Hflags) Hst Hst').
    now rewrite Hx', Hx.
  - rewrite (convert_defaults_keeps "verbosity_level" _ root_defaults_keep _ _ Hst').
    exact Hv.
  - exact (convert_defaults_args _ _ _ _ Ha Hst').
Qed.

(** X20. The verbosity flags of the root command, for every command
    line made of [-q] and [-v] only, in any number and order: [parse]
    returns, and [verbosity_level] is what the flags leave when they
    are taken from left to right, [-q] storing -1 and [-v] adding one
    to the level so far (counting from 0 when no flag came before).
    With no flag the level is [None]; the parser sets no upper limit
    on the number of [-v]. *)
Theorem verbosity_of_flags (flags : list string) (name : option string) :
  Forall (fun flag => flag = "-q" \/ flag = "-v") flags ->
  exists result,
    parse HelpFormatter_format_help progname root flags name = Return result /\
    result !! "verbosity_level" = Some (Val (foldl verbosity_after VNone flags)) /\
    result !! "command" = Some (Ref root).
Proof.
  intros Hflags.
  destruct (root_flags_parsed flags Hflags) as (result & Hp & Hv & Ha).
  exists (finish root (_overrides root) result).
  split; [exact (parse_terminal _ _ root flags name _ Hp Ha)|]. split.
  - assert (Ho : _overrides root !! "verbosity_level" = None)
      by (vm_compute; reflexivity).
    rewrite finish_lookup, Ho by discriminate. exact Hv.
  - unfold finish. apply lookup_insert_eq.
Qed.

End verbosity.

Lemma verbosity_of_flags_witness :
  Forall (fun flag => flag = "-q" \/ flag = "-v") ["-v"; "-q"; "-v"; "-v"] /\
  exists result,
    parse Formatter.format_help "mopidy"
          (RootCommand "0.18.3" "/etc/xdg/mopidy/mopidy.conf")
          ["-v"; "-q"; "-v"; "-v"] None = Return result /\
    result !! "verbosity_level" = Some (Val (VInt 1)).
Proof.
  assert (H : Forall (fun flag => flag = "-q" \/ flag = "-v") ["-v"; "-q"; "-v"; "-v"]).
  { repeat (apply Forall_cons; split;
            [first [left; reflexivity|right; reflexivity]|]).
    constructor. }
  split; [exact H|].
  destruct (verbosity_of_flags Formatter.format_help "mopidy" "0.18.3"
              "/etc/xdg/mopidy/mopidy.conf" ["-v"; "-q"; "-v"; "-v"] None H)
    as (result & Hp & Hv & _).
  exists result. split; [exact Hp|exact Hv].
Defined.
